(** * FoundryTools-CLI: name table, style bits, vertical metrics and
      TrueType overlap removal.

    A shallow embedding of [ftcli/Lib/TTFontCLI.py],
    [ftCLI/Lib/utils/contours.py] and [foundryToolsCLI/CLI/ftcli_name.py].
    Python integers are [Z]; Python strings are [string]; dictionaries keyed
    by glyph name are [gmap string _]; the name table is the list of its
    records, in order. The methods of the font library that decide a
    property (records of the name table, component depth, bounds, hinting)
    are written out after the library; its other operations (path
    simplification, pens, drawing, encodings, compilation) are Section
    variables. *)

From Stdlib Require Import ZArith List String Ascii Bool Lia.
From Stdlib Require Import Floats.SpecFloat.
From stdpp Require Import gmap strings list sorting.

Local Open Scope Z_scope.

(** ** Bit helpers of [TTFontCLI.py] *)
Module Bits.

(** [is_nth_bit_set]: [x & (1 << n)] is truthy. *)
Definition is_nth_bit_set (x n : Z) : bool :=
  negb (Z.land x (Z.shiftl 1 n) =? 0).

(** [set_nth_bit]: [x | 1 << n]. *)
Definition set_nth_bit (x n : Z) : Z := Z.lor x (Z.shiftl 1 n).

(** [unset_nth_bit]: [x & ~(1 << n)]. *)
Definition unset_nth_bit (x n : Z) : Z := Z.land x (Z.lnot (Z.shiftl 1 n)).

Lemma is_nth_bit_set_testbit x n : 0 <= n -> is_nth_bit_set x n = Z.testbit x n.
Proof.
  intros Hn. unfold is_nth_bit_set.
  destruct (Z.testbit x n) eqn:Hb.
  - apply negb_true_iff, Z.eqb_neq. intros H0.
    assert (Ht : Z.testbit (Z.land x (Z.shiftl 1 n)) n = true).
    { rewrite Z.land_spec, Hb, Z.shiftl_spec by lia.
      replace (n - n) with 0 by lia. reflexivity. }
    rewrite H0, Z.bits_0 in Ht. discriminate.
  - apply negb_false_iff, Z.eqb_eq. apply Z.bits_inj'. intros k Hk.
    rewrite Z.land_spec, Z.bits_0, Z.shiftl_spec by lia.
    destruct (Z.eq_dec k n) as [->|Hne].
    + rewrite Hb. reflexivity.
    + replace (Z.testbit 1 (k - n)) with false; [apply andb_false_r|].
      symmetry. destruct (Z.ltb_spec k n).
      * apply Z.testbit_neg_r. lia.
      * change 1 with (2 ^ 0). apply Z.pow2_bits_false. lia.
Qed.

Lemma testbit_one_shift n k : 0 <= n -> 0 <= k ->
  Z.testbit (Z.shiftl 1 n) k = (k =? n).
Proof.
  intros Hn Hk. rewrite Z.shiftl_spec by lia.
  destruct (Z.eqb_spec k n) as [->|Hne].
  - replace (n - n) with 0 by lia. reflexivity.
  - destruct (Z.ltb_spec k n).
    + apply Z.testbit_neg_r. lia.
    + change 1 with (2 ^ 0). apply Z.pow2_bits_false. lia.
Qed.

Lemma set_nth_bit_spec x n k : 0 <= n -> 0 <= k ->
  Z.testbit (set_nth_bit x n) k = Z.testbit x k || (k =? n).
Proof.
  intros Hn Hk. unfold set_nth_bit.
  rewrite Z.lor_spec, testbit_one_shift by lia. reflexivity.
Qed.

Lemma unset_nth_bit_spec x n k : 0 <= n -> 0 <= k ->
  Z.testbit (unset_nth_bit x n) k = Z.testbit x k && negb (k =? n).
Proof.
  intros Hn Hk. unfold unset_nth_bit.
  rewrite Z.land_spec, Z.lnot_spec, testbit_one_shift by lia. reflexivity.
Qed.

Lemma is_set_set_nth x n k : 0 <= n -> 0 <= k ->
  is_nth_bit_set (set_nth_bit x n) k = is_nth_bit_set x k || (k =? n).
Proof.
  intros Hn Hk. rewrite !is_nth_bit_set_testbit by lia.
  apply set_nth_bit_spec; lia.
Qed.

Lemma is_set_unset_nth x n k : 0 <= n -> 0 <= k ->
  is_nth_bit_set (unset_nth_bit x n) k = is_nth_bit_set x k && negb (k =? n).
Proof.
  intros Hn Hk. rewrite !is_nth_bit_set_testbit by lia.
  apply unset_nth_bit_spec; lia.
Qed.

(** X1. For a bit position [n >= 0] and any integer [x], negative ones
    included: after [set_nth_bit] the bit tests set, after [unset_nth_bit] it
    tests clear, no other bit changes its test, setting and clearing undo each
    other up to the bit itself, and setting a set bit or clearing a clear bit
    gives [x] back. *)
Theorem bit_helpers_round_trip (x n : Z) :
  0 <= n ->
  is_nth_bit_set (set_nth_bit x n) n = true
  /\ is_nth_bit_set (unset_nth_bit x n) n = false
  /\ (forall k, 0 <= k -> k <> n ->
        is_nth_bit_set (set_nth_bit x n) k = is_nth_bit_set x k
        /\ is_nth_bit_set (unset_nth_bit x n) k = is_nth_bit_set x k)
  /\ unset_nth_bit (set_nth_bit x n) n = unset_nth_bit x n
  /\ set_nth_bit (unset_nth_bit x n) n = set_nth_bit x n
  /\ (is_nth_bit_set x n = true -> set_nth_bit x n = x)
  /\ (is_nth_bit_set x n = false -> unset_nth_bit x n = x).
Proof.
  intros Hn.
  split; [rewrite is_set_set_nth, Z.eqb_refl by lia; apply orb_true_r|].
  split; [rewrite is_set_unset_nth, Z.eqb_refl by lia; apply andb_false_r|].
  split.
  { intros k Hk Hne. rewrite is_set_set_nth, is_set_unset_nth by lia.
    replace (k =? n) with false by (symmetry; apply Z.eqb_neq; exact Hne).
    rewrite orb_false_r, andb_true_r. split; reflexivity. }
  split; [|split; [|split]].
  - apply Z.bits_inj'. intros k Hk.
    rewrite !unset_nth_bit_spec, set_nth_bit_spec by lia.
    destruct (Z.testbit x k), (k =? n); reflexivity.
  - apply Z.bits_inj'. intros k Hk.
    rewrite !set_nth_bit_spec, unset_nth_bit_spec by lia.
    destruct (Z.testbit x k), (k =? n); reflexivity.
  - rewrite is_nth_bit_set_testbit by lia. intros Hset.
    apply Z.bits_inj'. intros k Hk. rewrite set_nth_bit_spec by lia.
    destruct (Z.eqb_spec k n) as [->|_];
      [rewrite Hset; reflexivity | apply orb_false_r].
  - rewrite is_nth_bit_set_testbit by lia. intros Hclear.
    apply Z.bits_inj'. intros k Hk. rewrite unset_nth_bit_spec by lia.
    destruct (Z.eqb_spec k n) as [->|_];
      [rewrite Hclear; reflexivity | apply andb_true_r].
Qed.

Lemma bit_helpers_round_trip_witness :
  is_nth_bit_set (set_nth_bit (-3) 1) 1 = true
  /\ is_nth_bit_set (unset_nth_bit 65 6) 6 = false
  /\ unset_nth_bit (set_nth_bit 64 5) 5 = unset_nth_bit 64 5.
Proof.
  split; [exact (proj1 (bit_helpers_round_trip (-3) 1 ltac:(lia)))|].
  split; [exact (proj1 (proj2 (bit_helpers_round_trip 65 6 ltac:(lia))))|].
  exact (proj1 (proj2 (proj2 (proj2 (bit_helpers_round_trip 64 5 ltac:(lia)))))).
Defined.

End Bits.

(** ** Python string methods used by the sources

    A [string] is a sequence of characters; each [ascii] stands for one
    code point below 256. *)
Module PyStr.

Local Open Scope string_scope.

(** Scan for [str.replace] with a non-empty pattern: [skip] counts the
    characters of a match that are still to be dropped. *)
Fixpoint replace_from (old new : string) (skip : nat) (s : string) : string :=
  match s with
  | EmptyString => EmptyString
  | String c s' =>
      match skip with
      | S k => replace_from old new k s'
      | O =>
          if String.prefix old s
          then new ++ replace_from old new (Nat.pred (String.length old)) s'
          else String c (replace_from old new O s')
      end
  end.

(** With an empty pattern Python inserts [new] before every character and at
    the end. *)
Fixpoint replace_empty (new : string) (s : string) : string :=
  match s with
  | EmptyString => new
  | String c s' => new ++ String c (replace_empty new s')
  end.

(** [s.replace(old, new)] *)
Definition replace (s old new : string) : string :=
  match old with
  | EmptyString => replace_empty new s
  | _ => replace_from old new O s
  end.

(** [str.isspace] on one character (code points below 256). *)
Definition is_space (c : ascii) : bool :=
  let n := nat_of_ascii c in
  ((9 <=? n) && (n <=? 13) || (28 <=? n) && (n <=? 32)
   || (n =? 133) || (n =? 160))%nat.

Fixpoint lstrip (s : string) : string :=
  match s with
  | EmptyString => EmptyString
  | String c s' => if is_space c then lstrip s' else s
  end.

Fixpoint rstrip (s : string) : string :=
  match s with
  | EmptyString => EmptyString
  | String c s' =>
      match rstrip s' with
      | EmptyString => if is_space c then EmptyString else String c EmptyString
      | r => String c r
      end
  end.

(** [s.strip()] *)
Definition strip (s : string) : string := rstrip (lstrip s).

Definition lower_char (c : ascii) : ascii :=
  let n := nat_of_ascii c in
  if ((65 <=? n) && (n <=? 90)
      || (192 <=? n) && (n <=? 222) && negb (n =? 215))%nat
  then ascii_of_nat (n + 32) else c.

(** [s.lower()] *)
Fixpoint lower (s : string) : string :=
  match s with
  | EmptyString => EmptyString
  | String c s' => String (lower_char c) (lower s')
  end.

Fixpoint repeat_char (c : ascii) (n : nat) : string :=
  match n with O => EmptyString | S k => String c (repeat_char c k) end.

(** [s.ljust(width, fill)] *)
Definition ljust (s : string) (width : nat) (fill : ascii) : string :=
  s ++ repeat_char fill (width - String.length s).

(** [s.split(sep)[-1]] for a one-character separator: what follows the last
    occurrence of [sep]. *)
Fixpoint split_last (sep : ascii) (s : string) : string :=
  match s with
  | EmptyString => EmptyString
  | String c s' =>
      if existsb (Ascii.eqb sep) (list_ascii_of_string s') then split_last sep s'
      else if Ascii.eqb c sep then s' else s
  end.

(** ["{} {}".format(a, b)] *)
Definition fmt2 (a b : string) : string := a ++ " " ++ b.

Example replace_ex1 : replace "Foo Regular Italic" "Regular" "" = "Foo  Italic".
Proof. reflexivity. Qed.

Example replace_ex2 : replace "aaa" "aa" "b" = "ba".
Proof. reflexivity. Qed.

Example replace_ex3 : replace "ab" "" "-" = "-a-b-".
Proof. reflexivity. Qed.

Example strip_ex : strip "  Foo  Bold " = "Foo  Bold".
Proof. reflexivity. Qed.

Example split_last_ex : split_last " " "Thu Jan  1 00:00:00 2015" = "2015".
Proof. reflexivity. Qed.

Example lower_ex : lower "NorMal" = "normal".
Proof. reflexivity. Qed.

(** [old in s]: [old] occurs in [s]; the empty string occurs in every
    string. *)
Fixpoint contains (old s : string) : bool :=
  if String.prefix old s then true
  else match s with
       | EmptyString => false
       | String _ s' => contains old s'
       end.

Example contains_ex :
  contains "Bold" "Foo Bold Italic" = true /\ contains "" "" = true
  /\ contains "Bold" "Foo Bol" = false.
Proof. repeat split. Qed.

Lemma prefix_empty s : String.prefix "" s = true.
Proof. destruct s; reflexivity. Qed.

(** Replacing a one-character string by the empty string takes every
    occurrence of the character out and adds nothing. *)
Lemma replace_char_removed (c : ascii) (s : string) :
  list_ascii_of_string (replace s (String c "") "")
  = List.filter (fun d => if ascii_dec c d then false else true)
      (list_ascii_of_string s).
Proof.
  unfold replace. induction s as [|d s IH]; [reflexivity|].
  cbn [replace_from String.prefix String.length Nat.pred list_ascii_of_string
         List.filter].
  destruct (ascii_dec c d).
  - rewrite prefix_empty. cbn [append]. exact IH.
  - cbn [list_ascii_of_string]. f_equal. exact IH.
Qed.

Lemma replace_char_In (c : ascii) (s : string) (d : ascii) :
  In d (list_ascii_of_string (replace s (String c "") "")) ->
  d <> c /\ In d (list_ascii_of_string s).
Proof.
  rewrite replace_char_removed, filter_In. intros [Hin Hd].
  split; [|exact Hin]. destruct (ascii_dec c d); [discriminate | congruence].
Qed.

End PyStr.

(** ** Python floats

    Binary64 numbers with round-to-nearest-even, as [spec_float] (precision
    53, maximal exponent 1024). [None] stands for a raised [OverflowError] or
    [ValueError]. *)
Module PyFloat.

Definition prec : Z := 53.
Definition emax : Z := 1024.

(** [float(n)] for an integer [n]; too large an integer raises. *)
Definition of_int (n : Z) : option spec_float :=
  match binary_normalize prec emax n 0 false with
  | S754_finite s m e => Some (S754_finite s m e)
  | S754_zero s => Some (S754_zero s)
  | _ => None
  end.

Definition mul (x y : spec_float) : spec_float := SFmul prec emax x y.
Definition div (x y : spec_float) : spec_float := SFdiv prec emax x y.
Definition add (x y : spec_float) : spec_float := SFadd prec emax x y.

Definition one : spec_float := binary_normalize prec emax 1 0 false.
Definition half : spec_float := binary_normalize prec emax 1 (-1) false.

(** [int(x)]: truncation toward zero; raises on infinities and NaN. *)
Definition to_int (x : spec_float) : option Z :=
  match x with
  | S754_zero _ => Some 0
  | S754_finite s m e =>
      let a := match e with
               | Zneg p => Z.shiftr (Zpos m) (Zpos p)
               | _ => Z.shiftl (Zpos m) e
               end in
      Some (if s then - a else a)
  | _ => None
  end.

(** [int(f * n)], [int(n + f * k)] with the integers converted first. *)
Definition int_mul (f : spec_float) (n : Z) : option Z :=
  match of_int n with
  | Some x => to_int (mul f x)
  | None => None
  end.

Example int_half_odd : int_mul half 399 = Some 199.
Proof. vm_compute. reflexivity. Qed.

Example int_half_neg : int_mul half (-399) = Some (-199).
Proof. vm_compute. reflexivity. Qed.

(** *** Halving an integer is exact *)

Lemma iter_pos_nat {A} (f : A -> A) p x :
  SpecFloat.iter_pos f p x = Nat.iter (Pos.to_nat p) f x.
Proof.
  revert x. induction p as [p IH|p IH|]; intros x; cbn [SpecFloat.iter_pos].
  - rewrite !IH, Pos2Nat.inj_xI, <- Nat.iter_add, <- Nat.iter_succ_r.
    f_equal. lia.
  - rewrite !IH, Pos2Nat.inj_xO, <- Nat.iter_add. f_equal. lia.
  - reflexivity.
Qed.

Lemma shr_exact a k :
  Nat.iter k shr_1 (Build_shr_record (Zpos (Pos.shiftl_nat a k)) false false)
  = Build_shr_record (Zpos a) false false.
Proof.
  induction k as [|k IH]; [reflexivity|].
  rewrite Nat.iter_succ_r. exact IH.
Qed.

Lemma digits_shiftl a k :
  Zpos (digits2_pos (Pos.shiftl_nat a k)) = Zpos (digits2_pos a) + Z.of_nat k.
Proof.
  induction k as [|k IH]; [cbn; lia|].
  change (Pos.shiftl_nat a (S k)) with (xO (Pos.shiftl_nat a k)).
  cbn [digits2_pos]. rewrite Pos2Z.inj_succ, IH. lia.
Qed.

Lemma digits_bound p : Zpos p < 2 ^ Zpos (digits2_pos p).
Proof.
  induction p as [p IH|p IH|]; cbn [digits2_pos]; [| |reflexivity];
    rewrite Pos2Z.inj_succ, Z.pow_succ_r by lia; lia.
Qed.

Lemma digits_small p : Zpos p < 2 ^ 53 -> Zpos (digits2_pos p) <= 53.
Proof.
  intros H. destruct (Z.le_gt_cases (Zpos (digits2_pos p)) 53) as [|Hgt]; [assumption|].
  exfalso.
  assert (Hlow : 2 ^ (Zpos (digits2_pos p) - 1) <= Zpos p).
  { clear. induction p as [p IH|p IH|]; cbn [digits2_pos]; [| |cbn; lia];
      rewrite Pos2Z.inj_succ;
      replace (Z.succ (Zpos (digits2_pos p)) - 1)
        with (Z.succ (Zpos (digits2_pos p) - 1)) by lia;
      rewrite Z.pow_succ_r by lia; lia. }
  assert (2 ^ 53 <= 2 ^ (Zpos (digits2_pos p) - 1))
    by (apply Z.pow_le_mono_r; lia).
  lia.
Qed.

Lemma fexp_normal x : -1074 <= x - 53 -> fexp prec emax x = x - 53.
Proof. intros H. unfold fexp, emin, prec, emax. lia. Qed.

Lemma shr_by k mrs e :
  shr mrs e (Z.of_nat k) = (Nat.iter k shr_1 mrs, e + Z.of_nat k).
Proof.
  destruct k as [|k].
  - change (Z.of_nat 0) with 0. unfold shr. f_equal. lia.
  - change (Z.of_nat (S k)) with (Zpos (Pos.of_succ_nat k)). unfold shr. rewrite iter_pos_nat, SuccNat2Pos.id_succ.
    reflexivity.
Qed.

Lemma round_aux_exact s a k e :
  Zpos (digits2_pos a) = 53 ->
  -1074 <= e + Z.of_nat k <= 971 ->
  binary_round_aux prec emax s (Zpos (Pos.shiftl_nat a k)) e loc_Exact
  = S754_finite s a (e + Z.of_nat k).
Proof.
  intros Hd He. unfold binary_round_aux, shr_fexp.
  cbn [Zdigits2 shr_record_of_loc]. rewrite digits_shiftl, Hd.
  rewrite fexp_normal by lia.
  replace (53 + Z.of_nat k + e - 53 - e) with (Z.of_nat k) by lia.
  rewrite shr_by, shr_exact.
  cbn [shr_m loc_of_shr_record round_nearest_even Zdigits2 shr_record_of_loc].
  rewrite Hd, fexp_normal by lia.
  replace (53 + (e + Z.of_nat k) - 53 - (e + Z.of_nat k)) with (Z.of_nat 0)
    by (change (Z.of_nat 0) with 0; lia).
  rewrite shr_by. cbn [Nat.iter shr_m Z.of_nat].
  rewrite Z.add_0_r.
  replace (e + Z.of_nat k <=? emax - prec) with true; [reflexivity|].
  symmetry. apply Z.leb_le. unfold emax, prec. lia.
Qed.

Lemma shiftl_nat_value m j : Zpos (Pos.shiftl_nat m j) = Zpos m * 2 ^ Z.of_nat j.
Proof.
  induction j as [|j IH]; [cbn; lia|].
  change (Pos.shiftl_nat m (S j)) with (xO (Pos.shiftl_nat m j)).
  rewrite Pos2Z.inj_xO, IH, Nat2Z.inj_succ, Z.pow_succ_r by lia. lia.
Qed.

Lemma shl_align_down m ex ex' :
  ex' <= ex ->
  shl_align m ex ex' = (Pos.shiftl_nat m (Z.to_nat (ex - ex')), ex').
Proof.
  intros H. unfold shl_align. destruct (ex' - ex) as [|d|d] eqn:E; [|lia|].
  - replace (ex - ex') with 0 by lia. cbn. f_equal. lia.
  - replace (ex - ex') with (Zpos d) by lia.
    rewrite Z2Nat.inj_pos. unfold Pos.shiftl_nat.
    rewrite Pos2Nat.inj_iter. reflexivity.
Qed.

(** An integer below 2^53 in magnitude converts exactly: the mantissa is the
    integer shifted up to 53 digits. *)
Lemma binary_round_small s m :
  Zpos m < 2 ^ 53 ->
  binary_round prec emax s m 0
  = S754_finite s (Pos.shiftl_nat m (Z.to_nat (53 - Zpos (digits2_pos m))))
      (Zpos (digits2_pos m) - 53).
Proof.
  intros Hm. pose proof (digits_small m Hm) as Hn.
  unfold binary_round. rewrite fexp_normal by lia.
  rewrite shl_align_down by lia.
  replace (0 - (Zpos (digits2_pos m) + 0 - 53)) with (53 - Zpos (digits2_pos m))
    by lia.
  replace (Zpos (digits2_pos m) + 0 - 53) with (Zpos (digits2_pos m) - 53) by lia.
  set (A := Pos.shiftl_nat m (Z.to_nat (53 - Zpos (digits2_pos m)))).
  change (Zpos A) with (Zpos (Pos.shiftl_nat A 0)).
  rewrite round_aux_exact.
  - f_equal. change (Z.of_nat 0) with 0. lia.
  - subst A. rewrite digits_shiftl, Z2Nat.id by lia. lia.
  - change (Z.of_nat 0) with 0. lia.
Qed.

Lemma mul_half_small s m :
  Zpos m < 2 ^ 53 ->
  to_int (mul half (binary_round prec emax s m 0))
  = Some (if s then - (Zpos m / 2) else Zpos m / 2).
Proof.
  intros Hm. pose proof (digits_small m Hm) as Hn.
  rewrite binary_round_small by exact Hm.
  set (n := Zpos (digits2_pos m)) in *.
  set (A := Pos.shiftl_nat m (Z.to_nat (53 - n))).
  assert (Hhalf : half = S754_finite false (Pos.shiftl_nat 1 52) (-53))
    by (vm_compute; reflexivity).
  rewrite Hhalf. unfold mul, SFmul.
  assert (Hmul : (Pos.shiftl_nat 1 52 * A)%positive = Pos.shiftl_nat A 52)
    by reflexivity.
  rewrite Hmul, round_aux_exact.
  - cbn [xorb]. unfold to_int.
    assert (Hpos : 0 < n) by (subst n; lia).
    destruct (-53 + (n - 53) + Z.of_nat 52) as [|p|p] eqn:E; [lia|lia|].
    rewrite Z.shiftr_div_pow2 by lia.
    assert (Hp : Zpos p = 53 - n + 1) by lia.
    rewrite Hp. subst A. rewrite shiftl_nat_value, Z2Nat.id by lia.
    rewrite Z.pow_add_r by lia. change (2 ^ 1) with 2.
    rewrite (Z.mul_comm (2 ^ (53 - n)) 2).
    rewrite Z.div_mul_cancel_r by lia. reflexivity.
  - subst A n. rewrite digits_shiftl, Z2Nat.id by lia. lia.
  - lia.
Qed.

(** [int(0.5 * d)] is [d] divided by 2 and truncated toward zero. *)
Lemma int_mul_half d :
  - 2 ^ 53 < d < 2 ^ 53 -> int_mul half d = Some (Z.quot d 2).
Proof.
  intros Hd. unfold int_mul, of_int, binary_normalize.
  destruct d as [|m|m].
  - reflexivity.
  - pose proof (binary_round_small false m ltac:(lia)) as Hr.
    pose proof (mul_half_small false m ltac:(lia)) as Hm.
    rewrite Hr in Hm |- *. rewrite Hm. f_equal.
    symmetry. apply Z.quot_div_nonneg; lia.
  - pose proof (binary_round_small true m ltac:(lia)) as Hr.
    pose proof (mul_half_small true m ltac:(lia)) as Hm.
    rewrite Hr in Hm |- *. rewrite Hm. f_equal.
    change (Zneg m) with (- Zpos m). rewrite Z.quot_opp_l by lia.
    rewrite Z.quot_div_nonneg by lia. reflexivity.
Qed.

End PyFloat.

(** ** [ftcli/Lib/TTFontCLI.py] *)
Module TTFontCLI.

Import Bits.
Local Open Scope string_scope.
Local Open Scope Z_scope.

(** A record of the [name] table; [makeName string nameID platformID
    platEncID langID] as in the font library. *)
Record NameRecord := makeName {
  string_of : string;
  nameID : Z;
  platformID : Z;
  platEncID : Z;
  langID : Z
}.

Record OS2 := mkOS2 {
  version : Z;
  fsSelection : Z;
  fsType : Z;
  usWeightClass : Z;
  usWidthClass : Z;
  achVendID : string;
  sTypoAscender : Z;
  sTypoDescender : Z;
  sTypoLineGap : Z;
  usWinAscent : Z;
  usWinDescent : Z
}.

Record Head := mkHead {
  macStyle : Z;
  fontRevision : Z * Z;  (* the 16.16 value as a fraction num / den *)
  created : Z;
  unitsPerEm : Z
}.

Record Hhea := mkHhea {
  ascent : Z;
  descent : Z;
  lineGap : Z
}.

Record CFF := mkCFF {
  fontNames : list string;
  FullName : string;
  FamilyName : string;
  Weight : string
}.

(** The tables of a [TTFontCLI] object that the methods below touch. *)
Record Font := mkFont {
  names : list NameRecord;        (* self['name'].names *)
  ltag : option (list string);    (* self.tables.get("ltag"), its tags *)
  tblOS2 : OS2;                   (* self['OS/2'] *)
  tblHead : Head;                 (* self['head'] *)
  tblHhea : Hhea;                 (* self['hhea'] *)
  tblCFF : option CFF             (* self['CFF '] when 'CFF ' in self *)
}.

Definition with_names (f : Font) (ns : list NameRecord) : Font :=
  mkFont ns (ltag f) (tblOS2 f) (tblHead f) (tblHhea f) (tblCFF f).
Definition with_ltag (f : Font) (t : option (list string)) : Font :=
  mkFont (names f) t (tblOS2 f) (tblHead f) (tblHhea f) (tblCFF f).
Definition with_OS2 (f : Font) (o : OS2) : Font :=
  mkFont (names f) (ltag f) o (tblHead f) (tblHhea f) (tblCFF f).
Definition with_Head (f : Font) (h : Head) : Font :=
  mkFont (names f) (ltag f) (tblOS2 f) h (tblHhea f) (tblCFF f).
Definition with_Hhea (f : Font) (h : Hhea) : Font :=
  mkFont (names f) (ltag f) (tblOS2 f) (tblHead f) h (tblCFF f).
Definition with_CFF (f : Font) (c : option CFF) : Font :=
  mkFont (names f) (ltag f) (tblOS2 f) (tblHead f) (tblHhea f) c.

Definition set_fsSelection (f : Font) (v : Z) : Font :=
  let o := tblOS2 f in
  with_OS2 f (mkOS2 (version o) v (fsType o) (usWeightClass o) (usWidthClass o)
                (achVendID o) (sTypoAscender o) (sTypoDescender o)
                (sTypoLineGap o) (usWinAscent o) (usWinDescent o)).
Definition set_version (f : Font) (v : Z) : Font :=
  let o := tblOS2 f in
  with_OS2 f (mkOS2 v (fsSelection o) (fsType o) (usWeightClass o) (usWidthClass o)
                (achVendID o) (sTypoAscender o) (sTypoDescender o)
                (sTypoLineGap o) (usWinAscent o) (usWinDescent o)).
Definition set_usWeightClass (f : Font) (v : Z) : Font :=
  let o := tblOS2 f in
  with_OS2 f (mkOS2 (version o) (fsSelection o) (fsType o) v (usWidthClass o)
                (achVendID o) (sTypoAscender o) (sTypoDescender o)
                (sTypoLineGap o) (usWinAscent o) (usWinDescent o)).
Definition set_usWidthClass (f : Font) (v : Z) : Font :=
  let o := tblOS2 f in
  with_OS2 f (mkOS2 (version o) (fsSelection o) (fsType o) (usWeightClass o) v
                (achVendID o) (sTypoAscender o) (sTypoDescender o)
                (sTypoLineGap o) (usWinAscent o) (usWinDescent o)).
Definition set_macStyle (f : Font) (v : Z) : Font :=
  let h := tblHead f in
  with_Head f (mkHead v (fontRevision h) (created h) (unitsPerEm h)).

(** *** Style bits *)

Definition isBold (f : Font) : bool :=
  is_nth_bit_set (macStyle (tblHead f)) 0
  && is_nth_bit_set (fsSelection (tblOS2 f)) 5.

Definition isItalic (f : Font) : bool :=
  is_nth_bit_set (macStyle (tblHead f)) 1
  && is_nth_bit_set (fsSelection (tblOS2 f)) 0.

Definition isOblique (f : Font) : bool :=
  is_nth_bit_set (fsSelection (tblOS2 f)) 9.

Definition isRegular (f : Font) : bool :=
  is_nth_bit_set (fsSelection (tblOS2 f)) 6.

Definition setBoldBits (f : Font) : Font :=
  let f := set_fsSelection f (set_nth_bit (fsSelection (tblOS2 f)) 5) in
  set_macStyle f (set_nth_bit (macStyle (tblHead f)) 0).

Definition setItalicBits (f : Font) : Font :=
  let f := set_fsSelection f (set_nth_bit (fsSelection (tblOS2 f)) 0) in
  set_macStyle f (set_nth_bit (macStyle (tblHead f)) 1).

Definition setRegularBit (f : Font) : Font :=
  set_fsSelection f (set_nth_bit (fsSelection (tblOS2 f)) 6).

Definition clearBoldBits (f : Font) : Font :=
  let f := set_fsSelection f (unset_nth_bit (fsSelection (tblOS2 f)) 5) in
  set_macStyle f (unset_nth_bit (macStyle (tblHead f)) 0).

Definition clearItalicBits (f : Font) : Font :=
  let f := set_fsSelection f (unset_nth_bit (fsSelection (tblOS2 f)) 0) in
  set_macStyle f (unset_nth_bit (macStyle (tblHead f)) 1).

Definition clearRegularBit (f : Font) : Font :=
  set_fsSelection f (unset_nth_bit (fsSelection (tblOS2 f)) 6).

Definition setBold (f : Font) : Font := clearRegularBit (setBoldBits f).

Definition setItalic (f : Font) : Font := clearRegularBit (setItalicBits f).

Definition unsetBold (f : Font) : Font :=
  let f := clearBoldBits f in
  if negb (isItalic f) then setRegularBit f else f.

Definition unsetItalic (f : Font) : Font :=
  let f := clearItalicBits f in
  if negb (isBold f) then setRegularBit f else f.

Definition setRegular (f : Font) : Font :=
  clearItalicBits (clearBoldBits (setRegularBit f)).

(** What the methods print. *)
Inductive Msg :=
| MsgOS2VersionUpdated (old : Z)
| WarnFamilyNameTooLong
| WarnPostScriptNameTooLong.

Definition setOblique (f : Font) : Font * list Msg :=
  let '(f, out) :=
    if version (tblOS2 f) <? 4
    then (set_version f 4, [MsgOS2VersionUpdated (version (tblOS2 f))])
    else (f, []) in
  (set_fsSelection f (set_nth_bit (fsSelection (tblOS2 f)) 9), out).

Definition unsetOblique (f : Font) : Font :=
  set_fsSelection f (unset_nth_bit (fsSelection (tblOS2 f)) 9).

Definition setUsWidthClass (f : Font) (value : Z) : Font :=
  if negb (usWidthClass (tblOS2 f) =? value) then set_usWidthClass f value else f.

Definition setUsWeightClass (f : Font) (value : Z) : Font :=
  if negb (usWeightClass (tblOS2 f) =? value) then set_usWeightClass f value else f.

(** *** The name table *)

(** [table__n_a_m_e.getName]: the first record with these IDs. *)
Definition getName (ns : list NameRecord) (nID pID eID : Z) (lID : option Z)
  : option NameRecord :=
  List.find (fun r =>
    (nameID r =? nID) && (platformID r =? pID) && (platEncID r =? eID)
    && match lID with None => true | Some l => langID r =? l end) ns.

(** [str(getName(...))]: the record's text, or ["None"] when there is none. *)
Definition str_getName (ns : list NameRecord) (nID pID eID lID : Z) : string :=
  match getName ns nID pID eID (Some lID) with
  | Some r => string_of r
  | None => "None"
  end.

(** One argument of [removeNames]: [None] constrains nothing. *)
Definition arg_differs (arg : option Z) (v : Z) : bool :=
  match arg with Some a => negb (a =? v) | None => false end.

(** [table__n_a_m_e.removeNames]: keeps the records that differ from some
    given argument; with no argument at all it does nothing. *)
Definition removeNames (nID pID eID lID : option Z) (ns : list NameRecord)
  : list NameRecord :=
  match nID, pID, eID, lID with
  | None, None, None, None => ns
  | _, _, _, _ =>
      List.filter (fun r =>
        arg_differs nID (nameID r) || arg_differs pID (platformID r)
        || arg_differs eID (platEncID r) || arg_differs lID (langID r)) ns
  end.

(** [table__l_t_a_g.addTag]: index of the tag, appended when new. *)
Fixpoint index_of (tag : string) (tags : list string) : option nat :=
  match tags with
  | [] => None
  | t :: ts => if String.eqb t tag then Some O
               else option_map S (index_of tag ts)
  end.

Definition addTag (tag : string) (tags : list string) : list string * Z :=
  match index_of tag tags with
  | Some i => (tags, Z.of_nat i)
  | None => (tags ++ [tag], Z.of_nat (List.length tags))%list
  end.

Section NameTable.

(** The language tables imported from the font library, as lookups
    ([dict.get]), and the test that a text can be encoded in the legacy
    encoding of a Macintosh script and language. *)
Variable _WINDOWS_LANGUAGE_CODES : string -> option Z.
Variable _MAC_LANGUAGE_CODES : string -> option Z.
Variable _MAC_LANGUAGE_TO_SCRIPT : Z -> option Z.
Variable mac_encodable : Z -> Z -> string -> bool.

(** [_makeWindowsName] *)
Definition _makeWindowsName (name : string) (nID : Z) (language : string)
  : option NameRecord :=
  match _WINDOWS_LANGUAGE_CODES (PyStr.lower language) with
  | Some lID => Some (makeName name nID 3 1 lID)
  | None => None
  end.

(** [_makeMacName] with a font given: a Macintosh record when the language
    has a code and a script and the text is encodable, otherwise a Unicode
    record whose language is a tag of the [ltag] table. *)
Definition _makeMacName (name : string) (nID : Z) (language : string) (f : Font)
  : Font * NameRecord :=
  let macLang := _MAC_LANGUAGE_CODES (PyStr.lower language) in
  let macScript := match macLang with
                   | Some l => _MAC_LANGUAGE_TO_SCRIPT l
                   | None => None
                   end in
  match macLang, macScript with
  | Some l, Some s =>
      if mac_encodable s l name then (f, makeName name nID 1 s l)
      else
        let '(tags, i) := addTag language (default [] (ltag f)) in
        (with_ltag f (Some tags), makeName name nID 0 4 i)
  | _, _ =>
      let '(tags, i) := addTag language (default [] (ltag f)) in
      (with_ltag f (Some tags), makeName name nID 0 4 i)
  end.

(** [table__n_a_m_e.addMultilingualName] for one language and a given
    nameID (every call of this program gives one). *)
Definition addMultilingualName (language name : string) (nID : Z)
  (windows mac : bool) (f : Font) : Font :=
  let '(f, mac) :=
    if windows then
      match _makeWindowsName name nID language with
      | Some w => (with_names f (names f ++ [w])%list, mac)
      | None => (f, true)
      end
    else (f, mac) in
  if mac then
    let '(f, m) := _makeMacName name nID language f in
    with_names f (names f ++ [m])%list
  else f.

(** The loop of [delMultilingualName] for [language == 'ALL']: one
    [removeNames] per record of the list being iterated that has the nameID. *)
Definition remove_all_languages (nID : Z) (f : Font) : Font :=
  fold_left (fun f r =>
    if nameID r =? nID
    then with_names f (removeNames (Some (nameID r)) (Some (platformID r))
                         (Some (platEncID r)) (Some (langID r)) (names f))
    else f) (names f) f.

Definition delMultilingualName (nID : option Z) (language : string)
  (windows mac : bool) (f : Font) : Font :=
  match nID with
  | None => f
  | Some n =>
      let '(f, windows, mac) :=
        if String.eqb language "ALL"
        then (remove_all_languages n f, false, false)
        else (f, windows, mac) in
      let f :=
        if windows then
          let lID := _WINDOWS_LANGUAGE_CODES (PyStr.lower language) in
          with_names f (removeNames (Some n) (Some 3) (Some 1) lID (names f))
        else f in
      if mac then
        let macLang := _MAC_LANGUAGE_CODES (PyStr.lower language) in
        let macScript := match macLang with
                         | Some l => _MAC_LANGUAGE_TO_SCRIPT l
                         | None => None
                         end in
        with_names f (removeNames (Some n) (Some 1) macScript macLang (names f))
      else f
  end.

Definition setMultilingualName (nID : Z) (language : string) (string : string)
  (windows mac : bool) (f : Font) : Font :=
  let f := if windows then delMultilingualName (Some nID) language true false f
           else f in
  let f := if mac then delMultilingualName (Some nID) language false true f
           else f in
  addMultilingualName language string nID windows mac f.

(** *** [recalcNames] *)

(** One row of the style matrix, after the [int(...)] and [str(...)]
    conversions at the top of [recalcNames]. *)
Record FontData := mkFontData {
  fd_is_italic : Z;
  fd_is_oblique : Z;
  fd_uswidthclass : Z;
  fd_wdt : string;
  fd_width : string;
  fd_usweightclass : Z;
  fd_wgt : string;
  fd_weight : string;
  fd_slp : string;
  fd_slope : string;
  fd_family_name : string
}.

(** [str(round(self['head'].fontRevision, 3))] and [timestampToString] come
    from the Python runtime and the font library. *)
Variable str_round3 : Z * Z -> string.
Variable timestampToString : Z -> string.

(** [x in l] for a list of integers. *)
Definition py_in (x : Z) (l : list Z) : bool := existsb (Z.eqb x) l.

Section RecalcNames.

Variable font_data : FontData.
Variables namerecords_to_ignore shorten_weight shorten_width shorten_slope : list Z.
Variable fixCFF : bool.
Variable linked_styles : list Z.
Variables isSuperFamily alt_uid regular_italic keep_regular : bool.
Variables old_full_font_name oblique_not_italic : bool.

Let is_oblique : bool := negb (fd_is_oblique font_data =? 0).
Let us_width_class := fd_uswidthclass font_data.
Let wdt := fd_wdt font_data.
Let width := fd_width font_data.
Let us_weight_class := fd_usweightclass font_data.
Let wgt := fd_wgt font_data.
Let weight := fd_weight font_data.
Let slp := fd_slp font_data.
Let slope := fd_slope font_data.
Let family_name := fd_family_name font_data.

(** The bold and italic bits are cleared, then set again from the row; the
    result carries the value of [is_italic] after this part. *)
Definition recalc_style_bits (f : Font) : Font * bool * list Msg :=
  let is_italic := negb (fd_is_italic font_data =? 0) in
  let f := setRegular f in
  let f := if is_italic then setItalic f else f in
  let '(f, is_italic, out) :=
    if is_oblique then
      let '(f, out) := setOblique f in
      let f := setItalic f in
      if oblique_not_italic then (unsetItalic f, false, out)
      else (f, is_italic, out)
    else (unsetOblique f, is_italic, []) in
  let f := setUsWeightClass f us_weight_class in
  let f := setUsWidthClass f us_width_class in
  (f, is_italic, out).

(** Macintosh family and subfamily names. *)
Definition family_name_ot : string :=
  if negb (String.eqb (PyStr.lower width) "normal") && negb isSuperFamily
  then PyStr.fmt2 family_name width
  else family_name.

Definition subfamily_name_ot : string :=
  let s :=
    if negb (String.eqb (PyStr.lower width) "normal") && isSuperFamily
    then PyStr.fmt2 width weight
    else weight in
  if (0 <? String.length slope)%nat then
    let s := PyStr.fmt2 s slope in
    if negb keep_regular
    then PyStr.strip (PyStr.replace (PyStr.replace s "Regular" "") "  " " ")
    else s
  else s.

(** Microsoft family name, before the linked styles are looked at. *)
Definition family_name_win0 (is_italic : bool) : string :=
  let s :=
    PyStr.strip
      (PyStr.replace
         (family_name ++ " "
          ++ PyStr.replace (PyStr.replace width "Normal" "") "Nor" ""
          ++ " " ++ weight)
         "  " " ") in
  if (0 <? String.length slope)%nat && negb is_italic
  then PyStr.fmt2 s slope
  else s.

(** In platformID 3 the subfamily name starts as Regular or Italic. *)
Definition subfamily_name_win0 (is_italic : bool) : string :=
  if is_italic || (is_oblique && negb oblique_not_italic)
  then "Italic" else "Regular".

(** The part under [if len(linked_styles) == 2]; [linked_styles.sort()] puts
    the larger of the two values at index 1. The result is the font, the
    Microsoft family name and the Microsoft subfamily name. *)
Definition recalc_linked_styles (is_italic : bool) (f : Font)
  : Font * string * string :=
  match linked_styles with
  | [a; b] =>
      let family_name_win :=
        if py_in us_weight_class linked_styles
        then PyStr.strip
               (PyStr.replace
                  (PyStr.replace (family_name_win0 is_italic) weight "")
                  "  " " ")
        else family_name_win0 is_italic in
      if us_weight_class =? Z.max a b
      then (setBold f, family_name_win,
            if is_italic then "Bold Italic" else "Bold")
      else (f, family_name_win, subfamily_name_win0 is_italic)
  | _ => (f, family_name_win0 is_italic, subfamily_name_win0 is_italic)
  end.

(** [s.replace(weight, wgt) if n in shorten_weight else s], and the same for
    width and slope, in the order of the source. *)
Definition shorten (n : Z) (s : string) : string :=
  let s := if py_in n shorten_weight then PyStr.replace s weight wgt else s in
  let s := if py_in n shorten_width then PyStr.replace s width wdt else s in
  if py_in n shorten_slope then PyStr.replace s slope slp else s.

Definition remove_dots_dashes (s : string) : string :=
  PyStr.replace (PyStr.replace s "." "") "-" "".

Definition postscript_name (f : Font) : string :=
  if negb (py_in 6 namerecords_to_ignore) then
    let s := remove_dots_dashes family_name_ot ++ "-"
             ++ remove_dots_dashes subfamily_name_ot in
    let s := fold_left (fun s illegal_char => PyStr.replace s illegal_char "")
               ["["; "]"; "{"; "}"; "<"; ">"; "/"; "%"] s in
    let s := if regular_italic
             then PyStr.replace s "-Italic" "-RegularItalic" else s in
    let s := shorten 6 s in
    PyStr.replace (PyStr.replace s " " "") "." ""
  else str_getName (names f) 6 3 1 0x409.

Definition font_revision (f : Font) : string :=
  PyStr.ljust (str_round3 (fontRevision (tblHead f))) 5 "0"%char.

Definition version_string (f : Font) : string :=
  "Version " ++ font_revision f.

Definition unique_id (f : Font) : string :=
  if alt_uid then
    let year_created :=
      PyStr.split_last " "%char (timestampToString (created (tblHead f))) in
    let manufacturer := str_getName (names f) 8 3 1 0x409 in
    manufacturer ++ ": " ++ family_name_ot ++ "-" ++ subfamily_name_ot
    ++ ": " ++ year_created
  else
    let ach_vend_id :=
      PyStr.replace (PyStr.replace (achVendID (tblOS2 f)) " " "") "\x00" "" in
    font_revision f ++ ";" ++ PyStr.ljust ach_vend_id 4 " "%char ++ ";"
    ++ postscript_name f.

Definition full_font_name : string :=
  PyStr.fmt2 family_name_ot subfamily_name_ot.

(** The records are written one nameID after the other; [language] is left
    at its default ['en']. *)
Definition write_nameID_1 (family_name_win : string) (f : Font) : Font * list Msg :=
  if negb (py_in 1 namerecords_to_ignore) then
    let name_id_1 := shorten 1 family_name_win in
    (setMultilingualName 1 "en" name_id_1 true true f,
     if (27 <? String.length name_id_1)%nat then [WarnFamilyNameTooLong] else [])
  else (f, []).

Definition write_nameID_2 (subfamily_name_win : string) (f : Font) : Font :=
  if negb (py_in 2 namerecords_to_ignore) then
    let name_id_2 := subfamily_name_win in
    setMultilingualName 2 "en" name_id_2 true true f
  else f.

Definition write_nameID_3 (unique_id : string) (f : Font) : Font :=
  if negb (py_in 3 namerecords_to_ignore) then
    let name_id_3 := shorten 3 unique_id in
    let f := setMultilingualName 3 "en" name_id_3 true false f in
    delMultilingualName (Some 3) "en" false true f
  else f.

Definition write_nameID_4 (postscript_name : string) (f : Font) : Font :=
  if negb (py_in 4 namerecords_to_ignore) then
    let name_id_4 := if old_full_font_name then postscript_name
                     else shorten 4 full_font_name in
    setMultilingualName 4 "en" name_id_4 true true f
  else f.

Definition write_nameID_5 (version_string : string) (f : Font) : Font :=
  if negb (py_in 5 namerecords_to_ignore) then
    setMultilingualName 5 "en" version_string true true f
  else f.

Definition write_nameID_6 (postscript_name : string) (f : Font) : Font * list Msg :=
  if negb (py_in 6 namerecords_to_ignore) then
    let name_id_6 := postscript_name in
    (setMultilingualName 6 "en" name_id_6 true true f,
     if (31 <? String.length name_id_6)%nat then [WarnPostScriptNameTooLong] else [])
  else (f, []).

Definition name_id_16 : string := shorten 16 family_name_ot.

Definition write_nameID_16 (f : Font) : Font :=
  if negb (py_in 16 namerecords_to_ignore) then
    if negb (String.eqb name_id_16 (str_getName (names f) 1 3 1 0x409)) then
      let f := setMultilingualName 16 "en" name_id_16 true false f in
      delMultilingualName (Some 16) "en" false true f
    else delMultilingualName (Some 16) "en" true true f
  else f.

Definition name_id_17 : string := shorten 17 subfamily_name_ot.

Definition write_nameID_17 (f : Font) : Font :=
  if negb (py_in 17 namerecords_to_ignore) then
    if negb (String.eqb name_id_17 (str_getName (names f) 2 3 1 0x409)) then
      let f := setMultilingualName 17 "en" name_id_17 true false f in
      delMultilingualName (Some 17) "en" false true f
    else delMultilingualName (Some 17) "en" true true f
  else f.

Definition write_nameID_18 (f : Font) : Font :=
  if negb (py_in 18 namerecords_to_ignore) then
    let name_id_18 := shorten 18 full_font_name in
    if negb (String.eqb name_id_18 (str_getName (names f) 4 1 0 0x0)) then
      setMultilingualName 18 "en" name_id_18 false true f
    else delMultilingualName (Some 18) "en" true true f
  else f.

Definition write_CFF_names (postscript_name : string) (f : Font) : Font :=
  match tblCFF f with
  | Some _ =>
      if fixCFF
      then with_CFF f (Some (mkCFF [postscript_name] full_font_name
                               family_name_ot weight))
      else f
  | None => f
  end.

Definition recalcNames (f : Font) : Font * list Msg :=
  let '(f, is_italic, out0) := recalc_style_bits f in
  let '(f, family_name_win, subfamily_name_win) :=
    recalc_linked_styles is_italic f in
  let postscript_name := postscript_name f in
  let unique_id := unique_id f in
  let version_string := version_string f in
  let '(f, out1) := write_nameID_1 family_name_win f in
  let f := write_nameID_2 subfamily_name_win f in
  let f := write_nameID_3 unique_id f in
  let f := write_nameID_4 postscript_name f in
  let f := write_nameID_5 version_string f in
  let '(f, out6) := write_nameID_6 postscript_name f in
  let f := write_nameID_16 f in
  let f := write_nameID_17 f in
  let f := write_nameID_18 f in
  let f := write_CFF_names postscript_name f in
  (f, (out0 ++ out1 ++ out6)%list).

End RecalcNames.

(** *** The other methods on the name table *)

(** Two records carry the same four IDs. *)
Definition same_ids (r x : NameRecord) : bool :=
  (nameID x =? nameID r) && (platformID x =? platformID r)
  && (platEncID x =? platEncID r) && (langID x =? langID r).

(** [table__n_a_m_e.setName]: the first record with these IDs gets the text;
    when there is none a record is appended. *)
Fixpoint setName (s : string) (nID pID eID lID : Z) (ns : list NameRecord)
  : list NameRecord :=
  match ns with
  | [] => [makeName s nID pID eID lID]
  | r :: ns' =>
      if (nameID r =? nID) && (platformID r =? pID) && (platEncID r =? eID)
         && (langID r =? lID)
      then makeName s (nameID r) (platformID r) (platEncID r) (langID r) :: ns'
      else r :: setName s nID pID eID lID ns'
  end.

(** [removeEmptyNames]. The loop runs over the list that [names] was bound
    to when it started: [removeNames] binds [names] to a new list each
    time. *)
Definition removeEmptyNames (f : Font) : Font :=
  fold_left (fun f name =>
    if (String.length (string_of name) =? 0)%nat
    then with_names f (removeNames (Some (nameID name)) (Some (platformID name))
                         (Some (platEncID name)) (Some (langID name)) (names f))
    else f) (names f) f.

(** [delMacNames] *)
Definition delMacNames (exclude_namerecord : option (list Z)) (f : Font) : Font :=
  let exclude_namerecord := default [] exclude_namerecord in
  fold_left (fun f name =>
    if negb (platformID name =? 1) || py_in (nameID name) exclude_namerecord
    then f
    else with_names f (removeNames (Some (nameID name)) (Some (platformID name))
                         (Some (platEncID name)) (Some (langID name)) (names f)))
    (names f) f.

(** [win2mac]. The texts of the records are decoded text, for which
    [setMultilingualName] does not raise, so the [except] branch is not
    entered. The loop runs over the list left by [removeEmptyNames]. *)
Definition win2mac (f : Font) : Font :=
  let f := removeEmptyNames f in
  fold_left (fun f name =>
    if platformID name =? 3
    then setMultilingualName (nameID name) "en" (string_of name) false true f
    else f) (names f) f.

(** *** [findReplace] and [setCFFName] *)

(** The CFF table as these two methods see it: the font names and five
    attributes of the first top dictionary. An attribute may be absent, and
    reading it then raises [AttributeError]. *)
Record CFFTable := mkCFFTable {
  cff_fontNames : list string;
  top_FullName : option string;
  top_FamilyName : option string;
  top_Weight : option string;
  top_Copyright : option string;
  top_Notice : option string
}.

Inductive TopAttr :=
| AttrFullName | AttrFamilyName | AttrWeight | AttrCopyright | AttrNotice.

Definition getattr (t : CFFTable) (a : TopAttr) : option string :=
  match a with
  | AttrFullName => top_FullName t
  | AttrFamilyName => top_FamilyName t
  | AttrWeight => top_Weight t
  | AttrCopyright => top_Copyright t
  | AttrNotice => top_Notice t
  end.

Definition setattr (t : CFFTable) (a : TopAttr) (v : string) : CFFTable :=
  match a with
  | AttrFullName =>
      mkCFFTable (cff_fontNames t) (Some v) (top_FamilyName t) (top_Weight t)
        (top_Copyright t) (top_Notice t)
  | AttrFamilyName =>
      mkCFFTable (cff_fontNames t) (top_FullName t) (Some v) (top_Weight t)
        (top_Copyright t) (top_Notice t)
  | AttrWeight =>
      mkCFFTable (cff_fontNames t) (top_FullName t) (top_FamilyName t) (Some v)
        (top_Copyright t) (top_Notice t)
  | AttrCopyright =>
      mkCFFTable (cff_fontNames t) (top_FullName t) (top_FamilyName t)
        (top_Weight t) (Some v) (top_Notice t)
  | AttrNotice =>
      mkCFFTable (cff_fontNames t) (top_FullName t) (top_FamilyName t)
        (top_Weight t) (top_Copyright t) (Some v)
  end.

Definition set_fontNames (t : CFFTable) (l : list string) : CFFTable :=
  mkCFFTable l (top_FullName t) (top_FamilyName t) (top_Weight t)
    (top_Copyright t) (top_Notice t).

(** [platform == tag] for the optional [platform] argument. *)
Definition is_platform (platform : option string) (tag : string) : bool :=
  match platform with
  | Some p => String.eqb p tag
  | None => false
  end.

(** The platforms [findReplace] works on: 1 for ['mac'], 3 for ['win'], and
    without a platform those of the records, each once. *)
Definition platforms_list (platform : option string) (ns : list NameRecord)
  : list Z :=
  let platforms_list := [] in
  let platforms_list :=
    if is_platform platform "mac" then (platforms_list ++ [1])%list
    else platforms_list in
  let platforms_list :=
    if is_platform platform "win" then (platforms_list ++ [3])%list
    else platforms_list in
  match platform with
  | None =>
      fold_left (fun l name =>
                   if negb (py_in (platformID name) l)
                   then (l ++ [platformID name])%list else l)
        ns platforms_list
  | Some _ => platforms_list
  end.

(** [[p, n] in names_list] and [names_list.remove([p, n])] on lists of
    two-element lists, here pairs. *)
Definition pair_in (p : Z * Z) (l : list (Z * Z)) : bool :=
  existsb (fun q => (fst q =? fst p) && (snd q =? snd p)) l.

Fixpoint remove_first (p : Z * Z) (l : list (Z * Z)) : list (Z * Z) :=
  match l with
  | [] => []
  | q :: l' => if (fst q =? fst p) && (snd q =? snd p) then l'
               else q :: remove_first p l'
  end.

Definition names_list_of (nID : option Z) (platforms_list : list Z)
  (ns : list NameRecord) : list (Z * Z) :=
  match nID with
  | Some n => map (fun p => (p, n)) platforms_list
  | None =>
      fold_left (fun l name =>
                   if py_in (platformID name) platforms_list
                   then (l ++ [(platformID name, nameID name)])%list else l)
        ns []
  end.

(** The excluded nameIDs are taken out of [names_list], one entry for each
    record with such a nameID. *)
Definition drop_ignored (namerecords_to_ignore : option (list Z))
  (ns : list NameRecord) (names_list : list (Z * Z)) : list (Z * Z) :=
  match namerecords_to_ignore with
  | None | Some [] => names_list
  | Some ignore =>
      fold_left (fun l name =>
                   if py_in (nameID name) ignore
                      && pair_in (platformID name, nameID name) l
                   then remove_first (platformID name, nameID name) l else l)
        ns names_list
  end.

(** [s.replace(oldString, newString).replace("  ", " ").strip()] *)
Definition find_replace_text (s oldString newString : string) : string :=
  PyStr.strip (PyStr.replace (PyStr.replace s oldString newString) "  " " ").

(** The loop over the records. [setName] changes the text of a record of the
    list that is being run over and never its length (the record at hand has
    the IDs looked for), so the loop visits each index once and reads the
    record as it is then. *)
Definition replace_in_names (oldString newString : string)
  (names_list : list (Z * Z)) (ns : list NameRecord) : list NameRecord * Z :=
  fold_left (fun '(ns, fixCount) i =>
    match ns !! i with
    | Some name =>
        if pair_in (platformID name, nameID name) names_list
           && PyStr.contains oldString (string_of name)
        then (setName (find_replace_text (string_of name) oldString newString)
                (nameID name) (platformID name) (platEncID name) (langID name)
                ns,
              fixCount + 1)
        else (ns, fixCount)
    | None => (ns, fixCount)
    end) (seq 0 (List.length ns)) (ns, 0).

(** The part under ['CFF ' in self and fixCFF is True]: the first font name,
    where an empty list is reported, then the five attributes, where an
    absent one is passed over. *)
Definition replace_in_CFF (oldString newString : string) (t : CFFTable)
  (fixCount : Z) : CFFTable * Z * list string :=
  let '(t, fixCount, out) :=
    match cff_fontNames t with
    | [] => (t, fixCount, ["ERROR: list index out of range"])
    | fontName :: _ =>
        let fontName_new := find_replace_text fontName oldString newString in
        if negb (String.eqb fontName fontName_new)
        then (set_fontNames t [fontName_new], fixCount + 1, [])
        else (t, fixCount, [])
    end in
  let '(t, fixCount) :=
    fold_left (fun '(t, fixCount) a =>
      match getattr t a with
      | None => (t, fixCount)
      | Some old_value =>
          let new_value := find_replace_text old_value oldString newString in
          if negb (String.eqb old_value new_value)
          then (setattr t a new_value, fixCount + 1)
          else (t, fixCount)
      end)
      [AttrFullName; AttrFamilyName; AttrWeight; AttrCopyright; AttrNotice]
      (t, fixCount) in
  (t, fixCount, out).

(** [findReplace] on the name records and the CFF table of the font: the new
    records and table, what was printed, and the returned [fixCount]. *)
Definition findReplace (oldString newString : string) (fixCFF : bool)
  (nID : option Z) (platform : option string)
  (namerecords_to_ignore : option (list Z))
  (ns : list NameRecord) (cff : option CFFTable)
  : list NameRecord * option CFFTable * list string * Z :=
  let platforms_list := platforms_list platform ns in
  let names_list := names_list_of nID platforms_list ns in
  let names_list := drop_ignored namerecords_to_ignore ns names_list in
  let '(ns, fixCount) := replace_in_names oldString newString names_list ns in
  match cff with
  | Some t =>
      if fixCFF then
        let '(t, fixCount, out) := replace_in_CFF oldString newString t fixCount in
        (ns, Some t, out, fixCount)
      else (ns, cff, [], fixCount)
  | None => (ns, cff, [], fixCount)
  end.

(** The fields [setCFFName] writes. *)
Inductive CFFField := FieldFontNames | FieldTop (a : TopAttr).

Inductive cff_exn := CFF_KeyError | CFF_AttributeError.

(** [not field == value]: [None] when reading the field raises. *)
Definition field_differs (fld : CFFField) (t : CFFTable) (value : string)
  : option bool :=
  match fld with
  | FieldFontNames => Some (negb (bool_decide (cff_fontNames t = [value])))
  | FieldTop a =>
      match getattr t a with
      | Some old => Some (negb (String.eqb old value))
      | None => None
      end
  end.

Definition set_field (fld : CFFField) (t : CFFTable) (value : string)
  : CFFTable :=
  match fld with
  | FieldFontNames => set_fontNames t [value]
  | FieldTop a => setattr t a value
  end.

(** One of the six blocks of [setCFFName]: an argument that is [None] or
    empty is passed over; otherwise the table is looked up, the field is
    compared and, when it differs, written and counted. *)
Definition setCFFName_block (fld : CFFField) (arg : option string)
  (st : option CFFTable * Z) : option cff_exn * (option CFFTable * Z) :=
  match arg with
  | None | Some EmptyString => (None, st)
  | Some value =>
      match fst st with
      | None => (Some CFF_KeyError, st)
      | Some t =>
          match field_differs fld t value with
          | None => (Some CFF_AttributeError, st)
          | Some true => (None, (Some (set_field fld t value), snd st + 1))
          | Some false => (None, st)
          end
      end
  end.

Fixpoint setCFFName_blocks (blocks : list (CFFField * option string))
  (st : option CFFTable * Z) : option cff_exn * (option CFFTable * Z) :=
  match blocks with
  | [] => (None, st)
  | (fld, arg) :: rest =>
      match setCFFName_block fld arg st with
      | (None, st') => setCFFName_blocks rest st'
      | (Some e, st') => (Some e, st')
      end
  end.

(** [setCFFName]: the returned count or the exception, and the CFF table as
    it is then. *)
Definition setCFFName (fontNames FullName FamilyName Weight Copyright Notice
                         : option string) (cff : option CFFTable)
  : (Z + cff_exn) * option CFFTable :=
  match setCFFName_blocks
          [(FieldFontNames, fontNames); (FieldTop AttrFullName, FullName);
           (FieldTop AttrFamilyName, FamilyName); (FieldTop AttrWeight, Weight);
           (FieldTop AttrCopyright, Copyright); (FieldTop AttrNotice, Notice)]
          (cff, 0)
  with
  | (None, (cff', count)) => (inl count, cff')
  | (Some e, (cff', _)) => (inr e, cff')
  end.

End NameTable.

(** *** [modifyLinegapPercent] *)

Definition set_vertical_metrics (f : Font)
  (typo_asc typo_desc typo_gap win_asc win_desc hhea_asc hhea_desc hhea_gap : Z)
  : Font :=
  let o := tblOS2 f in
  let f := with_OS2 f (mkOS2 (version o) (fsSelection o) (fsType o)
                         (usWeightClass o) (usWidthClass o) (achVendID o)
                         typo_asc typo_desc typo_gap win_asc win_desc) in
  with_Hhea f (mkHhea hhea_asc hhea_desc hhea_gap).

(** [factor = 1.0 * int(percent) / 100]; [None] when a conversion raises. *)
Definition linegap_factor (percent : Z) : option spec_float :=
  match PyFloat.of_int percent, PyFloat.of_int 100 with
  | Some p, Some h => Some (PyFloat.div (PyFloat.mul PyFloat.one p) h)
  | _, _ => None
  end.

(** [line_spacing_units = int(factor * units_per_em)] *)
Definition line_spacing_units (percent units_per_em : Z) : option Z :=
  match linegap_factor percent with
  | Some factor => PyFloat.int_mul factor units_per_em
  | None => None
  end.

(** In double precision 29 percent of 100 units is 28 units. *)
Example line_spacing_units_29_percent :
  line_spacing_units 29 100 = Some 28 /\ line_spacing_units 50 1000 = Some 500.
Proof. split; vm_compute; reflexivity. Qed.

(** [upper_lower_add_units = int(0.5 * delta_height)] *)
Definition upper_lower_add_units (delta_height : Z) : option Z :=
  PyFloat.int_mul PyFloat.half delta_height.

(** [int(os2_typo_ascender + 0.5 * os2_typo_linegap)] *)
Definition ascent_with_half_linegap (os2_typo_ascender os2_typo_linegap : Z)
  : option Z :=
  match PyFloat.of_int os2_typo_ascender, PyFloat.of_int os2_typo_linegap with
  | Some a, Some g => PyFloat.to_int (PyFloat.add a (PyFloat.mul PyFloat.half g))
  | _, _ => None
  end.

(** [None] is the [except] branch: the error is printed and the program
    exits with status 1. *)
Definition modifyLinegapPercent (f : Font) (percent : Z) : option Font :=
  let os2_typo_ascender := sTypoAscender (tblOS2 f) in
  let os2_typo_descender := sTypoDescender (tblOS2 f) in
  let os2_typo_linegap := sTypoLineGap (tblOS2 f) in
  let hhea_ascent := ascent (tblHhea f) in
  let hhea_descent := descent (tblHhea f) in
  let units_per_em := unitsPerEm (tblHead f) in
  let os2_typo_ascdesc_delta := os2_typo_ascender + - os2_typo_descender in
  let hhea_ascdesc_delta := hhea_ascent + - hhea_descent in
  match line_spacing_units percent units_per_em with
  | None => None
  | Some line_spacing_units =>
      let total_height := line_spacing_units + units_per_em in
      let delta_height := total_height - hhea_ascdesc_delta in
      match upper_lower_add_units delta_height with
      | None => None
      | Some upper_lower_add_units =>
          let hhea_linegap := 0 in
          if (os2_typo_linegap =? 0) && (units_per_em <? os2_typo_ascdesc_delta)
          then
            (* Google metrics approach *)
            let os2_typo_ascender := os2_typo_ascender + upper_lower_add_units in
            let os2_typo_descender := os2_typo_descender - upper_lower_add_units in
            let hhea_ascent := hhea_ascent + upper_lower_add_units in
            let hhea_descent := hhea_descent - upper_lower_add_units in
            Some (set_vertical_metrics f os2_typo_ascender os2_typo_descender
                    os2_typo_linegap hhea_ascent (- hhea_descent)
                    hhea_ascent hhea_descent hhea_linegap)
          else if (os2_typo_linegap =? 0) && (os2_typo_ascdesc_delta =? units_per_em)
          then
            (* Adobe metrics approach *)
            let hhea_ascent := hhea_ascent + upper_lower_add_units in
            let hhea_descent := hhea_descent - upper_lower_add_units in
            Some (set_vertical_metrics f os2_typo_ascender os2_typo_descender
                    os2_typo_linegap hhea_ascent (- hhea_descent)
                    hhea_ascent hhea_descent hhea_linegap)
          else
            let os2_typo_linegap := line_spacing_units in
            match ascent_with_half_linegap os2_typo_ascender os2_typo_linegap with
            | None => None
            | Some hhea_ascent =>
                let hhea_descent := - (total_height - hhea_ascent) in
                Some (set_vertical_metrics f os2_typo_ascender os2_typo_descender
                        os2_typo_linegap hhea_ascent (- hhea_descent)
                        hhea_ascent hhea_descent hhea_linegap)
            end
      end
  end.

(** A font with Adobe metrics: typographic span 1000 = unitsPerEm, hhea span
    1101. *)
Definition font_adobe : Font :=
  mkFont [] None
    (mkOS2 4 64 0 400 5 "ABCD" 800 (-200) 0 900 201)
    (mkHead 0 (1, 1) 0 1000)
    (mkHhea 900 (-201) 0)
    None.

(** A font with a typographic line gap, which takes the third branch. *)
Definition font_with_linegap : Font :=
  mkFont [] None
    (mkOS2 4 64 0 400 5 "ABCD" 800 (-200) 90 900 201)
    (mkHead 0 (1, 1) 0 1000)
    (mkHhea 900 (-201) 90)
    None.

(** *** Style bits: the regular bit against the bold and italic bits *)

(** The five bits the style methods work on: fsSelection bits 5, 0 and 6,
    macStyle bits 0 and 1. *)
Record StyleBits := mkStyleBits {
  fs_bold : bool; mac_bold : bool; fs_italic : bool; mac_italic : bool;
  fs_regular : bool
}.

Definition style_bits_of (f : Font) : StyleBits :=
  mkStyleBits (is_nth_bit_set (fsSelection (tblOS2 f)) 5)
              (is_nth_bit_set (macStyle (tblHead f)) 0)
              (is_nth_bit_set (fsSelection (tblOS2 f)) 0)
              (is_nth_bit_set (macStyle (tblHead f)) 1)
              (is_nth_bit_set (fsSelection (tblOS2 f)) 6).

Ltac bits_of_step :=
  unfold style_bits_of, set_fsSelection, set_macStyle, with_OS2, with_Head;
  cbn [tblOS2 tblHead fsSelection macStyle];
  rewrite ?is_set_set_nth, ?is_set_unset_nth by lia;
  cbn [Z.eqb Pos.eqb negb];
  rewrite ?orb_false_r, ?orb_true_r, ?andb_true_r, ?andb_false_r;
  reflexivity.

Lemma bits_setBoldBits f :
  style_bits_of (setBoldBits f)
  = let b := style_bits_of f in
    mkStyleBits true true (fs_italic b) (mac_italic b) (fs_regular b).
Proof. unfold setBoldBits. bits_of_step. Qed.

Lemma bits_setItalicBits f :
  style_bits_of (setItalicBits f)
  = let b := style_bits_of f in
    mkStyleBits (fs_bold b) (mac_bold b) true true (fs_regular b).
Proof. unfold setItalicBits. bits_of_step. Qed.

Lemma bits_setRegularBit f :
  style_bits_of (setRegularBit f)
  = let b := style_bits_of f in
    mkStyleBits (fs_bold b) (mac_bold b) (fs_italic b) (mac_italic b) true.
Proof. unfold setRegularBit. bits_of_step. Qed.

Lemma bits_clearBoldBits f :
  style_bits_of (clearBoldBits f)
  = let b := style_bits_of f in
    mkStyleBits false false (fs_italic b) (mac_italic b) (fs_regular b).
Proof. unfold clearBoldBits. bits_of_step. Qed.

Lemma bits_clearItalicBits f :
  style_bits_of (clearItalicBits f)
  = let b := style_bits_of f in
    mkStyleBits (fs_bold b) (mac_bold b) false false (fs_regular b).
Proof. unfold clearItalicBits. bits_of_step. Qed.

Lemma bits_clearRegularBit f :
  style_bits_of (clearRegularBit f)
  = let b := style_bits_of f in
    mkStyleBits (fs_bold b) (mac_bold b) (fs_italic b) (mac_italic b) false.
Proof. unfold clearRegularBit. bits_of_step. Qed.

Lemma isBold_bits f :
  isBold f = mac_bold (style_bits_of f) && fs_bold (style_bits_of f).
Proof. reflexivity. Qed.

Lemma isItalic_bits f :
  isItalic f = mac_italic (style_bits_of f) && fs_italic (style_bits_of f).
Proof. reflexivity. Qed.

Lemma isRegular_bits f : isRegular f = fs_regular (style_bits_of f).
Proof. reflexivity. Qed.

Lemma bits_setBold f :
  style_bits_of (setBold f)
  = let b := style_bits_of f in
    mkStyleBits true true (fs_italic b) (mac_italic b) false.
Proof. unfold setBold. rewrite bits_clearRegularBit, bits_setBoldBits. reflexivity. Qed.

Lemma bits_setItalic f :
  style_bits_of (setItalic f)
  = let b := style_bits_of f in
    mkStyleBits (fs_bold b) (mac_bold b) true true false.
Proof. unfold setItalic. rewrite bits_clearRegularBit, bits_setItalicBits. reflexivity. Qed.

Lemma bits_setRegular f :
  style_bits_of (setRegular f) = mkStyleBits false false false false true.
Proof.
  unfold setRegular.
  rewrite bits_clearItalicBits, bits_clearBoldBits, bits_setRegularBit.
  reflexivity.
Qed.

Lemma bits_unsetBold f :
  style_bits_of (unsetBold f)
  = let b := style_bits_of f in
    mkStyleBits false false (fs_italic b) (mac_italic b)
      (if negb (mac_italic b && fs_italic b) then true else fs_regular b).
Proof.
  unfold unsetBold. rewrite isItalic_bits, bits_clearBoldBits. cbv zeta.
  cbn [mac_italic fs_italic].
  destruct (negb _); [rewrite bits_setRegularBit|]; rewrite bits_clearBoldBits;
    reflexivity.
Qed.

Lemma bits_unsetItalic f :
  style_bits_of (unsetItalic f)
  = let b := style_bits_of f in
    mkStyleBits (fs_bold b) (mac_bold b) false false
      (if negb (mac_bold b && fs_bold b) then true else fs_regular b).
Proof.
  unfold unsetItalic. rewrite isBold_bits, bits_clearItalicBits. cbv zeta.
  cbn [mac_bold fs_bold].
  destruct (negb _); [rewrite bits_setRegularBit|]; rewrite bits_clearItalicBits;
    reflexivity.
Qed.

(** The regular bit is set exactly when the font is neither bold nor italic. *)
Definition regular_bit_consistent (f : Font) : Prop :=
  isRegular f = negb (isBold f) && negb (isItalic f).

Ltac by_bits f :=
  unfold regular_bit_consistent;
  rewrite ?isRegular_bits, ?isBold_bits, ?isItalic_bits;
  rewrite ?bits_setBold, ?bits_setItalic, ?bits_setRegular, ?bits_unsetBold,
    ?bits_unsetItalic;
  destruct (style_bits_of f) as [b5 m0 b0 m1 b6];
  cbn [fs_bold mac_bold fs_italic mac_italic fs_regular].

Lemma setBold_consistent f : regular_bit_consistent (setBold f).
Proof. by_bits f. reflexivity. Qed.

Lemma setItalic_consistent f : regular_bit_consistent (setItalic f).
Proof. by_bits f. cbn. rewrite andb_false_r. reflexivity. Qed.

Lemma setRegular_consistent f : regular_bit_consistent (setRegular f).
Proof. by_bits f. reflexivity. Qed.

Lemma unsetBold_consistent f :
  regular_bit_consistent f -> regular_bit_consistent (unsetBold f).
Proof. by_bits f. destruct b5, m0, b0, m1, b6; cbn; congruence. Qed.

Lemma unsetItalic_consistent f :
  regular_bit_consistent f -> regular_bit_consistent (unsetItalic f).
Proof. by_bits f. destruct b5, m0, b0, m1, b6; cbn; congruence. Qed.

(** The bold bits are clear and the name records are those of [f]. *)
Definition bold_bits_clear (f g : Font) : Prop :=
  fs_bold (style_bits_of g) = false /\ mac_bold (style_bits_of g) = false
  /\ names g = names f.

Lemma setRegular_bold_clear f : bold_bits_clear f (setRegular f).
Proof. unfold bold_bits_clear. rewrite bits_setRegular. repeat split. Qed.

Lemma setItalic_keeps_bold_clear f g :
  bold_bits_clear f g -> bold_bits_clear f (setItalic g).
Proof.
  unfold bold_bits_clear. rewrite bits_setItalic. cbn [fs_bold mac_bold].
  intros (A & B & C). repeat split; assumption.
Qed.

Lemma unsetItalic_keeps_bold_clear f g :
  bold_bits_clear f g -> bold_bits_clear f (unsetItalic g).
Proof.
  unfold bold_bits_clear. rewrite bits_unsetItalic. cbn [fs_bold mac_bold].
  intros (A & B & C). repeat split; try assumption.
  unfold unsetItalic. destruct (negb _); exact C.
Qed.

Lemma setOblique_keeps_bold_clear f g :
  bold_bits_clear f g -> bold_bits_clear f (fst (setOblique g)).
Proof.
  unfold bold_bits_clear, setOblique.
  destruct (version (tblOS2 g) <? 4); cbn [fst]; intros (A & B & C);
    (split; [|split]); try assumption;
    unfold style_bits_of, set_fsSelection, set_version, with_OS2;
    cbn [tblOS2 tblHead fsSelection macStyle fs_bold mac_bold];
    rewrite ?is_set_set_nth by lia; cbn [Z.eqb Pos.eqb];
    rewrite ?orb_false_r; assumption.
Qed.

Lemma unsetOblique_keeps_bold_clear f g :
  bold_bits_clear f g -> bold_bits_clear f (unsetOblique g).
Proof.
  unfold bold_bits_clear, unsetOblique. intros (A & B & C).
  (split; [|split]); try assumption.
  unfold style_bits_of, set_fsSelection, with_OS2.
  cbn [tblOS2 tblHead fsSelection macStyle fs_bold mac_bold].
  rewrite is_set_unset_nth by lia. cbn [Z.eqb Pos.eqb negb].
  rewrite andb_true_r. assumption.
Qed.

Lemma weight_width_bold_clear f g v w :
  bold_bits_clear f g ->
  let f1 := setUsWidthClass (setUsWeightClass g v) w in
  is_nth_bit_set (fsSelection (tblOS2 f1)) 5 = false
  /\ is_nth_bit_set (macStyle (tblHead f1)) 0 = false
  /\ usWeightClass (tblOS2 f1) = v
  /\ names f1 = names f.
Proof.
  intros (A & B & C). unfold setUsWidthClass, setUsWeightClass.
  destruct (negb (usWeightClass (tblOS2 g) =? v)) eqn:E1.
  - destruct (negb (usWidthClass _ =? w)); repeat split; assumption.
  - apply negb_false_iff, Z.eqb_eq in E1.
    destruct (negb (usWidthClass _ =? w)); repeat split; assumption.
Qed.

(** C10. From a font whose regular bit (fsSelection bit 6) is set exactly when
    it is neither bold (fsSelection bit 5 and macStyle bit 0) nor italic
    (fsSelection bit 0 and macStyle bit 1), each of [setBold], [setItalic],
    [setRegular], [unsetBold] and [unsetItalic] leads to a font with the same
    property. *)
Theorem style_operations_preserve_regular_bit (f : Font) :
  regular_bit_consistent f ->
  regular_bit_consistent (setBold f)
  /\ regular_bit_consistent (setItalic f)
  /\ regular_bit_consistent (setRegular f)
  /\ regular_bit_consistent (unsetBold f)
  /\ regular_bit_consistent (unsetItalic f).
Proof.
  intros H. repeat split.
  - apply setBold_consistent.
  - apply setItalic_consistent.
  - apply setRegular_consistent.
  - apply unsetBold_consistent, H.
  - apply unsetItalic_consistent, H.
Qed.

Lemma style_operations_preserve_regular_bit_witness :
  regular_bit_consistent font_adobe
  /\ regular_bit_consistent (setBold font_adobe)
  /\ regular_bit_consistent (unsetItalic (setBold font_adobe)).
Proof.
  assert (H : regular_bit_consistent font_adobe) by reflexivity.
  split; [exact H|].
  destruct (style_operations_preserve_regular_bit font_adobe H)
    as (Hb & _ & _ & _ & _).
  split; [exact Hb|].
  destruct (style_operations_preserve_regular_bit (setBold font_adobe) Hb)
    as (_ & _ & _ & _ & Hi).
  exact Hi.
Defined.

(** *** [modifyLinegapPercent]: the resulting metrics *)

(** The Google and Adobe branches: no typographic line gap and a
    typographic span of at least one em. *)
Definition google_or_adobe_metrics (f : Font) : Prop :=
  sTypoLineGap (tblOS2 f) = 0
  /\ unitsPerEm (tblHead f)
     <= sTypoAscender (tblOS2 f) - sTypoDescender (tblOS2 f).

Definition hhea_span (f : Font) : Z := ascent (tblHhea f) - descent (tblHhea f).

(** What [modifyLinegapPercent font_with_linegap 50] yields. *)
Definition font_with_linegap_50 : Font :=
  mkFont [] None
    (mkOS2 4 64 0 400 5 "ABCD" 800 (-200) 500 1050 450)
    (mkHead 0 (1, 1) 0 1000)
    (mkHhea 1050 (-450) 0)
    None.

Lemma modifyLinegapPercent_inv f percent f' :
  modifyLinegapPercent f percent = Some f' ->
  exists lsu u,
    line_spacing_units percent (unitsPerEm (tblHead f)) = Some lsu
    /\ upper_lower_add_units (lsu + unitsPerEm (tblHead f) - hhea_span f) = Some u
    /\ tblHead f' = tblHead f
    /\ lineGap (tblHhea f') = 0
    /\ usWinAscent (tblOS2 f') = ascent (tblHhea f')
    /\ usWinDescent (tblOS2 f') = - descent (tblHhea f')
    /\ ((sTypoLineGap (tblOS2 f) =? 0)
        && ((unitsPerEm (tblHead f)
             <? sTypoAscender (tblOS2 f) + - sTypoDescender (tblOS2 f))
            || (sTypoAscender (tblOS2 f) + - sTypoDescender (tblOS2 f)
                =? unitsPerEm (tblHead f))) = true ->
        hhea_span f' = hhea_span f + 2 * u)
    /\ ((sTypoLineGap (tblOS2 f) =? 0)
        && ((unitsPerEm (tblHead f)
             <? sTypoAscender (tblOS2 f) + - sTypoDescender (tblOS2 f))
            || (sTypoAscender (tblOS2 f) + - sTypoDescender (tblOS2 f)
                =? unitsPerEm (tblHead f))) = false ->
        hhea_span f' = unitsPerEm (tblHead f) + lsu).
Proof.
  unfold modifyLinegapPercent, hhea_span. intros H.
  destruct (line_spacing_units percent (unitsPerEm (tblHead f))) as [lsu|];
    [|discriminate].
  replace (lsu + unitsPerEm (tblHead f)
           - (ascent (tblHhea f) + - descent (tblHhea f)))
    with (lsu + unitsPerEm (tblHead f)
          - (ascent (tblHhea f) - descent (tblHhea f))) in H by lia.
  destruct (upper_lower_add_units _) as [u|] eqn:Hu; [|discriminate].
  exists lsu, u. split; [reflexivity|]. split; [exact Hu|]. clear Hu.
  destruct (sTypoLineGap (tblOS2 f) =? 0) eqn:Hg; cbn [andb] in H |- *.
  - destruct (unitsPerEm (tblHead f) <? _) eqn:Hgoogle; cbn [orb] in H |- *.
    + injection H as <-. cbn. repeat split; try lia; discriminate.
    + destruct (_ =? unitsPerEm (tblHead f)) eqn:Hadobe.
      * injection H as <-. cbn. repeat split; try lia; discriminate.
      * destruct (ascent_with_half_linegap _ _) as [a|]; [|discriminate].
        injection H as <-. cbn. repeat split; try lia; discriminate.
  - destruct (ascent_with_half_linegap _ _) as [a|]; [|discriminate].
    injection H as <-. cbn. repeat split; try lia; discriminate.
Qed.

(** C7, as amended. Whenever [modifyLinegapPercent] completes, hhea.lineGap
    is 0, OS/2.usWinAscent is the new hhea.ascent and OS/2.usWinDescent is the
    negation of the new hhea.descent. With [lsu] the code's
    [int(percent / 100 * unitsPerEm)]: outside the Google and Adobe branches
    the new span hhea.ascent - hhea.descent is [unitsPerEm + lsu]; inside
    them it is the old span plus twice [int(0.5 * (unitsPerEm + lsu - old
    span))], the product taken in double precision. When that difference
    lies strictly between -2^53 and 2^53, so that it is a double itself,
    this is [unitsPerEm + lsu] less the remainder of the difference by 2:
    the span is reached when the difference is even and missed by one unit
    when it is odd. *)
Theorem modifyLinegapPercent_metrics (f : Font) (percent : Z) (f' : Font) :
  modifyLinegapPercent f percent = Some f' ->
  lineGap (tblHhea f') = 0
  /\ usWinAscent (tblOS2 f') = ascent (tblHhea f')
  /\ usWinDescent (tblOS2 f') = - descent (tblHhea f')
  /\ exists lsu u,
       line_spacing_units percent (unitsPerEm (tblHead f')) = Some lsu
       /\ upper_lower_add_units
            (unitsPerEm (tblHead f') + lsu - hhea_span f) = Some u
       /\ (~ google_or_adobe_metrics f ->
           hhea_span f' = unitsPerEm (tblHead f') + lsu)
       /\ (google_or_adobe_metrics f -> hhea_span f' = hhea_span f + 2 * u)
       /\ (google_or_adobe_metrics f ->
           - 2 ^ 53 < unitsPerEm (tblHead f') + lsu - hhea_span f < 2 ^ 53 ->
           hhea_span f'
           = unitsPerEm (tblHead f') + lsu
             - Z.rem (unitsPerEm (tblHead f') + lsu - hhea_span f) 2).
Proof.
  intros H. apply modifyLinegapPercent_inv in H.
  destruct H as (lsu & u & Hl & Hu & Hh & Hg & Ha & Hd & Hin & Hout).
  rewrite Hh. repeat split; try assumption.
  exists lsu, u. split; [assumption|].
  assert (Hu' : upper_lower_add_units
                  (unitsPerEm (tblHead f) + lsu - hhea_span f) = Some u).
  { rewrite <- Hu. f_equal. lia. }
  split; [exact Hu'|].
  assert (Hbranch : google_or_adobe_metrics f ->
                    hhea_span f' = hhea_span f + 2 * u).
  { unfold google_or_adobe_metrics. intros [H1 H2]. apply Hin.
    apply andb_true_iff. split; [lia|]. apply orb_true_iff. lia. }
  split; [|split; [exact Hbranch|]].
  - unfold google_or_adobe_metrics.
    intros Hn. apply Hout. apply not_true_is_false. intros Hc. apply Hn.
    apply andb_true_iff in Hc. destruct Hc as [Hc1 Hc2].
    apply orb_true_iff in Hc2. split; [lia|]. destruct Hc2; lia.
  - intros Hga Hrange. rewrite (Hbranch Hga).
    unfold upper_lower_add_units in Hu'.
    rewrite PyFloat.int_mul_half in Hu' by exact Hrange.
    injection Hu' as <-.
    pose proof (Z.quot_rem' (unitsPerEm (tblHead f) + lsu - hhea_span f) 2).
    lia.
Qed.

Lemma modifyLinegapPercent_metrics_witness :
  modifyLinegapPercent font_with_linegap 50 = Some font_with_linegap_50
  /\ lineGap (tblHhea font_with_linegap_50) = 0
  /\ usWinAscent (tblOS2 font_with_linegap_50)
     = ascent (tblHhea font_with_linegap_50)
  /\ usWinDescent (tblOS2 font_with_linegap_50)
     = - descent (tblHhea font_with_linegap_50).
Proof.
  assert (H : modifyLinegapPercent font_with_linegap 50
              = Some font_with_linegap_50) by (vm_compute; reflexivity).
  split; [exact H|].
  destruct (modifyLinegapPercent_metrics _ _ _ H) as (Hg & Ha & Hd & _).
  repeat split; assumption.
Defined.

(** C7 as stated fails in the Adobe branch when the height to add is odd: at
    50 percent of 1000 units the span should become 1500, and it becomes
    1499. *)
Lemma modifyLinegapPercent_span_short_by_one :
  exists f', modifyLinegapPercent font_adobe 50 = Some f'
  /\ hhea_span f' = 1499
  /\ unitsPerEm (tblHead f') + Z.quot (50 * unitsPerEm (tblHead f')) 100 = 1500
  /\ line_spacing_units 50 (unitsPerEm (tblHead f')) = Some 500.
Proof.
  eexists. split; [vm_compute; reflexivity|].
  repeat split; vm_compute; reflexivity.
Qed.

(** Beyond double precision the halved difference is no longer exact: at
    10^16 percent of 1000 units the span becomes five units more than
    [unitsPerEm + lsu]. *)
Example modifyLinegapPercent_span_beyond_double_precision :
  exists f', modifyLinegapPercent font_adobe (10 ^ 16) = Some f'
  /\ line_spacing_units (10 ^ 16) (unitsPerEm (tblHead f')) = Some (10 ^ 17)
  /\ hhea_span f' = unitsPerEm (tblHead f') + 10 ^ 17 + 5
  /\ ~ (- 2 ^ 53 < unitsPerEm (tblHead f') + 10 ^ 17 - hhea_span font_adobe
                  < 2 ^ 53).
Proof.
  eexists. split; [vm_compute; reflexivity|].
  split; [vm_compute; reflexivity|]. split; [vm_compute; reflexivity|].
  vm_compute. intros [_ H]. discriminate.
Qed.

(** *** The other style and OS/2 setters *)

Definition set_fsType (f : Font) (v : Z) : Font :=
  let o := tblOS2 f in
  with_OS2 f (mkOS2 (version o) (fsSelection o) v (usWeightClass o)
                (usWidthClass o) (achVendID o) (sTypoAscender o)
                (sTypoDescender o) (sTypoLineGap o) (usWinAscent o)
                (usWinDescent o)).

Definition set_achVendID (f : Font) (v : string) : Font :=
  let o := tblOS2 f in
  with_OS2 f (mkOS2 (version o) (fsSelection o) (fsType o) (usWeightClass o)
                (usWidthClass o) v (sTypoAscender o) (sTypoDescender o)
                (sTypoLineGap o) (usWinAscent o) (usWinDescent o)).

Definition usesTypoMetrics (f : Font) : bool :=
  is_nth_bit_set (fsSelection (tblOS2 f)) 7.

Definition setUseTypoMetrics (f : Font) : Font :=
  if 3 <? version (tblOS2 f)
  then set_fsSelection f (set_nth_bit (fsSelection (tblOS2 f)) 7)
  else f.

Definition unsetUseTypoMetrics (f : Font) : Font :=
  set_fsSelection f (unset_nth_bit (fsSelection (tblOS2 f)) 7).

Definition setEmbedLevel (f : Font) (value : Z) : Font :=
  if negb (fsType (tblOS2 f) =? value) then set_fsType f value else f.

Definition setAchVendID (f : Font) (value : string) : Font :=
  if negb (String.eqb (achVendID (tblOS2 f)) value)
  then set_achVendID f value else f.

(** Reading one bit of fsSelection or macStyle after the setters. *)
Ltac style_ops_unfold :=
  unfold isOblique, usesTypoMetrics, style_bits_of, setBold, setItalic,
    setRegular, setBoldBits, setItalicBits, setRegularBit, clearBoldBits,
    clearItalicBits, clearRegularBit, unsetOblique, unsetUseTypoMetrics,
    set_fsSelection, set_macStyle, set_version, with_OS2, with_Head.

Ltac style_bit :=
  style_ops_unfold;
  cbn [tblOS2 tblHead fsSelection macStyle version names];
  repeat (first [ rewrite is_set_set_nth by lia
                | rewrite is_set_unset_nth by lia ];
          cbn [Z.eqb Pos.eqb negb];
          rewrite ?orb_false_r, ?orb_true_r, ?andb_true_r, ?andb_false_r);
  reflexivity.

Lemma unsetBold_other_bits f :
  isOblique (unsetBold f) = isOblique f
  /\ usesTypoMetrics (unsetBold f) = usesTypoMetrics f
  /\ names (unsetBold f) = names f.
Proof.
  unfold unsetBold. destruct (negb (isItalic _)); repeat split; style_bit.
Qed.

Lemma unsetItalic_other_bits f :
  isOblique (unsetItalic f) = isOblique f
  /\ usesTypoMetrics (unsetItalic f) = usesTypoMetrics f
  /\ names (unsetItalic f) = names f.
Proof.
  unfold unsetItalic. destruct (negb (isBold _)); repeat split; style_bit.
Qed.

Lemma setOblique_bits f :
  style_bits_of (setOblique f).1 = style_bits_of f
  /\ isOblique (setOblique f).1 = true
  /\ usesTypoMetrics (setOblique f).1 = usesTypoMetrics f
  /\ names (setOblique f).1 = names f
  /\ version (tblOS2 (setOblique f).1) = Z.max 4 (version (tblOS2 f)).
Proof.
  unfold setOblique. destruct (version (tblOS2 f) <? 4) eqn:E; cbn [fst].
  - repeat split; try style_bit.
    cbn. apply Z.ltb_lt in E. lia.
  - repeat split; try style_bit.
    cbn. apply Z.ltb_ge in E. lia.
Qed.

Lemma unsetOblique_bits f :
  style_bits_of (unsetOblique f) = style_bits_of f
  /\ isOblique (unsetOblique f) = false
  /\ usesTypoMetrics (unsetOblique f) = usesTypoMetrics f
  /\ names (unsetOblique f) = names f
  /\ version (tblOS2 (unsetOblique f)) = version (tblOS2 f).
Proof. repeat split; style_bit. Qed.

Lemma setUseTypoMetrics_bits f :
  style_bits_of (setUseTypoMetrics f) = style_bits_of f
  /\ isOblique (setUseTypoMetrics f) = isOblique f
  /\ usesTypoMetrics (setUseTypoMetrics f)
     = (3 <? version (tblOS2 f)) || usesTypoMetrics f.
Proof.
  unfold setUseTypoMetrics. destruct (3 <? version (tblOS2 f));
    repeat split; style_bit.
Qed.

(** X2. The style setters do what their names say and nothing else: bold is
    on after [setBold] and off after [unsetBold], italic likewise, [setRegular]
    leaves the font regular and neither bold nor italic, [setBold] and
    [setItalic] clear the regular bit; the bold setters leave italic alone and
    the italic setters leave bold alone; and none of the five touches the
    oblique bit, the typographic-metrics bit or the name records. *)
Theorem style_setters_round_trip (f : Font) :
  (isBold (setBold f) = true /\ isBold (unsetBold f) = false
   /\ isItalic (setItalic f) = true /\ isItalic (unsetItalic f) = false)
  /\ (isRegular (setRegular f) = true /\ isBold (setRegular f) = false
      /\ isItalic (setRegular f) = false
      /\ isRegular (setBold f) = false /\ isRegular (setItalic f) = false)
  /\ (isItalic (setBold f) = isItalic f /\ isItalic (unsetBold f) = isItalic f
      /\ isBold (setItalic f) = isBold f /\ isBold (unsetItalic f) = isBold f)
  /\ (isOblique (setBold f) = isOblique f
      /\ isOblique (setItalic f) = isOblique f
      /\ isOblique (setRegular f) = isOblique f
      /\ isOblique (unsetBold f) = isOblique f
      /\ isOblique (unsetItalic f) = isOblique f)
  /\ (usesTypoMetrics (setBold f) = usesTypoMetrics f
      /\ usesTypoMetrics (setItalic f) = usesTypoMetrics f
      /\ usesTypoMetrics (setRegular f) = usesTypoMetrics f
      /\ usesTypoMetrics (unsetBold f) = usesTypoMetrics f
      /\ usesTypoMetrics (unsetItalic f) = usesTypoMetrics f)
  /\ (names (setBold f) = names f /\ names (setItalic f) = names f
      /\ names (setRegular f) = names f /\ names (unsetBold f) = names f
      /\ names (unsetItalic f) = names f).
Proof.
  destruct (unsetBold_other_bits f) as (Ob & Tb & Nb).
  destruct (unsetItalic_other_bits f) as (Oi & Ti & Ni).
  split; [|split; [|split; [|split; [|split]]]].
  - rewrite !isBold_bits, !isItalic_bits.
    rewrite bits_setBold, bits_unsetBold, bits_setItalic, bits_unsetItalic.
    repeat split.
  - rewrite !isRegular_bits, !isBold_bits, !isItalic_bits.
    rewrite bits_setRegular, bits_setBold, bits_setItalic. repeat split.
  - rewrite !isBold_bits, !isItalic_bits.
    rewrite bits_setBold, bits_unsetBold, bits_setItalic, bits_unsetItalic.
    repeat split.
  - repeat split; try assumption; style_bit.
  - repeat split; try assumption; style_bit.
  - repeat split; try assumption; style_bit.
Qed.

(** X3. [setOblique] sets fsSelection bit 9 and lifts an OS/2 version below
    4 to 4, printing the old version exactly then; [unsetOblique] clears the
    bit. [setUseTypoMetrics] sets bit 7 only when the OS/2 version is above 3
    and does nothing otherwise, so it always takes effect after [setOblique];
    [unsetUseTypoMetrics] clears bit 7. None of the four changes the bold,
    italic and regular bits, and the oblique and typographic-metrics bits do
    not disturb each other. *)
Theorem oblique_and_typo_metrics_bits (f : Font) :
  (isOblique (setOblique f).1 = true
   /\ version (tblOS2 (setOblique f).1) = Z.max 4 (version (tblOS2 f))
   /\ (setOblique f).2
      = (if version (tblOS2 f) <? 4
         then [MsgOS2VersionUpdated (version (tblOS2 f))] else [])
   /\ isOblique (unsetOblique f) = false)
  /\ (usesTypoMetrics (setUseTypoMetrics f)
      = (3 <? version (tblOS2 f)) || usesTypoMetrics f
      /\ (version (tblOS2 f) <= 3 -> setUseTypoMetrics f = f)
      /\ usesTypoMetrics (unsetUseTypoMetrics f) = false
      /\ usesTypoMetrics (setUseTypoMetrics (setOblique f).1) = true)
  /\ (style_bits_of (setOblique f).1 = style_bits_of f
      /\ style_bits_of (unsetOblique f) = style_bits_of f
      /\ style_bits_of (setUseTypoMetrics f) = style_bits_of f
      /\ style_bits_of (unsetUseTypoMetrics f) = style_bits_of f)
  /\ (usesTypoMetrics (setOblique f).1 = usesTypoMetrics f
      /\ usesTypoMetrics (unsetOblique f) = usesTypoMetrics f
      /\ isOblique (setUseTypoMetrics f) = isOblique f
      /\ isOblique (unsetUseTypoMetrics f) = isOblique f).
Proof.
  destruct (setOblique_bits f) as (So1 & So2 & So3 & So4 & So5).
  destruct (unsetOblique_bits f) as (Uo1 & Uo2 & Uo3 & Uo4 & Uo5).
  destruct (setUseTypoMetrics_bits f) as (St1 & St2 & St3).
  split; [|split; [|split]].
  - repeat split; try assumption.
    unfold setOblique. destruct (_ <? 4); reflexivity.
  - split; [exact St3|]. split; [|split].
    + intros Hv. unfold setUseTypoMetrics.
      replace (3 <? version (tblOS2 f)) with false;
        [reflexivity | symmetry; apply Z.ltb_ge; lia].
    + style_bit.
    + destruct (setUseTypoMetrics_bits (setOblique f).1) as (_ & _ & ->).
      rewrite So5. replace (3 <? Z.max 4 (version (tblOS2 f))) with true;
        [reflexivity | symmetry; apply Z.ltb_lt; lia].
  - repeat split; try assumption. style_bit.
  - repeat split; try assumption. style_bit.
Qed.

(** *** What a style setter reads and writes

    The style bits, the oblique bit, the OS/2 version and the two classes
    are what the setters work on; [other_fields] is everything else. *)
Definition other_fields (f : Font) :=
  (names f, ltag f, (fsType (tblOS2 f), achVendID (tblOS2 f)),
   (sTypoAscender (tblOS2 f), sTypoDescender (tblOS2 f), sTypoLineGap (tblOS2 f),
    usWinAscent (tblOS2 f), usWinDescent (tblOS2 f)),
   (fontRevision (tblHead f), created (tblHead f), unitsPerEm (tblHead f)),
   tblHhea f, tblCFF f).

Definition style_view (f : Font) :=
  (style_bits_of f, isOblique f, version (tblOS2 f),
   usWeightClass (tblOS2 f), usWidthClass (tblOS2 f), other_fields f).

Lemma view_setRegular f :
  style_view (setRegular f)
  = (mkStyleBits false false false false true, isOblique f,
     version (tblOS2 f), usWeightClass (tblOS2 f), usWidthClass (tblOS2 f),
     other_fields f).
Proof.
  unfold style_view. rewrite bits_setRegular.
  replace (isOblique (setRegular f)) with (isOblique f) by (symmetry; style_bit).
  reflexivity.
Qed.

Lemma view_setItalic f :
  style_view (setItalic f)
  = (mkStyleBits (fs_bold (style_bits_of f)) (mac_bold (style_bits_of f))
       true true false,
     isOblique f, version (tblOS2 f), usWeightClass (tblOS2 f),
     usWidthClass (tblOS2 f), other_fields f).
Proof.
  unfold style_view. rewrite bits_setItalic.
  replace (isOblique (setItalic f)) with (isOblique f) by (symmetry; style_bit).
  reflexivity.
Qed.

Lemma view_setBold f :
  style_view (setBold f)
  = (mkStyleBits true true (fs_italic (style_bits_of f))
       (mac_italic (style_bits_of f)) false,
     isOblique f, version (tblOS2 f), usWeightClass (tblOS2 f),
     usWidthClass (tblOS2 f), other_fields f).
Proof.
  unfold style_view. rewrite bits_setBold.
  replace (isOblique (setBold f)) with (isOblique f) by (symmetry; style_bit).
  reflexivity.
Qed.

Lemma view_unsetItalic f :
  style_view (unsetItalic f)
  = (mkStyleBits (fs_bold (style_bits_of f)) (mac_bold (style_bits_of f))
       false false
       (if negb (mac_bold (style_bits_of f) && fs_bold (style_bits_of f))
        then true else fs_regular (style_bits_of f)),
     isOblique f, version (tblOS2 f), usWeightClass (tblOS2 f),
     usWidthClass (tblOS2 f), other_fields f).
Proof.
  unfold style_view. rewrite bits_unsetItalic.
  destruct (unsetItalic_other_bits f) as (-> & _ & _).
  unfold unsetItalic. destruct (negb (isBold _)); reflexivity.
Qed.

Lemma view_setOblique f :
  style_view (setOblique f).1
  = (style_bits_of f, true, Z.max 4 (version (tblOS2 f)),
     usWeightClass (tblOS2 f), usWidthClass (tblOS2 f), other_fields f).
Proof.
  unfold style_view. destruct (setOblique_bits f) as (-> & -> & _ & _ & ->).
  unfold setOblique. destruct (_ <? 4); reflexivity.
Qed.

Lemma view_unsetOblique f :
  style_view (unsetOblique f)
  = (style_bits_of f, false, version (tblOS2 f),
     usWeightClass (tblOS2 f), usWidthClass (tblOS2 f), other_fields f).
Proof.
  unfold style_view. destruct (unsetOblique_bits f) as (-> & -> & _ & _ & _).
  reflexivity.
Qed.

Lemma view_setUsWeightClass f v :
  style_view (setUsWeightClass f v)
  = (style_bits_of f, isOblique f, version (tblOS2 f), v,
     usWidthClass (tblOS2 f), other_fields f).
Proof.
  unfold setUsWeightClass.
  destruct (negb (usWeightClass (tblOS2 f) =? v)) eqn:E; [reflexivity|].
  apply negb_false_iff, Z.eqb_eq in E. unfold style_view. rewrite E.
  reflexivity.
Qed.

Lemma view_setUsWidthClass f v :
  style_view (setUsWidthClass f v)
  = (style_bits_of f, isOblique f, version (tblOS2 f),
     usWeightClass (tblOS2 f), v, other_fields f).
Proof.
  unfold setUsWidthClass.
  destruct (negb (usWidthClass (tblOS2 f) =? v)) eqn:E; [reflexivity|].
  apply negb_false_iff, Z.eqb_eq in E. unfold style_view. rewrite E.
  reflexivity.
Qed.

(** The parts of a view, read back. *)
Lemma style_view_parts f b o v w wd rest :
  style_view f = (b, o, v, w, wd, rest) ->
  style_bits_of f = b /\ isOblique f = o /\ version (tblOS2 f) = v
  /\ usWeightClass (tblOS2 f) = w /\ usWidthClass (tblOS2 f) = wd
  /\ other_fields f = rest.
Proof. unfold style_view. intros [= <- <- <- <- <- <-]. repeat split. Qed.

(** *** The name table: deleting and writing records *)

Section NameTableFacts.

Variable WIN MAC : string -> option Z.
Variable SCRIPT : Z -> option Z.
Variable enc : Z -> Z -> string -> bool.

(** The records [removeNames] keeps. *)
Definition kept (nID pID eID lID : option Z) (r : NameRecord) : bool :=
  arg_differs nID (nameID r) || arg_differs pID (platformID r)
  || arg_differs eID (platEncID r) || arg_differs lID (langID r).

Lemma removeNames_filter n pID eID lID ns :
  removeNames (Some n) pID eID lID ns = List.filter (kept (Some n) pID eID lID) ns.
Proof. destruct pID, eID, lID; reflexivity. Qed.

Lemma filter_twice {A} (p : A -> bool) (l : list A) :
  List.filter p (List.filter p l) = List.filter p l.
Proof.
  induction l as [|x l IH]; [reflexivity|].
  cbn. destruct (p x) eqn:E; cbn; rewrite ?E, IH; reflexivity.
Qed.

Lemma filter_both {A} (p q : A -> bool) (l : list A) :
  List.filter p (List.filter q l) = List.filter (fun x => q x && p x) l.
Proof.
  induction l as [|x l IH]; [reflexivity|].
  cbn. destruct (q x) eqn:Eq; cbn; [destruct (p x)|]; rewrite IH; reflexivity.
Qed.

Lemma filter_comm {A} (p q : A -> bool) (l : list A) :
  List.filter p (List.filter q l) = List.filter q (List.filter p l).
Proof.
  induction l as [|x l IH]; [reflexivity|].
  cbn. destruct (p x) eqn:Ep, (q x) eqn:Eq; cbn; rewrite ?Ep, ?Eq, IH; reflexivity.
Qed.

Lemma remove_all_languages_fold n (l : list NameRecord) (g : Font) :
  fold_left (fun f r =>
    if nameID r =? n
    then with_names f (removeNames (Some (nameID r)) (Some (platformID r))
                         (Some (platEncID r)) (Some (langID r)) (names f))
    else f) l g
  = with_names g
      (List.filter (fun x => negb (existsb (fun r =>
         (nameID r =? n)
         && negb (kept (Some (nameID r)) (Some (platformID r))
                    (Some (platEncID r)) (Some (langID r)) x)) l))
         (names g)).
Proof.
  revert g. induction l as [|r l IH]; intros g.
  - destruct g as [ns t o h hh c]. unfold with_names. cbn. f_equal.
    induction ns as [|x ns IHn]; cbn; [reflexivity | f_equal; exact IHn].
  - cbn [fold_left]. rewrite IH. destruct (nameID r =? n) eqn:E.
    + rewrite removeNames_filter. unfold with_names.
      cbn [names ltag tblOS2 tblHead tblHhea tblCFF]. f_equal.
      rewrite filter_both. apply filter_ext. intros x.
      cbn [existsb]. rewrite E. cbn [andb].
      destruct (kept _ _ _ _ x); reflexivity.
    + f_equal. apply filter_ext. intros x. cbn [existsb]. rewrite E.
      reflexivity.
Qed.

Lemma kept_self r :
  kept (Some (nameID r)) (Some (platformID r)) (Some (platEncID r))
    (Some (langID r)) r = false.
Proof. unfold kept, arg_differs. rewrite !Z.eqb_refl. reflexivity. Qed.

Lemma remove_all_languages_names n f :
  remove_all_languages n f
  = with_names f (List.filter (fun x => negb (nameID x =? n)) (names f)).
Proof.
  unfold remove_all_languages. rewrite remove_all_languages_fold. f_equal.
  apply filter_ext_in. intros x Hx. f_equal.
  destruct (nameID x =? n) eqn:E.
  - apply existsb_exists. exists x. rewrite E, kept_self. auto.
  - apply not_true_is_false. intros Hex. apply existsb_exists in Hex.
    destruct Hex as (r & _ & Hr). apply andb_true_iff in Hr. destruct Hr as [Hr1 Hr2].
    apply negb_true_iff in Hr2. unfold kept, arg_differs in Hr2.
    apply orb_false_iff in Hr2. destruct Hr2 as [Hr2 _].
    apply orb_false_iff in Hr2. destruct Hr2 as [Hr2 _].
    apply orb_false_iff in Hr2. destruct Hr2 as [Hr2 _].
    apply negb_false_iff in Hr2. lia.
Qed.

(** When no fall-back record is needed, what [setMultilingualName] appends
    and which records it keeps. *)
Definition written (nID : Z) (language str : string) (windows mac : bool)
  : list NameRecord :=
  ((if windows then
      match WIN (PyStr.lower language) with
      | Some l => [makeName str nID 3 1 l]
      | None => []
      end
    else [])
   ++
   (if mac then
      match MAC (PyStr.lower language) with
      | Some l => match SCRIPT l with
                  | Some s => [makeName str nID 1 s l]
                  | None => []
                  end
      | None => []
      end
    else []))%list.

Definition survives (nID : Z) (language : string) (windows mac : bool)
  (r : NameRecord) : bool :=
  if String.eqb language "ALL"
  then negb (windows || mac) || negb (nameID r =? nID)
  else
    (if windows
     then kept (Some nID) (Some 3) (Some 1) (WIN (PyStr.lower language)) r
     else true)
    && (if mac
        then kept (Some nID) (Some 1)
               (match MAC (PyStr.lower language) with
                | Some l => SCRIPT l | None => None end)
               (MAC (PyStr.lower language)) r
        else true).

(** The language and the text need no fall-back: the language has a
    Windows code when a Windows record is asked for, and a Macintosh code
    with a script whose encoding takes the text when a Macintosh record is
    asked for. *)
Definition no_fallback (language str : string) (windows mac : bool) : Prop :=
  (windows = true -> exists l, WIN (PyStr.lower language) = Some l)
  /\ (mac = true -> exists l s, MAC (PyStr.lower language) = Some l
                               /\ SCRIPT l = Some s /\ enc s l str = true).

Lemma filter_true {A} (l : list A) : List.filter (fun _ => true) l = l.
Proof. induction l; cbn; congruence. Qed.

Lemma with_names_id f : with_names f (names f) = f.
Proof. destruct f; reflexivity. Qed.

Lemma with_names_twice f a b : with_names (with_names f a) b = with_names f b.
Proof. reflexivity. Qed.

Lemma setMultilingualName_shape nID language str windows mac f :
  no_fallback language str windows mac ->
  setMultilingualName WIN MAC SCRIPT enc nID language str windows mac f
  = with_names f
      (List.filter (survives nID language windows mac) (names f)
       ++ written nID language str windows mac)%list.
Proof.
  intros [Hw Hm].
  unfold setMultilingualName, delMultilingualName, addMultilingualName,
    _makeWindowsName, _makeMacName, written, survives.
  destruct windows.
  - destruct (Hw eq_refl) as [lw Hlw]. rewrite Hlw.
    destruct mac.
    + destruct (Hm eq_refl) as (lm & sm & Hlm & Hsm & He). rewrite Hlm, Hsm, He.
      destruct (String.eqb language "ALL").
      * rewrite !remove_all_languages_names. unfold with_names; cbn.
        rewrite filter_twice, <- app_assoc. reflexivity.
      * rewrite !removeNames_filter. unfold with_names; cbn.
        rewrite filter_both, <- app_assoc. reflexivity.
    + destruct (String.eqb language "ALL").
      * rewrite !remove_all_languages_names. reflexivity.
      * rewrite !removeNames_filter. unfold with_names; cbn.
        do 2 f_equal. apply filter_ext. intros r.
        rewrite andb_true_r. reflexivity.
  - destruct mac.
    + destruct (Hm eq_refl) as (lm & sm & Hlm & Hsm & He). rewrite Hlm, Hsm, He.
      destruct (String.eqb language "ALL").
      * rewrite !remove_all_languages_names. reflexivity.
      * rewrite !removeNames_filter. reflexivity.
    + cbn. destruct (String.eqb language "ALL"); cbn;
        rewrite filter_true, app_nil_r, with_names_id; reflexivity.
Qed.

Lemma written_not_survive nID language str windows mac :
  List.filter (survives nID language windows mac)
    (written nID language str windows mac) = [].
Proof.
  unfold written, survives, kept, arg_differs.
  destruct windows, mac, (String.eqb language "ALL");
    destruct (WIN (PyStr.lower language)) as [lw|];
    destruct (MAC (PyStr.lower language)) as [lm|];
    try destruct (SCRIPT lm) as [sm|];
    cbn; rewrite ?Z.eqb_refl; cbn; rewrite ?Z.eqb_refl; reflexivity.
Qed.

(** C6, as amended. When the language has a Windows code (if a Windows record
    is asked for) and a Macintosh code, script and encodable text (if a
    Macintosh record is asked for), [setMultilingualName] removes the records
    of that nameID and language on each targeted platform and appends the new
    records, and calling it a second time with the same arguments changes
    nothing. *)
Theorem setMultilingualName_idempotent
  (nID : Z) (language str : string) (windows mac : bool) (f : Font) :
  no_fallback language str windows mac ->
  let set := setMultilingualName WIN MAC SCRIPT enc nID language str windows mac in
  set f = with_names f
            (List.filter (survives nID language windows mac) (names f)
             ++ written nID language str windows mac)%list
  /\ set (set f) = set f.
Proof.
  intros H set. subst set. split.
  - apply setMultilingualName_shape, H.
  - rewrite !setMultilingualName_shape by exact H.
    rewrite with_names_twice. cbn [names with_names]. f_equal.
    rewrite List.filter_app, filter_twice, written_not_survive, app_nil_r.
    reflexivity.
Qed.

(** *** Loops that remove records by their IDs *)

Lemma kept_same_ids r x :
  kept (Some (nameID r)) (Some (platformID r)) (Some (platEncID r))
    (Some (langID r)) x = negb (same_ids r x).
Proof.
  unfold kept, same_ids, arg_differs.
  rewrite (Z.eqb_sym (nameID r)), (Z.eqb_sym (platformID r)),
    (Z.eqb_sym (platEncID r)), (Z.eqb_sym (langID r)).
  destruct (nameID x =? nameID r), (platformID x =? platformID r),
    (platEncID x =? platEncID r), (langID x =? langID r); reflexivity.
Qed.

Lemma same_ids_refl r : same_ids r r = true.
Proof. unfold same_ids. rewrite !Z.eqb_refl. reflexivity. Qed.

Lemma same_ids_eq r x :
  same_ids r x = true ->
  nameID x = nameID r /\ platformID x = platformID r
  /\ platEncID x = platEncID r /\ langID x = langID r.
Proof.
  unfold same_ids. rewrite !andb_true_iff, !Z.eqb_eq. tauto.
Qed.

Lemma fold_left_pointwise {A B} (f g : A -> B -> A) l a :
  (forall a b, f a b = g a b) -> fold_left f l a = fold_left g l a.
Proof.
  intros H. revert a. induction l as [|b l IH]; intros a; [reflexivity|].
  cbn. rewrite H. apply IH.
Qed.

Lemma filter_all {A} (p : A -> bool) (l : list A) :
  (forall x, In x l -> p x = true) -> List.filter p l = l.
Proof.
  intros H. induction l as [|x l IH]; [reflexivity|].
  cbn. rewrite (H x (or_introl eq_refl)). f_equal.
  apply IH. intros y Hy. apply H. right. exact Hy.
Qed.

(** A loop that calls [removeNames] with the four IDs of each record of [l]
    that satisfies [cond]. *)
Lemma remove_by_ids_fold (cond : NameRecord -> bool) (l : list NameRecord)
  (g : Font) :
  fold_left (fun f r =>
    if cond r
    then with_names f (removeNames (Some (nameID r)) (Some (platformID r))
                         (Some (platEncID r)) (Some (langID r)) (names f))
    else f) l g
  = with_names g
      (List.filter (fun x => negb (existsb (fun r => cond r && same_ids r x) l))
         (names g)).
Proof.
  revert g. induction l as [|r l IH]; intros g.
  - cbn [fold_left existsb negb]. rewrite filter_true, with_names_id.
    reflexivity.
  - cbn [fold_left]. rewrite IH. destruct (cond r) eqn:E.
    + rewrite removeNames_filter. unfold with_names.
      cbn [names ltag tblOS2 tblHead tblHhea tblCFF]. f_equal.
      rewrite filter_both. apply filter_ext. intros x.
      cbn [existsb]. rewrite E, kept_same_ids. cbn [andb].
      destruct (same_ids r x); reflexivity.
    + f_equal. apply filter_ext. intros x. cbn [existsb]. rewrite E.
      reflexivity.
Qed.

(** The records that share their four IDs with a record without text. *)
Definition shares_ids_with_empty (ns : list NameRecord) (x : NameRecord) : bool :=
  existsb (fun r => (String.length (string_of r) =? 0)%nat && same_ids r x) ns.

Lemma removeEmptyNames_names f :
  removeEmptyNames f
  = with_names f
      (List.filter (fun x => negb (shares_ids_with_empty (names f) x)) (names f)).
Proof. unfold removeEmptyNames. apply remove_by_ids_fold. Qed.

Lemma length_zero_empty s : (String.length s =? 0)%nat = true <-> s = "".
Proof.
  destruct s; cbn; split; intros H; try reflexivity; discriminate.
Qed.

Lemma removeEmptyNames_nonempty f r :
  In r (names (removeEmptyNames f)) -> string_of r <> "".
Proof.
  rewrite removeEmptyNames_names. cbn [names with_names].
  rewrite filter_In. intros [Hin Hk] He.
  apply negb_true_iff in Hk. unfold shares_ids_with_empty in Hk.
  assert (Hex : existsb (fun r0 => (String.length (string_of r0) =? 0)%nat
                                   && same_ids r0 r) (names f) = true).
  { apply existsb_exists. exists r. split; [exact Hin|].
    rewrite same_ids_refl, andb_true_r. apply length_zero_empty, He. }
  congruence.
Qed.

(** X4. [removeEmptyNames] leaves no record without text. It removes every
    record that has the four IDs of a record without text, a record with
    text included, and keeps all the others in their order; the other tables
    stay as they are and a second call changes nothing. *)
Theorem removeEmptyNames_spec (f : Font) :
  removeEmptyNames f
  = with_names f
      (List.filter (fun x => negb (shares_ids_with_empty (names f) x)) (names f))
  /\ (forall r, In r (names (removeEmptyNames f)) -> string_of r <> "")
  /\ (forall r, In r (names (removeEmptyNames f)) <->
                In r (names f)
                /\ ~ exists e, In e (names f) /\ string_of e = ""
                               /\ same_ids e r = true)
  /\ removeEmptyNames (removeEmptyNames f) = removeEmptyNames f.
Proof.
  split; [apply removeEmptyNames_names|].
  split; [apply removeEmptyNames_nonempty|].
  split.
  - intros r. rewrite removeEmptyNames_names. cbn [names with_names].
    rewrite filter_In, negb_true_iff. unfold shares_ids_with_empty.
    split; intros [Hin Hk]; (split; [exact Hin|]).
    + intros (e & He & Hs & Hi).
      assert (Hex : existsb (fun r0 => (String.length (string_of r0) =? 0)%nat
                                       && same_ids r0 r) (names f) = true).
      { apply existsb_exists. exists e. split; [exact He|].
        rewrite Hi, andb_true_r. apply length_zero_empty, Hs. }
      congruence.
    + apply not_true_is_false. intros Hex. apply Hk.
      apply existsb_exists in Hex. destruct Hex as (e & He & Hc).
      apply andb_true_iff in Hc. destruct Hc as [Hs Hi].
      exists e. split; [exact He|]. split; [|exact Hi].
      apply length_zero_empty, Hs.
  - rewrite (removeEmptyNames_names (removeEmptyNames f)).
    transitivity (with_names (removeEmptyNames f) (names (removeEmptyNames f)));
      [|apply with_names_id].
    f_equal. apply filter_all. intros x Hx. apply negb_true_iff.
    apply not_true_is_false. intros Hex. unfold shares_ids_with_empty in Hex.
    apply existsb_exists in Hex. destruct Hex as (e & He & Hc).
    apply andb_true_iff in Hc. destruct Hc as [Hs _].
    apply length_zero_empty in Hs.
    exact (removeEmptyNames_nonempty f e He Hs).
Qed.

(** X5. [delMacNames] removes exactly the Macintosh records (platformID 1)
    whose nameID is not excluded: the records of the other platforms and the
    excluded Macintosh records stay, in their order, and nothing else of the
    font changes. Without exclusions no Macintosh record is left. *)
Theorem delMacNames_spec (exclude_namerecord : option (list Z)) (f : Font) :
  delMacNames exclude_namerecord f
  = with_names f
      (List.filter (fun r => negb (platformID r =? 1)
                             || py_in (nameID r) (default [] exclude_namerecord))
         (names f))
  /\ (forall r, In r (names (delMacNames None f)) -> platformID r <> 1)
  /\ delMacNames exclude_namerecord (delMacNames exclude_namerecord f)
     = delMacNames exclude_namerecord f.
Proof.
  assert (Hshape : forall ex g,
    delMacNames ex g
    = with_names g
        (List.filter (fun r => negb (platformID r =? 1)
                               || py_in (nameID r) (default [] ex)) (names g))).
  { intros ex g. unfold delMacNames. cbv zeta.
    set (excl := default [] ex).
    rewrite (fold_left_pointwise _
      (fun f r =>
         if negb (negb (platformID r =? 1) || py_in (nameID r) excl)
         then with_names f (removeNames (Some (nameID r)) (Some (platformID r))
                              (Some (platEncID r)) (Some (langID r)) (names f))
         else f))
      by (intros a b; destruct (negb (platformID b =? 1) || _); reflexivity).
    rewrite remove_by_ids_fold. f_equal.
    apply filter_ext_in. intros x Hx.
    destruct (negb (platformID x =? 1) || py_in (nameID x) excl) eqn:Ex.
    - apply negb_true_iff, not_true_is_false. intros Hex.
      apply existsb_exists in Hex. destruct Hex as (r & _ & Hc).
      apply andb_true_iff in Hc. destruct Hc as [Hc Hi].
      apply same_ids_eq in Hi. destruct Hi as (Hn & Hp & _).
      rewrite <- Hn, <- Hp, Ex in Hc. discriminate.
    - apply negb_false_iff, existsb_exists. exists x.
      rewrite Ex, same_ids_refl. auto. }
  split; [apply Hshape|]. split.
  - intros r. rewrite Hshape. cbn [names with_names default].
    rewrite filter_In. intros [_ Hk] Hp.
    rewrite Hp in Hk. discriminate.
  - rewrite (Hshape _ (delMacNames exclude_namerecord f)), Hshape.
    cbn [names with_names]. unfold with_names. cbn. f_equal.
    apply filter_twice.
Qed.

(** *** [delMultilingualName] *)

(** X6. With the language ['ALL'], [delMultilingualName] removes the records
    of the nameID on every platform and in every language, whatever the
    [windows] and [mac] flags, and keeps the other records in their order;
    without a nameID it does nothing. *)
Theorem delMultilingualName_all_languages (n : Z) (windows mac : bool) (f : Font) :
  delMultilingualName WIN MAC SCRIPT (Some n) "ALL" windows mac f
  = with_names f (List.filter (fun r => negb (nameID r =? n)) (names f))
  /\ (forall language,
        delMultilingualName WIN MAC SCRIPT None language windows mac f = f).
Proof.
  split; [|reflexivity].
  unfold delMultilingualName. cbn [String.eqb Ascii.eqb Bool.eqb].
  apply remove_all_languages_names.
Qed.

(** The records a call for one language reaches on each platform. A language
    without a code in the table of the platform constrains nothing: the
    records of every language are reached. *)
Definition windows_hit (language : string) (r : NameRecord) : bool :=
  (platformID r =? 3) && (platEncID r =? 1)
  && match WIN (PyStr.lower language) with
     | Some l => langID r =? l
     | None => true
     end.

Definition mac_hit (language : string) (r : NameRecord) : bool :=
  (platformID r =? 1)
  && match MAC (PyStr.lower language) with
     | Some l =>
         (langID r =? l)
         && match SCRIPT l with
            | Some s => platEncID r =? s
            | None => true
            end
     | None => true
     end.

Lemma kept_windows_hit n language r :
  kept (Some n) (Some 3) (Some 1) (WIN (PyStr.lower language)) r
  = negb ((nameID r =? n) && windows_hit language r).
Proof.
  unfold kept, windows_hit, arg_differs.
  rewrite (Z.eqb_sym n), (Z.eqb_sym 3), (Z.eqb_sym 1).
  destruct (WIN (PyStr.lower language)) as [l|];
    [rewrite (Z.eqb_sym l); destruct (langID r =? l)|];
    destruct (nameID r =? n), (platformID r =? 3), (platEncID r =? 1);
    reflexivity.
Qed.

Lemma kept_mac_hit n language r :
  kept (Some n) (Some 1)
    (match MAC (PyStr.lower language) with
     | Some l => SCRIPT l | None => None end)
    (MAC (PyStr.lower language)) r
  = negb ((nameID r =? n) && mac_hit language r).
Proof.
  unfold kept, mac_hit, arg_differs.
  rewrite (Z.eqb_sym n), (Z.eqb_sym 1).
  destruct (MAC (PyStr.lower language)) as [l|].
  - rewrite (Z.eqb_sym l). destruct (SCRIPT l) as [s|];
      [rewrite (Z.eqb_sym s); destruct (platEncID r =? s)|];
      destruct (nameID r =? n), (platformID r =? 1), (langID r =? l);
      reflexivity.
  - destruct (nameID r =? n), (platformID r =? 1); reflexivity.
Qed.

(** X7. For a language other than ['ALL'], [delMultilingualName] removes
    the records of the nameID that are Windows records (3, 1) in the Windows
    code of the language, when [windows] is set, or Macintosh records in the
    Macintosh code and script of the language, when [mac] is set, and keeps
    every other record in its order. A language that has no code on a
    platform removes the records of the nameID in all languages of that
    platform. *)
Theorem delMultilingualName_language
  (n : Z) (language : string) (windows mac : bool) (f : Font) :
  language <> "ALL" ->
  delMultilingualName WIN MAC SCRIPT (Some n) language windows mac f
  = with_names f
      (List.filter (fun r => negb ((nameID r =? n)
                                   && (windows && windows_hit language r
                                       || mac && mac_hit language r)))
         (names f))
  /\ (windows = true -> WIN (PyStr.lower language) = None ->
      forall r, In r (names (delMultilingualName WIN MAC SCRIPT (Some n)
                               language windows mac f)) ->
                nameID r = n -> platformID r = 3 -> platEncID r <> 1).
Proof.
  intros Hall.
  assert (Hshape :
    delMultilingualName WIN MAC SCRIPT (Some n) language windows mac f
    = with_names f
        (List.filter (fun r => negb ((nameID r =? n)
                                     && (windows && windows_hit language r
                                         || mac && mac_hit language r)))
           (names f))).
  { unfold delMultilingualName.
    replace (String.eqb language "ALL") with false
      by (symmetry; apply String.eqb_neq; exact Hall).
    destruct windows, mac; cbn [andb orb names with_names];
      rewrite ?removeNames_filter; unfold with_names; cbn.
    - f_equal. rewrite filter_both. apply filter_ext. intros r.
      rewrite kept_windows_hit, kept_mac_hit.
      destruct (nameID r =? n), (windows_hit language r), (mac_hit language r);
        reflexivity.
    - f_equal. apply filter_ext. intros r. rewrite kept_windows_hit.
      rewrite orb_false_r. reflexivity.
    - f_equal. apply filter_ext. intros r. rewrite kept_mac_hit. reflexivity.
    - destruct f; cbn. f_equal. symmetry. apply filter_all. intros r _.
      rewrite andb_false_r. reflexivity. }
  split; [exact Hshape|].
  intros -> Hnone r. rewrite Hshape. cbn [names with_names].
  rewrite filter_In. intros [_ Hk] Hn Hp He.
  unfold windows_hit in Hk. rewrite Hnone in Hk.
  apply Z.eqb_eq in Hn, Hp, He. rewrite Hn, Hp, He in Hk. discriminate.
Qed.

End NameTableFacts.

(** Entries of the library tables for four languages: Windows language IDs,
    Macintosh language IDs and their script (Roman); the legacy Roman
    encoding takes at least the ASCII characters. *)
Definition windows_codes_excerpt (tag : string) : option Z :=
  if String.eqb tag "en" then Some 0x409
  else if String.eqb tag "fr" then Some 0x40C
  else if String.eqb tag "de" then Some 0x407
  else if String.eqb tag "it" then Some 0x410
  else None.

Definition mac_codes_excerpt (tag : string) : option Z :=
  if String.eqb tag "en" then Some 0
  else if String.eqb tag "fr" then Some 1
  else if String.eqb tag "de" then Some 2
  else if String.eqb tag "it" then Some 3
  else None.

Definition mac_script_excerpt (lang : Z) : option Z :=
  if (0 <=? lang) && (lang <=? 3) then Some 0 else None.

Definition ascii_text (script lang : Z) (s : string) : bool :=
  forallb (fun c => (nat_of_ascii c <? 128)%nat) (list_ascii_of_string s).

Definition font_no_names : Font :=
  mkFont [] None
    (mkOS2 4 64 0 400 5 "ABCD" 800 (-200) 90 900 201)
    (mkHead 0 (1, 1) 0 1000)
    (mkHhea 900 (-201) 90)
    None.

Lemma setMultilingualName_idempotent_witness :
  let set := setMultilingualName windows_codes_excerpt mac_codes_excerpt
               mac_script_excerpt ascii_text 4 "en" "Foo Bold" true true in
  no_fallback windows_codes_excerpt mac_codes_excerpt mac_script_excerpt
    ascii_text "en" "Foo Bold" true true
  /\ set (set font_no_names) = set font_no_names.
Proof.
  assert (H : no_fallback windows_codes_excerpt mac_codes_excerpt
                mac_script_excerpt ascii_text "en" "Foo Bold" true true).
  { split; intros _.
    - exists 0x409. reflexivity.
    - exists 0, 0. repeat split; reflexivity. }
  split; [exact H|].
  exact (proj2 (setMultilingualName_idempotent windows_codes_excerpt
                  mac_codes_excerpt mac_script_excerpt ascii_text
                  4 "en" "Foo Bold" true true font_no_names H)).
Defined.

(** C6 as stated fails for a language that has no Windows and no Macintosh
    code: the record falls back to the Unicode platform, which the deletion
    does not look at, so a second call appends a second copy. *)
Lemma setMultilingualName_twice_unknown_language :
  let set := setMultilingualName windows_codes_excerpt mac_codes_excerpt
               mac_script_excerpt ascii_text 4 "zz" "Foo Bold" true true in
  names (set font_no_names) = [makeName "Foo Bold" 4 0 4 0]
  /\ names (set (set font_no_names))
     = [makeName "Foo Bold" 4 0 4 0; makeName "Foo Bold" 4 0 4 0]
  /\ set (set font_no_names) <> set font_no_names.
Proof.
  cbv zeta. repeat split; try (vm_compute; reflexivity).
  vm_compute. discriminate.
Qed.

(** *** [findReplace]: which records it changes *)

Definition record_pair (r : NameRecord) : Z * Z := (platformID r, nameID r).

Definition record_ids (r : NameRecord) : Z * Z * Z * Z :=
  (nameID r, platformID r, platEncID r, langID r).

(** The records [findReplace] is asked to work on: those of the platform,
    when one is given, with the nameID, when one is given, and whose nameID
    is not excluded. *)
Definition platform_selects (platform : option string) (r : NameRecord) : bool :=
  match platform with
  | None => true
  | Some p => String.eqb p "mac" && (platformID r =? 1)
              || String.eqb p "win" && (platformID r =? 3)
  end.

Definition nameID_selects (nID : option Z) (r : NameRecord) : bool :=
  match nID with
  | None => true
  | Some n => nameID r =? n
  end.

Definition selected (nID : option Z) (platform : option string)
  (namerecords_to_ignore : option (list Z)) (r : NameRecord) : bool :=
  platform_selects platform r && nameID_selects nID r
  && negb (py_in (nameID r) (default [] namerecords_to_ignore)).

(** The record with the text replaced. *)
Definition with_replaced_text (oldString newString : string) (r : NameRecord)
  : NameRecord :=
  makeName (find_replace_text (string_of r) oldString newString)
    (nameID r) (platformID r) (platEncID r) (langID r).

Definition pair_eqb (p q : Z * Z) : bool := (fst q =? fst p) && (snd q =? snd p).

Definition cnt (p : Z * Z) (l : list (Z * Z)) : nat :=
  List.length (List.filter (pair_eqb p) l).

Lemma pair_eqb_eq p q : pair_eqb p q = true <-> q = p.
Proof.
  unfold pair_eqb. destruct p, q. cbn.
  rewrite andb_true_iff, !Z.eqb_eq. split; [intros [-> ->]|intros [= -> ->]]; auto.
Qed.

Lemma pair_eqb_refl p : pair_eqb p p = true.
Proof. apply pair_eqb_eq. reflexivity. Qed.

Lemma pair_in_In p l : pair_in p l = true <-> In p l.
Proof.
  unfold pair_in. rewrite existsb_exists. split.
  - intros (q & Hq & He). apply (pair_eqb_eq p q) in He. subst q. exact Hq.
  - intros H. exists p. split; [exact H | apply pair_eqb_refl].
Qed.

Lemma py_in_In x l : py_in x l = true <-> In x l.
Proof.
  unfold py_in. rewrite existsb_exists. split.
  - intros (y & Hy & He). apply Z.eqb_eq in He. subst y. exact Hy.
  - intros H. exists x. split; [exact H | apply Z.eqb_refl].
Qed.

Lemma cnt_In p l : In p l <-> (0 < cnt p l)%nat.
Proof.
  unfold cnt. induction l as [|q l IH]; cbn; [split; [tauto | lia]|].
  destruct (pair_eqb p q) eqn:E.
  - apply pair_eqb_eq in E. subst q. cbn. split; [lia | auto].
  - rewrite <- IH. split; [|auto]. intros [H|H]; [|exact H].
    subst q. rewrite pair_eqb_refl in E. discriminate.
Qed.

Lemma remove_first_cnt_same p l : cnt p (remove_first p l) = Nat.pred (cnt p l).
Proof.
  unfold cnt. induction l as [|q l IH]; [reflexivity|].
  cbn [remove_first]. fold (pair_eqb p q). cbn [List.filter].
  destruct (pair_eqb p q) eqn:E; [reflexivity|].
  cbn [List.filter]. rewrite E. exact IH.
Qed.

Lemma remove_first_cnt_other p q l :
  q <> p -> cnt q (remove_first p l) = cnt q l.
Proof.
  intros Hne. unfold cnt. induction l as [|x l IH]; [reflexivity|].
  cbn [remove_first]. fold (pair_eqb p x).
  destruct (pair_eqb p x) eqn:E.
  - apply pair_eqb_eq in E. subst x. cbn [List.filter].
    replace (pair_eqb q p) with false; [reflexivity|].
    symmetry. apply not_true_is_false. intros H. apply pair_eqb_eq in H.
    congruence.
  - cbn [List.filter]. destruct (pair_eqb q x); cbn [List.length]; rewrite IH;
      reflexivity.
Qed.

Lemma remove_first_In p q l : In q (remove_first p l) -> In q l.
Proof.
  induction l as [|x l IH]; [auto|].
  cbn [remove_first]. destruct (_ && _); cbn; tauto.
Qed.

Lemma remove_first_keeps p q l : q <> p -> In q l -> In q (remove_first p l).
Proof.
  intros Hne. induction l as [|x l IH]; [auto|].
  cbn [remove_first]. fold (pair_eqb p x). destruct (pair_eqb p x) eqn:E.
  - apply pair_eqb_eq in E. subst x. intros [H|H]; [congruence | exact H].
  - cbn. tauto.
Qed.

(** The loop of [drop_ignored]. *)
Definition drop_loop (ignore : list Z) (recs : list NameRecord)
  (l : list (Z * Z)) : list (Z * Z) :=
  fold_left (fun l name =>
               if py_in (nameID name) ignore
                  && pair_in (platformID name, nameID name) l
               then remove_first (platformID name, nameID name) l else l)
    recs l.

Lemma drop_ignored_loop ig ns l :
  drop_ignored ig ns l = drop_loop (default [] ig) ns l.
Proof.
  destruct ig as [[|a ig]|]; cbn [default drop_ignored]; try reflexivity;
    unfold drop_loop; induction ns as [|r ns IH] in l |- *; cbn; auto.
Qed.

Lemma drop_loop_In ig recs l q : In q (drop_loop ig recs l) -> In q l.
Proof.
  unfold drop_loop. revert l. induction recs as [|r recs IH]; intros l; [auto|].
  cbn [fold_left]. intros H. apply IH in H.
  destruct (_ && _); [apply remove_first_In in H|]; exact H.
Qed.

Lemma drop_loop_keeps ig recs l q :
  py_in (snd q) ig = false -> In q l -> In q (drop_loop ig recs l).
Proof.
  intros Hq. unfold drop_loop. revert l.
  induction recs as [|r recs IH]; intros l Hl; [exact Hl|].
  cbn [fold_left]. apply IH.
  destruct (py_in (nameID r) ig) eqn:Er; cbn [andb]; [|exact Hl].
  destruct (pair_in _ l); [|exact Hl].
  apply remove_first_keeps; [|exact Hl].
  intros ->. cbn in Hq. congruence.
Qed.

Lemma drop_loop_cnt ig recs l q :
  py_in (snd q) ig = true ->
  cnt q (drop_loop ig recs l)
  = (cnt q l - List.length (List.filter (fun r => pair_eqb q (record_pair r)) recs))%nat.
Proof.
  intros Hq. unfold drop_loop. revert l.
  induction recs as [|r recs IH]; intros l;
    [cbn [fold_left List.filter List.length]; symmetry; apply Nat.sub_0_r|].
  cbn [fold_left List.filter]. rewrite IH. unfold record_pair at 2.
  destruct (pair_eqb q (platformID r, nameID r)) eqn:E.
  - apply pair_eqb_eq in E. rewrite E. rewrite <- E in Hq. cbn in Hq.
    rewrite Hq. cbn [andb List.length].
    destruct (pair_in q l) eqn:Ein.
    + rewrite <- E, remove_first_cnt_same. lia.
    + assert (cnt q l = 0)%nat; [|lia].
      destruct (cnt q l) eqn:Ec; [reflexivity|].
      assert (Hin : In q l) by (apply cnt_In; lia).
      apply pair_in_In in Hin. congruence.
  - destruct (_ && _); [|reflexivity].
    rewrite remove_first_cnt_other; [reflexivity|].
    intros ->. rewrite pair_eqb_refl in E. discriminate.
Qed.

Lemma fold_append_map {A B} (c : A -> bool) (f : A -> B) xs l0 :
  fold_left (fun l x => if c x then (l ++ [f x])%list else l) xs l0
  = (l0 ++ map f (List.filter c xs))%list.
Proof.
  revert l0. induction xs as [|x xs IH]; intros l0; cbn; [symmetry; apply app_nil_r|].
  rewrite IH. destruct (c x); cbn; [rewrite <- app_assoc|]; reflexivity.
Qed.

Lemma NoDup_snoc {A} (l : list A) x :
  List.NoDup l -> ~ In x l -> List.NoDup (l ++ [x]).
Proof.
  induction 1 as [|y l Hy Hl IH]; intros Hx; cbn.
  - constructor; [tauto | constructor].
  - constructor.
    + rewrite in_app_iff. cbn. intros [H|[H|[]]]; [tauto|].
      apply Hx. left. symmetry. exact H.
    + apply IH. intros H. apply Hx. right. exact H.
Qed.

Lemma platforms_fold ns l0 :
  List.NoDup l0 ->
  let l := fold_left (fun l name =>
                        if negb (py_in (platformID name) l)
                        then (l ++ [platformID name])%list else l) ns l0 in
  List.NoDup l
  /\ forall p, In p l <-> In p l0 \/ exists r, In r ns /\ platformID r = p.
Proof.
  revert l0. induction ns as [|r ns IH]; intros l0 Hnd; cbn.
  - split; [exact Hnd|]. intros p. split; [auto|].
    intros [H|(r & [] & _)]. exact H.
  - destruct (py_in (platformID r) l0) eqn:E; cbn [negb].
    + destruct (IH l0 Hnd) as [H1 H2]. split; [exact H1|].
      intros p. rewrite H2. split.
      * intros [H|(x & Hx & Hp)]; [auto|]. right. exists x. auto.
      * intros [H|(x & [->|Hx] & Hp)]; [auto| |].
        -- left. subst p. apply py_in_In, E.
        -- right. exists x. auto.
    + assert (Hnot : ~ In (platformID r) l0).
      { intros H. apply py_in_In in H. congruence. }
      destruct (IH _ (NoDup_snoc _ _ Hnd Hnot)) as [H1 H2].
      split; [exact H1|]. intros p. rewrite H2, in_app_iff. cbn. split.
      * intros [[H|[H|[]]]|(x & Hx & Hp)]; [auto| |].
        -- right. exists r. auto.
        -- right. exists x. auto.
      * intros [H|(x & [->|Hx] & Hp)]; [auto| |].
        -- left. right. left. exact Hp.
        -- right. exists x. auto.
Qed.

Lemma platforms_list_spec platform ns :
  List.NoDup (platforms_list platform ns)
  /\ forall r, In r ns ->
       py_in (platformID r) (platforms_list platform ns)
       = platform_selects platform r.
Proof.
  unfold platforms_list, platform_selects, is_platform.
  destruct platform as [s|].
  - destruct (String.eqb_spec s "mac") as [->|Hmac].
    + cbn. split; [repeat constructor; cbn; tauto|].
      intros r _. unfold py_in. cbn. rewrite ?orb_false_r. reflexivity.
    + destruct (String.eqb_spec s "win") as [->|Hwin]; cbn.
      * split; [repeat constructor; cbn; tauto|].
        intros r _. unfold py_in. cbn. rewrite ?orb_false_r. reflexivity.
      * split; [constructor | reflexivity].
  - cbn [app]. destruct (platforms_fold ns [] (List.NoDup_nil _)) as [H1 H2].
    split; [exact H1|]. intros r Hr. apply py_in_In, H2. right. eauto.
Qed.

Lemma cnt_map_pair n platforms q :
  List.NoDup platforms -> (cnt q (map (fun p => (p, n)) platforms) <= 1)%nat.
Proof.
  unfold cnt. induction 1 as [|p l Hp Hl IH]; cbn; [lia|].
  destruct (pair_eqb q (p, n)) eqn:E; [|exact IH].
  apply pair_eqb_eq in E. subst q. cbn.
  assert (Hz : List.length (List.filter (pair_eqb (p, n)) (map (fun p0 => (p0, n)) l)) = 0%nat);
    [|lia].
  destruct (List.filter _ _) as [|x xs] eqn:Ef; [reflexivity|].
  exfalso. assert (Hin : In x (List.filter (pair_eqb (p, n)) (map (fun p0 => (p0, n)) l)))
    by (rewrite Ef; left; reflexivity).
  apply filter_In in Hin. destruct Hin as [Hin Hx].
  apply pair_eqb_eq in Hx. subst x. apply in_map_iff in Hin.
  destruct Hin as (p' & [= ->] & Hin). contradiction.
Qed.

Lemma filter_length_le {A} (p q : A -> bool) (l : list A) :
  (List.length (List.filter p (List.filter q l))
   <= List.length (List.filter p l))%nat.
Proof.
  induction l as [|x l IH]; cbn; [lia|].
  destruct (q x); cbn; destruct (p x); cbn; lia.
Qed.

(** The entries of [names_list] after the excluded ones were dropped are the
    platform and nameID of the selected records. *)
Lemma names_list_selected nID platform ignore ns r :
  In r ns ->
  pair_in (record_pair r)
    (drop_ignored ignore ns
       (names_list_of nID (platforms_list platform ns) ns))
  = selected nID platform ignore r.
Proof.
  intros Hr. rewrite drop_ignored_loop.
  destruct (platforms_list_spec platform ns) as [Hnd Hpl].
  set (L0 := names_list_of nID (platforms_list platform ns) ns).
  assert (HL0 : In (record_pair r) L0
                <-> platform_selects platform r && nameID_selects nID r = true).
  { subst L0. unfold names_list_of, nameID_selects. rewrite <- (Hpl r Hr).
    destruct nID as [n|].
    - rewrite in_map_iff, andb_true_iff, Z.eqb_eq, py_in_In. unfold record_pair.
      split.
      + intros (p & [= <- <-] & Hp). auto.
      + intros [Hp <-]. eauto.
    - rewrite fold_append_map. cbn [app]. rewrite in_map_iff, andb_true_r.
      split.
      + intros (x & Hx & Hin). apply filter_In in Hin.
        destruct Hin as [_ Hin]. unfold record_pair in Hx.
        injection Hx as Hp _. rewrite <- Hp. exact Hin.
      + intros Hp. exists r. split; [reflexivity|].
        apply filter_In. auto. }
  unfold selected.
  destruct (py_in (nameID r) (default [] ignore)) eqn:Eig; cbn [negb].
  - rewrite andb_false_r. apply not_true_is_false. intros Hin.
    apply pair_in_In, cnt_In in Hin.
    rewrite drop_loop_cnt in Hin by exact Eig.
    assert (Hle : (cnt (record_pair r) L0
                   <= List.length (List.filter
                        (fun x => pair_eqb (record_pair r) (record_pair x)) ns))%nat);
      [|lia].
    assert (Hpos : (1 <= List.length (List.filter
                      (fun x => pair_eqb (record_pair r) (record_pair x)) ns))%nat).
    { destruct (List.filter _ ns) as [|x xs] eqn:Ef; [|cbn; lia].
      assert (Hin' : In r (List.filter
                (fun x => pair_eqb (record_pair r) (record_pair x)) ns)).
      { apply filter_In. split; [exact Hr | apply pair_eqb_refl]. }
      rewrite Ef in Hin'. destruct Hin'. }
    subst L0. unfold names_list_of. destruct nID as [n|].
    + pose proof (cnt_map_pair n _ (record_pair r) Hnd). lia.
    + rewrite fold_append_map. cbn [app]. unfold cnt.
      rewrite <- (List.length_map record_pair
                    (List.filter (fun x => pair_eqb (record_pair r) (record_pair x)) ns)).
      assert (Hmf : forall l,
        List.filter (pair_eqb (record_pair r)) (map record_pair l)
        = map record_pair
            (List.filter (fun x => pair_eqb (record_pair r) (record_pair x)) l)).
      { induction l as [|x l IH]; [reflexivity|]. cbn.
        destruct (pair_eqb _ _); cbn; rewrite IH; reflexivity. }
      rewrite Hmf, !List.length_map. apply filter_length_le.
  - rewrite andb_true_r.
    destruct (platform_selects platform r && nameID_selects nID r) eqn:Es.
    + apply pair_in_In, drop_loop_keeps; [exact Eig | apply HL0; reflexivity].
    + apply not_true_is_false. intros Hin. apply pair_in_In, drop_loop_In in Hin.
      apply HL0 in Hin. congruence.
Qed.

(** *** [findReplace]: the loop over the records *)

Lemma same_ids_trans_sel (sel : Z * Z -> bool) r a b :
  same_ids r b = true -> same_ids a b = true ->
  sel (record_pair a) = sel (record_pair r).
Proof.
  intros H1 H2. apply same_ids_eq in H1, H2. unfold record_pair.
  destruct H1 as (N1 & P1 & _), H2 as (N2 & P2 & _). congruence.
Qed.

(** [b] has the IDs of [a], and is [a] itself when [a] is not selected. *)
Definition kept_record (sel : Z * Z -> bool) (a b : NameRecord) : Prop :=
  same_ids a b = true /\ (sel (record_pair a) = false -> b = a).

Lemma setName_Forall2 (sel : Z * Z -> bool) s r orig cur :
  Forall2 (kept_record sel) orig cur ->
  sel (record_pair r) = true ->
  (exists x, In x cur /\ same_ids r x = true) ->
  Forall2 (kept_record sel) orig
    (setName s (nameID r) (platformID r) (platEncID r) (langID r) cur).
Proof.
  intros HF Hsel. induction HF as [|a b orig cur [Hab Hkeep] HF IH]; intros Hex.
  - destruct Hex as (x & [] & _).
  - cbn [setName]. fold (same_ids r b). destruct (same_ids r b) eqn:E.
    + constructor; [|exact HF]. split.
      * unfold same_ids in *. cbn. exact Hab.
      * intros Hns. rewrite (same_ids_trans_sel sel r a b E Hab) in Hns.
        congruence.
    + constructor; [split; assumption|]. apply IH.
      destruct Hex as (x & [->|Hx] & Hs); [congruence | eauto].
Qed.

Lemma replace_loop_Forall2 oldString newString L idx orig cur c :
  Forall2 (kept_record (fun p => pair_in p L)) orig cur ->
  Forall2 (kept_record (fun p => pair_in p L)) orig
    (fst (fold_left (fun '(ns, fixCount) i =>
       match ns !! i with
       | Some name =>
           if pair_in (platformID name, nameID name) L
              && PyStr.contains oldString (string_of name)
           then (setName (find_replace_text (string_of name) oldString newString)
                   (nameID name) (platformID name) (platEncID name)
                   (langID name) ns,
                 fixCount + 1)
           else (ns, fixCount)
       | None => (ns, fixCount)
       end) idx (cur, c))).
Proof.
  revert cur c. induction idx as [|i idx IH]; intros cur c HF; [exact HF|].
  cbn [fold_left]. destruct (cur !! i) as [live|] eqn:Hi; [|apply IH, HF].
  destruct (pair_in (platformID live, nameID live) L) eqn:Hsel; cbn [andb];
    [|apply IH, HF].
  destruct (PyStr.contains oldString (string_of live)); [|apply IH, HF].
  apply IH. apply setName_Forall2; [exact HF | exact Hsel|].
  exists live. split; [|apply same_ids_refl].
  apply list_elem_of_In, list_elem_of_lookup. eauto.
Qed.

Lemma findReplace_names oldString newString fixCFF nID platform ignore ns cff :
  fst (fst (fst (findReplace oldString newString fixCFF nID platform ignore
                   ns cff)))
  = fst (replace_in_names oldString newString
           (drop_ignored ignore ns
              (names_list_of nID (platforms_list platform ns) ns)) ns).
Proof.
  unfold findReplace. cbv zeta.
  destruct (replace_in_names _ _ _ _) as [ns' c].
  destruct cff as [t|]; [destruct fixCFF|]; try reflexivity.
  destruct (replace_in_CFF _ _ _ _) as [[t' c'] out]. reflexivity.
Qed.

(** X8. [findReplace] keeps the number and the order of the records and
    the four IDs of each; and it leaves as it is every record that is not
    selected: one on another platform than the one given, one with another
    nameID than the one given, and one whose nameID is excluded, even when
    that nameID is the one given. *)
Theorem findReplace_unselected_untouched
  (oldString newString : string) (fixCFF : bool) (nID : option Z)
  (platform : option string) (namerecords_to_ignore : option (list Z))
  (ns : list NameRecord) (cff : option CFFTable) :
  let ns' := fst (fst (fst (findReplace oldString newString fixCFF nID platform
                              namerecords_to_ignore ns cff))) in
  List.length ns' = List.length ns
  /\ (forall i r, ns !! i = Some r ->
        exists s, ns' !! i = Some (makeName s (nameID r) (platformID r)
                                     (platEncID r) (langID r)))
  /\ (forall i r, ns !! i = Some r ->
        selected nID platform namerecords_to_ignore r = false ->
        ns' !! i = Some r).
Proof.
  cbv zeta. rewrite findReplace_names. unfold replace_in_names.
  set (L := drop_ignored _ _ _).
  assert (HF0 : Forall2 (kept_record (fun p => pair_in p L)) ns ns).
  { clearbody L. induction ns as [|a l IH]; [constructor|].
    constructor; [|exact IH].
    split; [apply same_ids_refl | reflexivity]. }
  pose proof (replace_loop_Forall2 oldString newString L
                (seq 0 (List.length ns)) ns ns 0 HF0) as HF.
  set (ns' := fst (fold_left _ _ _)) in *.
  split; [symmetry; apply (Forall2_length _ _ _ HF)|]. split.
  - intros i r Hi.
    destruct (Forall2_lookup_l _ _ _ _ _ HF Hi) as (r' & Hi' & Hs & _).
    exists (string_of r'). rewrite Hi'. f_equal.
    apply same_ids_eq in Hs. destruct Hs as (H1 & H2 & H3 & H4).
    destruct r'. cbn in *. congruence.
  - intros i r Hi Hsel.
    destruct (Forall2_lookup_l _ _ _ _ _ HF Hi) as (r' & Hi' & _ & Hk).
    rewrite Hi'. f_equal. apply Hk. subst L.
    rewrite names_list_selected; [exact Hsel|].
    apply list_elem_of_In, list_elem_of_lookup. eauto.
Qed.

Lemma same_ids_record_ids r y :
  same_ids r y = true <-> record_ids y = record_ids r.
Proof.
  unfold same_ids, record_ids. rewrite !andb_true_iff, !Z.eqb_eq.
  split; [intros [[[-> ->] ->] ->]; reflexivity | intros [= -> -> -> ->]; auto].
Qed.

Lemma setName_at s r done rest :
  (forall y, In y done -> same_ids r y = false) ->
  setName s (nameID r) (platformID r) (platEncID r) (langID r)
    (done ++ r :: rest)
  = (done ++ makeName s (nameID r) (platformID r) (platEncID r) (langID r)
       :: rest)%list.
Proof.
  intros H. induction done as [|y done IH]; cbn [app setName].
  - fold (same_ids r r). rewrite same_ids_refl. reflexivity.
  - fold (same_ids r y). rewrite (H y (or_introl eq_refl)). f_equal.
    apply IH. intros z Hz. apply H. right. exact Hz.
Qed.

Lemma replace_loop_unique oldString newString L todo done c :
  List.NoDup (map record_ids (done ++ todo)) ->
  let hit r := pair_in (record_pair r) L
               && PyStr.contains oldString (string_of r) in
  fold_left (fun '(ns, fixCount) i =>
    match ns !! i with
    | Some name =>
        if pair_in (platformID name, nameID name) L
           && PyStr.contains oldString (string_of name)
        then (setName (find_replace_text (string_of name) oldString newString)
                (nameID name) (platformID name) (platEncID name)
                (langID name) ns,
              fixCount + 1)
        else (ns, fixCount)
    | None => (ns, fixCount)
    end) (seq (List.length done) (List.length todo)) ((done ++ todo)%list, c)
  = ((done ++ map (fun r => if hit r then with_replaced_text oldString newString r
                            else r) todo)%list,
     c + Z.of_nat (List.length (List.filter hit todo))).
Proof.
  intros Hnd hit. revert done c Hnd.
  induction todo as [|r todo IH]; intros done c Hnd.
  - cbn. rewrite Z.add_0_r. reflexivity.
  - cbn [List.length seq fold_left].
    rewrite list_lookup_middle by reflexivity.
    change (pair_in (platformID r, nameID r) L
            && PyStr.contains oldString (string_of r)) with (hit r).
    assert (Hdone : forall y, In y done -> same_ids r y = false).
    { intros y Hy. apply not_true_is_false. intros Hs.
      apply same_ids_record_ids in Hs.
      rewrite map_app in Hnd. cbn [map] in Hnd.
      apply List.NoDup_remove_2 in Hnd. apply Hnd.
      apply in_or_app. left. rewrite <- Hs. apply in_map, Hy. }
    assert (Hnext : forall r', record_ids r' = record_ids r ->
              List.NoDup (map record_ids ((done ++ [r']) ++ todo))).
    { intros r' Hr'. rewrite <- app_assoc. cbn [app].
      rewrite map_app. cbn [map]. rewrite Hr'.
      rewrite map_app in Hnd. exact Hnd. }
    cbn [map List.filter]. destruct (hit r) eqn:Eh.
    + rewrite setName_at by exact Hdone.
      fold (with_replaced_text oldString newString r).
      replace (done ++ with_replaced_text oldString newString r :: todo)%list
        with ((done ++ [with_replaced_text oldString newString r]) ++ todo)%list
        by (rewrite <- app_assoc; reflexivity).
      replace (S (List.length done))
        with (List.length (done ++ [with_replaced_text oldString newString r]))
        by (rewrite List.length_app; cbn; lia).
      rewrite IH by (apply Hnext; reflexivity).
      rewrite <- app_assoc. cbn [app List.length]. f_equal. lia.
    + replace (done ++ r :: todo)%list with ((done ++ [r]) ++ todo)%list
        by (rewrite <- app_assoc; reflexivity).
      replace (S (List.length done)) with (List.length (done ++ [r]))
        by (rewrite List.length_app; cbn; lia).
      rewrite IH by (apply Hnext; reflexivity).
      rewrite <- app_assoc. reflexivity.
Qed.

(** X9. On a name table in which no two records have the same four IDs,
    [findReplace] changes exactly the selected records whose text contains
    [oldString]: each gets its text with [oldString] replaced, double spaces
    replaced by one and the ends stripped, and every other record stays as
    it is. When the CFF table is not asked for or is not there, it is left
    alone, nothing is printed and the returned count is the number of records
    changed in this way. *)
Theorem findReplace_unique_ids
  (oldString newString : string) (fixCFF : bool) (nID : option Z)
  (platform : option string) (namerecords_to_ignore : option (list Z))
  (ns : list NameRecord) (cff : option CFFTable) :
  List.NoDup (map record_ids ns) ->
  let hit r := selected nID platform namerecords_to_ignore r
               && PyStr.contains oldString (string_of r) in
  let '(ns', cff', out, fixCount) :=
    findReplace oldString newString fixCFF nID platform namerecords_to_ignore
      ns cff in
  ns' = map (fun r => if hit r then with_replaced_text oldString newString r
                      else r) ns
  /\ (fixCFF = false \/ cff = None ->
      cff' = cff /\ out = []
      /\ fixCount = Z.of_nat (List.length (List.filter hit ns))).
Proof.
  intros Hnd hit. unfold findReplace. cbv zeta.
  set (L := drop_ignored _ _ _).
  assert (Hsel : forall r, In r ns ->
            pair_in (record_pair r) L && PyStr.contains oldString (string_of r)
            = hit r).
  { intros r Hr. subst L hit. cbv beta. rewrite names_list_selected by exact Hr.
    reflexivity. }
  unfold replace_in_names.
  pose proof (replace_loop_unique oldString newString L ns [] 0 Hnd) as Hloop.
  cbv zeta in Hloop. cbn [app List.length] in Hloop. rewrite Hloop. clear Hloop.
  assert (Hmap : map (fun r => if pair_in (record_pair r) L
                                  && PyStr.contains oldString (string_of r)
                               then with_replaced_text oldString newString r
                               else r) ns
                 = map (fun r => if hit r
                                 then with_replaced_text oldString newString r
                                 else r) ns).
  { apply map_ext_in. intros r Hr. rewrite Hsel by exact Hr. reflexivity. }
  assert (Hcount : List.filter (fun r => pair_in (record_pair r) L
                                  && PyStr.contains oldString (string_of r)) ns
                   = List.filter hit ns).
  { apply filter_ext_in. exact Hsel. }
  rewrite Hmap, Hcount. cbn [Z.add].
  destruct cff as [t|].
  - destruct fixCFF.
    + destruct (replace_in_CFF _ _ _ _) as [[t' c'] out].
      split; [reflexivity|]. intros [H|H]; discriminate.
    + split; [reflexivity|]. intros _. repeat split.
  - split; [reflexivity|]. intros _. repeat split.
Qed.

(** *** [setCFFName] *)

Lemma field_differs_set fld t v :
  field_differs fld (set_field fld t v) v = Some false.
Proof.
  destruct fld as [|a]; cbn.
  - rewrite bool_decide_eq_true_2 by reflexivity. reflexivity.
  - destruct a; cbn; rewrite String.eqb_refl; reflexivity.
Qed.

Lemma field_differs_other fld fld' t w v :
  fld <> fld' ->
  field_differs fld (set_field fld' t w) v = field_differs fld t v.
Proof.
  intros Hne. destruct fld as [|a], fld' as [|a']; try reflexivity;
    try congruence; try (destruct a'; reflexivity).
  destruct a, a'; try reflexivity; congruence.
Qed.

(** Every argument that is given is the value of its field. *)
Definition settled (blocks : list (CFFField * option string))
  (cff : option CFFTable) : Prop :=
  forall fld v, In (fld, Some v) blocks -> v <> "" ->
    exists t, cff = Some t /\ field_differs fld t v = Some false.

Lemma setCFFName_block_inv fld arg st st' :
  setCFFName_block fld arg st = (None, st') ->
  (st' = st
   \/ exists t v, fst st = Some t /\ st' = (Some (set_field fld t v), snd st + 1))
  /\ (forall v, arg = Some v -> v <> "" ->
        exists t, fst st' = Some t /\ field_differs fld t v = Some false).
Proof.
  unfold setCFFName_block. destruct arg as [[|c s]|].
  - intros [= <-]. split; [auto|]. intros v [= <-] H. congruence.
  - destruct (fst st) as [t|] eqn:Et; [|discriminate].
    destruct (field_differs fld t (String c s)) as [[|]|] eqn:Ed;
      [| |discriminate]; intros [= <-].
    + split; [right; eauto|]. intros v [= <-] _. cbn.
      eexists. split; [reflexivity | apply field_differs_set].
    + split; [auto|]. intros v [= <-] _. eauto.
  - intros [= <-]. split; [auto|]. intros v H. discriminate.
Qed.

Lemma setCFFName_blocks_inv blocks st st' :
  List.NoDup (map fst blocks) ->
  setCFFName_blocks blocks st = (None, st') ->
  settled blocks (fst st')
  /\ snd st <= snd st' <= snd st + Z.of_nat (List.length blocks)
  /\ (snd st' = snd st -> st' = st)
  /\ (forall fld v t, ~ In fld (map fst blocks) -> fst st = Some t ->
        exists t', fst st' = Some t'
                   /\ field_differs fld t' v = field_differs fld t v).
Proof.
  revert st. induction blocks as [|[fld arg] blocks IH]; intros st Hnd.
  - cbn. intros [= <-]. split; [intros ? ? []|]. split; [lia|].
    split; [auto|]. intros fld v t _ Ht. eauto.
  - cbn [setCFFName_blocks map fst] in *.
    apply List.NoDup_cons_iff in Hnd. destruct Hnd as [Hfld Hnd].
    destruct (setCFFName_block fld arg st) as [[e|] st1] eqn:Eb; [discriminate|].
    intros Hrest. destruct (setCFFName_block_inv _ _ _ _ Eb) as [Hstep Hset].
    destruct (IH st1 Hnd Hrest) as (Hsettled & Hcount & Hsame & Hother).
    assert (Hc1 : snd st <= snd st1 <= snd st + 1
                  /\ (snd st1 = snd st -> st1 = st)).
    { destruct Hstep as [->|(t & v & _ & ->)]; cbn; [split; [lia | auto]|].
      split; [lia|]. intros H. lia. }
    split; [|split; [|split]].
    + intros fld0 v [[= <- ->]|Hin] Hv.
      * destruct (Hset v eq_refl Hv) as (t1 & Ht1 & Hd).
        destruct (Hother fld v t1 Hfld Ht1) as (t' & Ht' & Hd').
        exists t'. split; [exact Ht' | congruence].
      * apply Hsettled; assumption.
    + cbn [List.length]. lia.
    + intros Heq. assert (snd st1 = snd st) by lia.
      rewrite Hsame by lia. apply Hc1. assumption.
    + intros fld0 v t Hnot Ht.
      assert (H1 : exists t1, fst st1 = Some t1
                   /\ field_differs fld0 t1 v = field_differs fld0 t v).
      { destruct Hstep as [->|(t0 & w & Ht0 & ->)]; [eauto|].
        cbn. eexists. split; [reflexivity|].
        rewrite Ht in Ht0. injection Ht0 as <-.
        apply field_differs_other. intros ->. apply Hnot. left. reflexivity. }
      destruct H1 as (t1 & Ht1 & Hd1).
      destruct (Hother fld0 v t1 (fun H => Hnot (or_intror H)) Ht1)
        as (t' & Ht' & Hd').
      exists t'. split; [exact Ht' | congruence].
Qed.

Lemma setCFFName_blocks_settled blocks st :
  settled blocks (fst st) -> setCFFName_blocks blocks st = (None, st).
Proof.
  induction blocks as [|[fld arg] blocks IH]; intros Hs; [reflexivity|].
  cbn [setCFFName_blocks].
  assert (Hb : setCFFName_block fld arg st = (None, st)).
  { unfold setCFFName_block. destruct arg as [[|c s]|]; try reflexivity.
    destruct (Hs fld (String c s) (or_introl eq_refl) ltac:(discriminate))
      as (t & -> & ->). reflexivity. }
  rewrite Hb. apply IH. intros f v Hin Hv. apply Hs; [right; exact Hin | exact Hv].
Qed.

(** X10. When [setCFFName] returns, the count is between 0 and 6 and the
    table is untouched when it is 0; every argument that was given (not
    [None], not empty) is then the value of its field; and a second call with
    the same arguments returns 0 and changes nothing. *)
Theorem setCFFName_spec
  (fontNames FullName FamilyName Weight Copyright Notice : option string)
  (cff cff' : option CFFTable) (count : Z) :
  setCFFName fontNames FullName FamilyName Weight Copyright Notice cff
  = (inl count, cff') ->
  0 <= count <= 6
  /\ (count = 0 -> cff' = cff)
  /\ setCFFName fontNames FullName FamilyName Weight Copyright Notice cff'
     = (inl 0, cff')
  /\ (forall v, fontNames = Some v -> v <> "" ->
        exists t, cff' = Some t /\ cff_fontNames t = [v])
  /\ (forall a v,
        In (a, Some v) [(AttrFullName, FullName); (AttrFamilyName, FamilyName);
                        (AttrWeight, Weight); (AttrCopyright, Copyright);
                        (AttrNotice, Notice)] ->
        v <> "" -> exists t, cff' = Some t /\ getattr t a = Some v).
Proof.
  unfold setCFFName.
  set (blocks := [(FieldFontNames, fontNames); (FieldTop AttrFullName, FullName);
                  (FieldTop AttrFamilyName, FamilyName);
                  (FieldTop AttrWeight, Weight);
                  (FieldTop AttrCopyright, Copyright);
                  (FieldTop AttrNotice, Notice)]).
  assert (Hnd : List.NoDup (map fst blocks)).
  { cbn. repeat constructor; cbn; intuition discriminate. }
  destruct (setCFFName_blocks blocks (cff, 0)) as [[e|] [c1 n1]] eqn:Er;
    [discriminate|].
  intros [= -> ->].
  destruct (setCFFName_blocks_inv _ _ _ Hnd Er) as (Hs & Hc & Hsame & _).
  cbn [fst snd] in *.
  split; [cbn in Hc; lia|]. split; [|split; [|split]].
  - intros ->. specialize (Hsame eq_refl). congruence.
  - rewrite (setCFFName_blocks_settled blocks (cff', 0)) by exact Hs.
    reflexivity.
  - intros v -> Hv. destruct (Hs FieldFontNames v) as (t & Ht & Hd);
      [left; reflexivity | exact Hv|].
    exists t. split; [exact Ht|]. cbn in Hd. injection Hd as Hd.
    apply negb_false_iff, bool_decide_eq_true in Hd. exact Hd.
  - intros a v Hin Hv. destruct (Hs (FieldTop a) v) as (t & Ht & Hd);
      [|exact Hv|].
    + right. cbn in Hin |- *.
      destruct Hin as [[= <- ->]|[[= <- ->]|[[= <- ->]|[[= <- ->]|[[= <- ->]|[]]]]]];
        auto 10.
    + exists t. split; [exact Ht|]. cbn in Hd.
      destruct (getattr t a) as [old|]; [|discriminate].
      injection Hd as Hd. apply negb_false_iff, String.eqb_eq in Hd.
      congruence.
Qed.

(** *** [recalcNames]: what the name-writing steps leave alone *)

Definition records_of (n : Z) (ns : list NameRecord) : list NameRecord :=
  List.filter (fun r => nameID r =? n) ns.

(** [f'] differs from [f] only in the [ltag] table and in name records whose
    nameID is [touched]. *)
Definition name_frame (touched : Z -> bool) (f f' : Font) : Prop :=
  tblOS2 f' = tblOS2 f /\ tblHead f' = tblHead f
  /\ tblHhea f' = tblHhea f /\ tblCFF f' = tblCFF f
  /\ forall n, touched n = false ->
       records_of n (names f') = records_of n (names f).

Lemma name_frame_refl touched f : name_frame touched f f.
Proof. repeat split. Qed.

Ltac frame_split :=
  unfold name_frame;
  split; [reflexivity|split; [reflexivity|split; [reflexivity|
  split; [reflexivity|]]]].

Lemma name_frame_trans touched f g h :
  name_frame touched f g -> name_frame touched g h -> name_frame touched f h.
Proof.
  intros (A1 & A2 & A3 & A4 & A5) (B1 & B2 & B3 & B4 & B5).
  repeat split; try congruence.
  intros n Hn. rewrite B5, A5 by assumption. reflexivity.
Qed.

Lemma name_frame_weaken (t t' : Z -> bool) f g :
  (forall n, t' n = false -> t n = false) ->
  name_frame t f g -> name_frame t' f g.
Proof.
  intros Hsub (A1 & A2 & A3 & A4 & A5). repeat split; try assumption.
  intros n Hn. apply A5, Hsub, Hn.
Qed.

Lemma getName_records_of ns n p e l :
  getName ns n p e l = getName (records_of n ns) n p e l.
Proof.
  unfold getName, records_of.
  induction ns as [|r ns IH]; [reflexivity|].
  cbn [List.find List.filter]. destruct (nameID r =? n) eqn:E.
  - cbn [List.find]. rewrite E. cbn [andb].
    destruct (_ && _); [reflexivity | exact IH].
  - cbn [andb]. exact IH.
Qed.

Lemma str_getName_records_of ns ns' n p e l :
  records_of n ns' = records_of n ns ->
  str_getName ns' n p e l = str_getName ns n p e l.
Proof.
  intros H. unfold str_getName.
  rewrite (getName_records_of ns'), (getName_records_of ns), H. reflexivity.
Qed.

Lemma records_of_kept n m pID eID lID ns :
  n <> m ->
  records_of n (List.filter (kept (Some m) pID eID lID) ns) = records_of n ns.
Proof.
  intros Hne. unfold records_of. rewrite filter_both.
  apply filter_ext. intros r. unfold kept. cbn [arg_differs].
  destruct (nameID r =? n) eqn:E; [|apply andb_false_r].
  replace (m =? nameID r) with false by (symmetry; apply Z.eqb_neq; lia).
  reflexivity.
Qed.

Lemma records_of_app n ns ns' :
  records_of n (ns ++ ns')%list = (records_of n ns ++ records_of n ns')%list.
Proof. apply List.filter_app. Qed.

Section NameSteps.

Variable WIN MAC : string -> option Z.
Variable SCRIPT : Z -> option Z.
Variable enc : Z -> Z -> string -> bool.

Lemma delMultilingualName_frame m language windows mac f :
  name_frame (Z.eqb m) f
    (delMultilingualName WIN MAC SCRIPT (Some m) language windows mac f).
Proof.
  unfold delMultilingualName.
  destruct (String.eqb language "ALL").
  - rewrite remove_all_languages_names. frame_split.
    intros n Hn. cbn [names with_names]. unfold records_of.
    rewrite filter_both. apply filter_ext. intros r.
    destruct (nameID r =? n) eqn:E; [|apply andb_false_r].
    apply Z.eqb_neq in Hn. replace (nameID r =? m) with false; [reflexivity|].
    symmetry. apply Z.eqb_neq. lia.
  - destruct windows, mac; rewrite ?removeNames_filter; frame_split;
      intros n Hn; apply Z.eqb_neq in Hn; cbn [names with_names];
      rewrite ?records_of_kept by lia; reflexivity.
Qed.

Lemma _makeMacName_shape name m language f :
  exists t p e l,
    _makeMacName MAC SCRIPT enc name m language f
    = (with_ltag f t, makeName name m p e l).
Proof.
  unfold _makeMacName.
  destruct (MAC (PyStr.lower language)) as [lm|].
  - destruct (SCRIPT lm) as [sm|].
    + destruct (enc sm lm name).
      * exists (ltag f), 1, sm, lm. destruct f; reflexivity.
      * destruct (addTag language (default [] (ltag f))) as [tags i].
        exists (Some tags), 0, 4, i. reflexivity.
    + destruct (addTag language (default [] (ltag f))) as [tags i].
      exists (Some tags), 0, 4, i. reflexivity.
  - destruct (addTag language (default [] (ltag f))) as [tags i].
    exists (Some tags), 0, 4, i. reflexivity.
Qed.

Lemma addMultilingualName_frame m language str windows mac f :
  name_frame (Z.eqb m) f
    (addMultilingualName WIN MAC SCRIPT enc language str m windows mac f).
Proof.
  assert (Hrec : forall n ns s p e l, (m =? n) = false ->
            records_of n (ns ++ [makeName s m p e l])%list = records_of n ns).
  { intros n ns s p e l Hn. rewrite records_of_app. unfold records_of at 2.
    cbn. rewrite Hn. apply app_nil_r. }
  unfold addMultilingualName, _makeWindowsName.
  destruct windows; [destruct (WIN _) as [lw|]|]; destruct mac;
    try match goal with
      | |- context [_makeMacName MAC SCRIPT enc ?a ?b ?c ?d] =>
          destruct (_makeMacName_shape a b c d) as (t & p & e & l & ->)
      end;
    frame_split; intros n Hn; cbn [names with_names with_ltag];
    rewrite ?Hrec by assumption; reflexivity.
Qed.

Lemma setMultilingualName_frame m language str windows mac f :
  name_frame (Z.eqb m) f
    (setMultilingualName WIN MAC SCRIPT enc m language str windows mac f).
Proof.
  unfold setMultilingualName.
  eapply name_frame_trans; [|apply addMultilingualName_frame].
  destruct windows, mac;
    repeat first [ apply name_frame_refl
                 | eapply name_frame_trans; [apply delMultilingualName_frame|] ].
Qed.

(** The English records: Windows (3, 1, 0x409) and Macintosh (1, 0, 0). *)
Definition english_codes : Prop :=
  WIN "en" = Some 0x409 /\ MAC "en" = Some 0 /\ SCRIPT 0 = Some 0.

Definition is_record (n p e l : Z) (r : NameRecord) : bool :=
  (nameID r =? n) && (platformID r =? p) && (platEncID r =? e)
  && (langID r =? l).

Lemma getName_find ns n p e l :
  getName ns n p e (Some l) = List.find (is_record n p e l) ns.
Proof. reflexivity. Qed.

Lemma kept_is_record n p e l r :
  kept (Some n) (Some p) (Some e) (Some l) r = negb (is_record n p e l r).
Proof.
  unfold kept, is_record, arg_differs.
  rewrite (Z.eqb_sym n), (Z.eqb_sym p), (Z.eqb_sym e), (Z.eqb_sym l).
  destruct (nameID r =? n), (platformID r =? p), (platEncID r =? e),
    (langID r =? l); reflexivity.
Qed.

Lemma find_filter_none {A} (p k : A -> bool) (l : list A) :
  (forall r, k r = true -> p r = false) ->
  List.find p (List.filter k l) = None.
Proof.
  intros H. induction l as [|x l IH]; [reflexivity|].
  cbn. destruct (k x) eqn:E; [|exact IH].
  cbn. rewrite (H x E). exact IH.
Qed.

Lemma find_app_none {A} (p : A -> bool) (l1 l2 : list A) :
  List.find p l1 = None -> List.find p (l1 ++ l2)%list = List.find p l2.
Proof.
  induction l1 as [|x l1 IH]; [reflexivity|].
  cbn. destruct (p x); [discriminate | exact IH].
Qed.

(** Writing the English Windows record of a nameID and then deleting its
    English Macintosh record. *)
Lemma set_windows_only_en k s g :
  english_codes ->
  let g' := delMultilingualName WIN MAC SCRIPT (Some k) "en" false true
              (setMultilingualName WIN MAC SCRIPT enc k "en" s true false g) in
  getName (names g') k 3 1 (Some 0x409) = Some (makeName s k 3 1 0x409)
  /\ getName (names g') k 1 0 (Some 0) = None.
Proof.
  intros (Hw & Hm & Hs).
  unfold setMultilingualName, delMultilingualName, addMultilingualName,
    _makeWindowsName.
  change (PyStr.lower "en") with "en". rewrite Hw, Hm, Hs.
  cbn [String.eqb Ascii.eqb Bool.eqb names with_names].
  rewrite !removeNames_filter, !getName_find. split.
  - rewrite List.filter_app, find_app_none.
    + unfold kept, is_record, arg_differs. cbn. rewrite !Z.eqb_refl.
      cbn. rewrite !Z.eqb_refl. reflexivity.
    + rewrite filter_both. apply find_filter_none. intros r Hr.
      apply andb_true_iff in Hr. destruct Hr as [Hr _].
      rewrite kept_is_record in Hr. apply negb_true_iff in Hr. exact Hr.
  - apply find_filter_none. intros r Hr.
    rewrite kept_is_record in Hr. apply negb_true_iff in Hr. exact Hr.
Qed.

(** Deleting the English records of a nameID on both platforms. *)
Lemma del_both_en k g :
  english_codes ->
  let g' := delMultilingualName WIN MAC SCRIPT (Some k) "en" true true g in
  getName (names g') k 3 1 (Some 0x409) = None
  /\ getName (names g') k 1 0 (Some 0) = None.
Proof.
  intros (Hw & Hm & Hs). unfold delMultilingualName.
  change (PyStr.lower "en") with "en". rewrite Hw, Hm, Hs.
  cbn [String.eqb Ascii.eqb Bool.eqb names with_names].
  rewrite !removeNames_filter, !getName_find. split.
  - rewrite filter_both. apply find_filter_none. intros r Hr.
    apply andb_true_iff in Hr. destruct Hr as [Hr _].
    rewrite kept_is_record in Hr. apply negb_true_iff in Hr. exact Hr.
  - apply find_filter_none. intros r Hr.
    rewrite kept_is_record in Hr. apply negb_true_iff in Hr. exact Hr.
Qed.

(** Writing a nameID in English with a Windows record. *)
Lemma set_en_windows_record k s mac g :
  WIN "en" = Some 0x409 ->
  getName (names (setMultilingualName WIN MAC SCRIPT enc k "en" s true mac g))
    k 3 1 (Some 0x409)
  = Some (makeName s k 3 1 0x409).
Proof.
  intros Hw.
  unfold setMultilingualName, delMultilingualName, addMultilingualName,
    _makeWindowsName.
  change (PyStr.lower "en") with "en". rewrite Hw.
  cbn [String.eqb Ascii.eqb Bool.eqb names with_names].
  assert (Hnone : forall ns k',
    List.find (is_record k 3 1 0x409)
      (List.filter k' (List.filter (kept (Some k) (Some 3) (Some 1) (Some 0x409)) ns))
    = None).
  { intros ns k'. rewrite filter_both. apply find_filter_none. intros r Hr.
    apply andb_true_iff in Hr. destruct Hr as [Hr _].
    rewrite kept_is_record in Hr. apply negb_true_iff in Hr. exact Hr. }
  destruct mac.
  - match goal with
    | |- context [_makeMacName MAC SCRIPT enc ?a ?b ?c ?d] =>
        destruct (_makeMacName_shape a b c d) as (t & p & e & l & ->)
    end.
    cbn [names with_names with_ltag]. rewrite !removeNames_filter, getName_find.
    rewrite <- app_assoc, find_app_none by apply Hnone.
    unfold is_record. cbn. rewrite !Z.eqb_refl. reflexivity.
  - cbn [names with_names]. rewrite !removeNames_filter, getName_find.
    rewrite <- (filter_true (List.filter _ (names g))).
    rewrite find_app_none by apply Hnone.
    unfold is_record. cbn. rewrite !Z.eqb_refl. reflexivity.
Qed.

Lemma name_frame_step (t : Z -> bool) k f g h :
  (forall n, t n = false -> (k =? n) = false) ->
  name_frame t f g -> name_frame (Z.eqb k) g h -> name_frame t f h.
Proof.
  intros Hk Hfg Hgh. eapply name_frame_trans; [exact Hfg|].
  eapply name_frame_weaken; [exact Hk | exact Hgh].
Qed.

Section WriteSteps.

Variable font_data : FontData.
Variables ignore shorten_weight shorten_width shorten_slope : list Z.
Variables isSuperFamily keep_regular old_full_font_name fixCFF : bool.

Lemma write_nameID_1_frame s f :
  name_frame (Z.eqb 1) f
    (fst (write_nameID_1 WIN MAC SCRIPT enc font_data ignore shorten_weight
            shorten_width shorten_slope s f)).
Proof.
  unfold write_nameID_1. destruct (negb (py_in 1 ignore)); cbn [fst].
  - apply setMultilingualName_frame.
  - apply name_frame_refl.
Qed.

Lemma write_nameID_2_frame s f :
  name_frame (Z.eqb 2) f (write_nameID_2 WIN MAC SCRIPT enc ignore s f).
Proof.
  unfold write_nameID_2. destruct (negb (py_in 2 ignore)).
  - apply setMultilingualName_frame.
  - apply name_frame_refl.
Qed.

Lemma write_nameID_3_frame s f :
  name_frame (Z.eqb 3) f
    (write_nameID_3 WIN MAC SCRIPT enc font_data ignore shorten_weight
       shorten_width shorten_slope s f).
Proof.
  unfold write_nameID_3. destruct (negb (py_in 3 ignore)).
  - eapply name_frame_trans; [apply setMultilingualName_frame|].
    apply delMultilingualName_frame.
  - apply name_frame_refl.
Qed.

Lemma write_nameID_4_frame s f :
  name_frame (Z.eqb 4) f
    (write_nameID_4 WIN MAC SCRIPT enc font_data ignore shorten_weight
       shorten_width shorten_slope isSuperFamily keep_regular
       old_full_font_name s f).
Proof.
  unfold write_nameID_4. destruct (negb (py_in 4 ignore)).
  - apply setMultilingualName_frame.
  - apply name_frame_refl.
Qed.

Lemma write_nameID_5_frame s f :
  name_frame (Z.eqb 5) f (write_nameID_5 WIN MAC SCRIPT enc ignore s f).
Proof.
  unfold write_nameID_5. destruct (negb (py_in 5 ignore)).
  - apply setMultilingualName_frame.
  - apply name_frame_refl.
Qed.

Lemma write_nameID_6_frame s f :
  name_frame (Z.eqb 6) f (fst (write_nameID_6 WIN MAC SCRIPT enc ignore s f)).
Proof.
  unfold write_nameID_6. destruct (negb (py_in 6 ignore)); cbn [fst].
  - apply setMultilingualName_frame.
  - apply name_frame_refl.
Qed.

Lemma write_nameID_16_frame f :
  name_frame (Z.eqb 16) f
    (write_nameID_16 WIN MAC SCRIPT enc font_data ignore shorten_weight
       shorten_width shorten_slope isSuperFamily f).
Proof.
  unfold write_nameID_16. destruct (negb (py_in 16 ignore)).
  - destruct (negb _).
    + eapply name_frame_trans; [apply setMultilingualName_frame|].
      apply delMultilingualName_frame.
    + apply delMultilingualName_frame.
  - apply name_frame_refl.
Qed.

Lemma write_nameID_17_frame f :
  name_frame (Z.eqb 17) f
    (write_nameID_17 WIN MAC SCRIPT enc font_data ignore shorten_weight
       shorten_width shorten_slope isSuperFamily keep_regular f).
Proof.
  unfold write_nameID_17. destruct (negb (py_in 17 ignore)).
  - destruct (negb _).
    + eapply name_frame_trans; [apply setMultilingualName_frame|].
      apply delMultilingualName_frame.
    + apply delMultilingualName_frame.
  - apply name_frame_refl.
Qed.

Lemma write_nameID_18_frame f :
  name_frame (Z.eqb 18) f
    (write_nameID_18 WIN MAC SCRIPT enc font_data ignore shorten_weight
       shorten_width shorten_slope isSuperFamily keep_regular f).
Proof.
  unfold write_nameID_18. destruct (negb (py_in 18 ignore)).
  - destruct (negb _).
    + apply setMultilingualName_frame.
    + apply delMultilingualName_frame.
  - apply name_frame_refl.
Qed.

Lemma write_CFF_names_keeps s f :
  let f' := write_CFF_names font_data fixCFF isSuperFamily keep_regular s f in
  names f' = names f /\ tblOS2 f' = tblOS2 f /\ tblHead f' = tblHead f.
Proof.
  unfold write_CFF_names. destruct (tblCFF f); [destruct fixCFF|];
    repeat split.
Qed.

End WriteSteps.

Section RecalcNamesFacts.

Variable str_round3 : Z * Z -> string.
Variable timestampToString : Z -> string.
Variable font_data : FontData.
Variables ignore shorten_weight shorten_width shorten_slope : list Z.
Variable fixCFF : bool.
Variable linked_styles : list Z.
Variables isSuperFamily alt_uid regular_italic keep_regular : bool.
Variables old_full_font_name oblique_not_italic : bool.

Local Abbreviation run :=
  (recalcNames WIN MAC SCRIPT enc str_round3 timestampToString font_data
     ignore shorten_weight shorten_width shorten_slope fixCFF linked_styles
     isSuperFamily alt_uid regular_italic keep_regular old_full_font_name
     oblique_not_italic).

(** The font is bold-linked: two linked styles, and its weight class is the
    larger one. *)
Definition heavier_linked_style (f : Font) : Prop :=
  exists a b, linked_styles = [a; b] /\ usWeightClass (tblOS2 f) = Z.max a b.

Lemma recalc_style_bits_result f :
  let '(f1, _, _) := recalc_style_bits font_data oblique_not_italic f in
  is_nth_bit_set (fsSelection (tblOS2 f1)) 5 = false
  /\ is_nth_bit_set (macStyle (tblHead f1)) 0 = false
  /\ usWeightClass (tblOS2 f1) = fd_usweightclass font_data
  /\ names f1 = names f.
Proof.
  unfold recalc_style_bits.
  set (f0 := if negb (fd_is_italic font_data =? 0)
             then setItalic (setRegular f) else setRegular f).
  assert (H0 : bold_bits_clear f f0).
  { subst f0. destruct (negb _).
    - apply setItalic_keeps_bold_clear, setRegular_bold_clear.
    - apply setRegular_bold_clear. }
  clearbody f0.
  destruct (negb (fd_is_oblique font_data =? 0)).
  - rewrite (surjective_pairing (setOblique f0)).
    assert (H1 : bold_bits_clear f (setItalic (fst (setOblique f0)))).
    { apply setItalic_keeps_bold_clear, setOblique_keeps_bold_clear, H0. }
    destruct oblique_not_italic; cbv beta iota zeta.
    + apply weight_width_bold_clear, unsetItalic_keeps_bold_clear, H1.
    + apply weight_width_bold_clear, H1.
  - cbv beta iota zeta.
    apply weight_width_bold_clear, unsetOblique_keeps_bold_clear, H0.
Qed.

Lemma recalc_linked_styles_result is_italic f1 :
  is_nth_bit_set (fsSelection (tblOS2 f1)) 5 = false ->
  is_nth_bit_set (macStyle (tblHead f1)) 0 = false ->
  usWeightClass (tblOS2 f1) = fd_usweightclass font_data ->
  let '(f2, _, s) :=
    recalc_linked_styles font_data linked_styles oblique_not_italic
      is_italic f1 in
  (s = "Regular" \/ s = "Italic" \/ s = "Bold" \/ s = "Bold Italic")
  /\ ((s = "Bold" \/ s = "Bold Italic") <-> heavier_linked_style f2)
  /\ (is_nth_bit_set (fsSelection (tblOS2 f2)) 5 = true
      <-> heavier_linked_style f2)
  /\ (is_nth_bit_set (macStyle (tblHead f2)) 0 = true
      <-> heavier_linked_style f2)
  /\ names f2 = names f1.
Proof.
  intros H5 H0 Hw. unfold recalc_linked_styles, heavier_linked_style.
  assert (Hsub0 : forall it,
    let s := subfamily_name_win0 font_data oblique_not_italic it in
    (s = "Regular" \/ s = "Italic" \/ s = "Bold" \/ s = "Bold Italic")
    /\ ~ (s = "Bold" \/ s = "Bold Italic")).
  { intros it. unfold subfamily_name_win0. destruct (_ || _); cbn.
    - split; [auto|]. intros [H|H]; discriminate.
    - split; [auto|]. intros [H|H]; discriminate. }
  assert (Hplain : forall P : Prop, ~ P ->
    (subfamily_name_win0 font_data oblique_not_italic is_italic = "Regular"
     \/ subfamily_name_win0 font_data oblique_not_italic is_italic = "Italic"
     \/ subfamily_name_win0 font_data oblique_not_italic is_italic = "Bold"
     \/ subfamily_name_win0 font_data oblique_not_italic is_italic = "Bold Italic")
    /\ ((subfamily_name_win0 font_data oblique_not_italic is_italic = "Bold"
         \/ subfamily_name_win0 font_data oblique_not_italic is_italic
            = "Bold Italic") <-> P)
    /\ (is_nth_bit_set (fsSelection (tblOS2 f1)) 5 = true <-> P)
    /\ (is_nth_bit_set (macStyle (tblHead f1)) 0 = true <-> P)
    /\ names f1 = names f1).
  { intros P HP. destruct (Hsub0 is_italic) as [Ha Hb].
    split; [exact Ha|]. split; [tauto|].
    rewrite H5, H0. repeat split; try tauto; intros; try discriminate. }
  destruct linked_styles as [|a [|b [|c l]]];
    try (apply Hplain; intros (a' & b' & Heq & _); discriminate).
  destruct (fd_usweightclass font_data =? Z.max a b) eqn:E.
  - assert (Hc : exists a0 b0 : Z,
               [a; b] = [a0; b0]
               /\ usWeightClass (tblOS2 (setBold f1)) = Z.max a0 b0).
    { exists a, b. split; [reflexivity|]. apply Z.eqb_eq in E.
      rewrite <- E, <- Hw. reflexivity. }
    split; [destruct is_italic; auto|].
    split; [split; [intros _; exact Hc | destruct is_italic; auto]|].
    split; [|split]; [| |reflexivity].
    + split; [intros _; exact Hc|intros _].
      change (fs_bold (style_bits_of (setBold f1)) = true).
      rewrite bits_setBold. reflexivity.
    + split; [intros _; exact Hc|intros _].
      change (mac_bold (style_bits_of (setBold f1)) = true).
      rewrite bits_setBold. reflexivity.
  - apply Hplain. intros (a' & b' & Heq & Hmax). injection Heq as <- <-.
    apply Z.eqb_neq in E. congruence.
Qed.

Lemma recalcNames_unfold f :
  fst (run f)
  = let '(f1, is_italic, _) := recalc_style_bits font_data oblique_not_italic f in
    let '(f2, family_name_win, subfamily_name_win) :=
      recalc_linked_styles font_data linked_styles oblique_not_italic
        is_italic f1 in
    let ps := postscript_name font_data ignore shorten_weight shorten_width
                shorten_slope isSuperFamily regular_italic keep_regular f2 in
    let uid := unique_id str_round3 timestampToString font_data ignore
                 shorten_weight shorten_width shorten_slope isSuperFamily
                 alt_uid regular_italic keep_regular f2 in
    let vs := version_string str_round3 f2 in
    let g1 := fst (write_nameID_1 WIN MAC SCRIPT enc font_data ignore
                     shorten_weight shorten_width shorten_slope
                     family_name_win f2) in
    let g2 := write_nameID_2 WIN MAC SCRIPT enc ignore subfamily_name_win g1 in
    let g3 := write_nameID_3 WIN MAC SCRIPT enc font_data ignore shorten_weight
                shorten_width shorten_slope uid g2 in
    let g4 := write_nameID_4 WIN MAC SCRIPT enc font_data ignore shorten_weight
                shorten_width shorten_slope isSuperFamily keep_regular
                old_full_font_name ps g3 in
    let g5 := write_nameID_5 WIN MAC SCRIPT enc ignore vs g4 in
    let g6 := fst (write_nameID_6 WIN MAC SCRIPT enc ignore ps g5) in
    let g16 := write_nameID_16 WIN MAC SCRIPT enc font_data ignore
                 shorten_weight shorten_width shorten_slope isSuperFamily g6 in
    let g17 := write_nameID_17 WIN MAC SCRIPT enc font_data ignore
                 shorten_weight shorten_width shorten_slope isSuperFamily
                 keep_regular g16 in
    let g18 := write_nameID_18 WIN MAC SCRIPT enc font_data ignore
                 shorten_weight shorten_width shorten_slope isSuperFamily
                 keep_regular g17 in
    write_CFF_names font_data fixCFF isSuperFamily keep_regular ps g18.
Proof.
  unfold recalcNames.
  destruct (recalc_style_bits _ _ _) as [[f1 it] out0].
  destruct (recalc_linked_styles _ _ _ _ _) as [[f2 fnw] sfw].
  destruct (write_nameID_1 _ _ _ _ _ _ _ _ _ _ _) as [g1 out1].
  cbn [fst].
  destruct (write_nameID_6 _ _ _ _ _ _ _) as [g6 out6].
  reflexivity.
Qed.

Ltac untouched :=
  let n := fresh "n" in let Hn := fresh "Hn" in
  intros n Hn; unfold py_in in Hn; cbn [existsb] in Hn;
  repeat (apply orb_false_iff in Hn; destruct Hn as [? Hn]);
  rewrite Z.eqb_sym; assumption.

Ltac frame_chain :=
  repeat first
    [ apply name_frame_refl
    | eapply name_frame_step;
      [ | | first [ apply write_nameID_18_frame | apply write_nameID_17_frame
                  | apply write_nameID_16_frame | apply write_nameID_6_frame
                  | apply write_nameID_5_frame | apply write_nameID_4_frame
                  | apply write_nameID_3_frame | apply write_nameID_2_frame
                  | apply write_nameID_1_frame ] ];
      [ first [ untouched | discriminate ] | ] ].

(** C4. With the English Windows language code in place and nameID 2 not
    ignored, the Windows subfamily record (2, 3, 1, 0x409) left by
    [recalcNames] reads Regular, Italic, Bold or Bold Italic; it reads Bold
    or Bold Italic exactly when there are two linked styles and the font's
    usWeightClass is the larger one, and the bold bits (fsSelection bit 5,
    macStyle bit 0) are set exactly in that case. *)
Theorem recalcNames_windows_subfamily (f : Font) :
  WIN "en" = Some 0x409 ->
  py_in 2 ignore = false ->
  let f' := fst (run f) in
  exists s,
    getName (names f') 2 3 1 (Some 0x409) = Some (makeName s 2 3 1 0x409)
    /\ (s = "Regular" \/ s = "Italic" \/ s = "Bold" \/ s = "Bold Italic")
    /\ ((s = "Bold" \/ s = "Bold Italic") <-> heavier_linked_style f')
    /\ (is_nth_bit_set (fsSelection (tblOS2 f')) 5 = true
        <-> heavier_linked_style f')
    /\ (is_nth_bit_set (macStyle (tblHead f')) 0 = true
        <-> heavier_linked_style f').
Proof.
  intros Hwin H2. cbv zeta. rewrite recalcNames_unfold.
  pose proof (recalc_style_bits_result f) as Hs.
  destruct (recalc_style_bits font_data oblique_not_italic f) as [[f1 it] o].
  destruct Hs as (H5 & H0 & Hw & _).
  pose proof (recalc_linked_styles_result it f1 H5 H0 Hw) as Hl.
  destruct (recalc_linked_styles _ _ _ _ _) as [[f2 fnw] sfw].
  destruct Hl as (Hfour & Hbold & Hb5 & Hb0 & _).
  cbv zeta.
  match goal with
  | |- context [write_CFF_names _ _ _ _ ?ps ?g] =>
      destruct (write_CFF_names_keeps font_data isSuperFamily keep_regular
                  fixCFF ps g) as (Hn & Ho & Hh);
      set (g18 := g) in *
  end.
  rewrite Hn, Ho, Hh. unfold heavier_linked_style in *. rewrite Ho.
  match goal with
  | _ := context [write_nameID_3 _ _ _ _ _ _ _ _ _ _ ?g] |- _ =>
      set (g2 := g) in *
  end.
  assert (Hall : name_frame (fun _ => true) f2 g18).
  { subst g18 g2. frame_chain. }
  assert (Htail : name_frame (fun n => py_in n [3; 4; 5; 6; 16; 17; 18]) g2 g18).
  { subst g18. frame_chain. }
  destruct Hall as (Ho2 & Hh2 & _). rewrite Ho2, Hh2.
  destruct Htail as (_ & _ & _ & _ & Hrec).
  exists sfw. split; [|tauto].
  rewrite getName_records_of, Hrec by reflexivity.
  rewrite <- getName_records_of. subst g2.
  unfold write_nameID_2. rewrite H2. cbn [negb].
  apply set_en_windows_record, Hwin.
Qed.

Local Abbreviation typographic_family :=
  (name_id_16 font_data shorten_weight shorten_width shorten_slope
     isSuperFamily).

Local Abbreviation typographic_subfamily :=
  (name_id_17 font_data shorten_weight shorten_width shorten_slope
     isSuperFamily keep_regular).

(** *** [recalcNames]: the style bits and classes it leaves *)

Ltac view_step V lemma :=
  let V' := fresh "V" in
  pose proof lemma as V';
  let H1 := fresh in let H2 := fresh in let H3 := fresh in
  let H4 := fresh in let H5 := fresh in let H6 := fresh in
  destruct (style_view_parts _ _ _ _ _ _ _ V) as (H1 & H2 & H3 & H4 & H5 & H6);
  rewrite ?H1, ?H2, ?H3, ?H4, ?H5, ?H6 in V';
  cbn [fs_bold mac_bold fs_italic mac_italic fs_regular andb negb] in V';
  clear H1 H2 H3 H4 H5 H6 V; rename V' into V.

Lemma recalc_style_bits_view f :
  let ob := negb (fd_is_oblique font_data =? 0) in
  let ib := if ob then negb oblique_not_italic
            else negb (fd_is_italic font_data =? 0) in
  style_view (recalc_style_bits font_data oblique_not_italic f).1.1
  = (mkStyleBits false false ib ib (negb ib), ob,
     (if ob then Z.max 4 (version (tblOS2 f)) else version (tblOS2 f)),
     fd_usweightclass font_data, fd_uswidthclass font_data, other_fields f).
Proof.
  unfold recalc_style_bits. cbv zeta.
  pose proof (view_setRegular f) as V.
  set (f0 := setRegular f) in *. clearbody f0.
  assert (V1 : exists g, (if negb (fd_is_italic font_data =? 0)
                          then setItalic f0 else f0) = g
               /\ style_view g
                  = (let i := negb (fd_is_italic font_data =? 0) in
                     mkStyleBits false false i i (negb i), isOblique f,
                     version (tblOS2 f), usWeightClass (tblOS2 f),
                     usWidthClass (tblOS2 f), other_fields f)).
  { eexists. split; [reflexivity|].
    destruct (negb (fd_is_italic font_data =? 0)).
    - view_step V (view_setItalic f0). exact V.
    - exact V. }
  destruct V1 as (g & -> & Vg). clear V f0.
  destruct (negb (fd_is_oblique font_data =? 0)).
  - rewrite (surjective_pairing (setOblique g)).
    view_step Vg (view_setOblique g).
    set (g1 := (setOblique g).1) in *. clearbody g1.
    view_step Vg (view_setItalic g1).
    set (g2 := setItalic g1) in *. clearbody g2.
    destruct oblique_not_italic; cbv beta iota zeta; cbn [fst negb].
    + view_step Vg (view_unsetItalic g2).
      set (g3 := unsetItalic g2) in *. clearbody g3.
      view_step Vg (view_setUsWeightClass g3 (fd_usweightclass font_data)).
      set (g4 := setUsWeightClass g3 _) in *. clearbody g4.
      view_step Vg (view_setUsWidthClass g4 (fd_uswidthclass font_data)).
      exact Vg.
    + view_step Vg (view_setUsWeightClass g2 (fd_usweightclass font_data)).
      set (g4 := setUsWeightClass g2 _) in *. clearbody g4.
      view_step Vg (view_setUsWidthClass g4 (fd_uswidthclass font_data)).
      exact Vg.
  - cbv beta iota zeta. cbn [fst].
    view_step Vg (view_unsetOblique g).
    set (g1 := unsetOblique g) in *. clearbody g1.
    view_step Vg (view_setUsWeightClass g1 (fd_usweightclass font_data)).
    set (g4 := setUsWeightClass g1 _) in *. clearbody g4.
    view_step Vg (view_setUsWidthClass g4 (fd_uswidthclass font_data)).
    exact Vg.
Qed.

Lemma recalc_linked_styles_font is_italic f1 :
  let f2 := (recalc_linked_styles font_data linked_styles oblique_not_italic
               is_italic f1).1.1 in
  f2 = setBold f1 \/ f2 = f1.
Proof.
  unfold recalc_linked_styles.
  destruct linked_styles as [|a [|b [|c l]]]; cbn; auto.
  destruct (_ =? Z.max a b); cbn; auto.
Qed.

Lemma write_CFF_names_tables s f :
  let f' := write_CFF_names font_data fixCFF isSuperFamily keep_regular s f in
  names f' = names f /\ ltag f' = ltag f /\ tblOS2 f' = tblOS2 f
  /\ tblHead f' = tblHead f /\ tblHhea f' = tblHhea f.
Proof.
  unfold write_CFF_names. destruct (tblCFF f); [destruct fixCFF|];
    repeat split.
Qed.

Lemma same_tables_view f g :
  tblOS2 g = tblOS2 f -> tblHead g = tblHead f ->
  style_bits_of g = style_bits_of f /\ isOblique g = isOblique f
  /\ isBold g = isBold f /\ isItalic g = isItalic f /\ isRegular g = isRegular f.
Proof.
  intros Ho Hh. unfold style_bits_of, isOblique, isBold, isItalic, isRegular.
  rewrite Ho, Hh. repeat split.
Qed.

(** The font after the style part of [recalcNames], and the tables the
    name-writing part leaves alone. *)
Lemma recalcNames_tables f :
  exists f1 is_italic f2,
    (recalc_style_bits font_data oblique_not_italic f).1.1 = f1
    /\ (recalc_style_bits font_data oblique_not_italic f).1.2 = is_italic
    /\ (recalc_linked_styles font_data linked_styles oblique_not_italic
          is_italic f1).1.1 = f2
    /\ tblOS2 (fst (run f)) = tblOS2 f2
    /\ tblHead (fst (run f)) = tblHead f2
    /\ tblHhea (fst (run f)) = tblHhea f2.
Proof.
  rewrite recalcNames_unfold.
  destruct (recalc_style_bits font_data oblique_not_italic f) as [[f1 it] o].
  destruct (recalc_linked_styles _ _ _ _ _) as [[f2 fnw] sfw] eqn:El.
  exists f1, it, f2. cbn [fst snd]. rewrite El. cbn [fst snd].
  split; [reflexivity|]. split; [reflexivity|]. split; [reflexivity|].
  cbv zeta.
  match goal with
  | |- context [write_CFF_names _ _ _ _ ?ps ?g] =>
      destruct (write_CFF_names_tables ps g) as (_ & _ & -> & -> & ->);
      set (g18 := g)
  end.
  assert (Hall : name_frame (fun _ => true) f2 g18).
  { subst g18. frame_chain. }
  destruct Hall as (-> & -> & -> & _). repeat split.
Qed.

(** X11. After [recalcNames] the style bits follow the row of the style
    matrix: the oblique bit is the row's [is_oblique]; the font is italic when
    the row is oblique, unless [oblique_not_italic], and otherwise when the
    row is italic; the regular bit is set exactly when the font is neither
    bold nor italic; usWeightClass and usWidthClass are those of the row; the
    OS/2 version is at least 4 when the row is oblique and unchanged
    otherwise. The vertical metrics, fsType, vendor ID, font revision,
    creation date, unitsPerEm and the hhea table are not touched. *)
Theorem recalcNames_style_bits (f : Font) :
  let f' := fst (run f) in
  let ob := negb (fd_is_oblique font_data =? 0) in
  regular_bit_consistent f'
  /\ isOblique f' = ob
  /\ isItalic f' = (if ob then negb oblique_not_italic
                    else negb (fd_is_italic font_data =? 0))
  /\ usWeightClass (tblOS2 f') = fd_usweightclass font_data
  /\ usWidthClass (tblOS2 f') = fd_uswidthclass font_data
  /\ version (tblOS2 f')
     = (if ob then Z.max 4 (version (tblOS2 f)) else version (tblOS2 f))
  /\ (fsType (tblOS2 f'), achVendID (tblOS2 f')) 
     = (fsType (tblOS2 f), achVendID (tblOS2 f))
  /\ (sTypoAscender (tblOS2 f'), sTypoDescender (tblOS2 f'),
      sTypoLineGap (tblOS2 f'), usWinAscent (tblOS2 f'), usWinDescent (tblOS2 f'))
     = (sTypoAscender (tblOS2 f), sTypoDescender (tblOS2 f),
        sTypoLineGap (tblOS2 f), usWinAscent (tblOS2 f), usWinDescent (tblOS2 f))
  /\ (fontRevision (tblHead f'), created (tblHead f'), unitsPerEm (tblHead f'))
     = (fontRevision (tblHead f), created (tblHead f), unitsPerEm (tblHead f))
  /\ tblHhea f' = tblHhea f.
Proof.
  cbv zeta.
  destruct (recalcNames_tables f) as (f1 & it & f2 & H1 & _ & H2 & Ho & Hh & Hhh).
  pose proof (recalc_style_bits_view f) as V. cbv zeta in V. rewrite H1 in V.
  assert (V2 : exists b5,
    style_view f2
    = (let ib := if negb (fd_is_oblique font_data =? 0)
                 then negb oblique_not_italic
                 else negb (fd_is_italic font_data =? 0) in
       mkStyleBits b5 b5 ib ib (negb b5 && negb ib),
       negb (fd_is_oblique font_data =? 0),
       (if negb (fd_is_oblique font_data =? 0)
        then Z.max 4 (version (tblOS2 f)) else version (tblOS2 f)),
       fd_usweightclass font_data, fd_uswidthclass font_data, other_fields f)).
  { destruct (recalc_linked_styles_font it f1) as [E|E]; cbv zeta in E;
      rewrite H2 in E; rewrite E.
    - exists true. view_step V (view_setBold f1). exact V.
    - exists false. exact V. }
  destruct V2 as (b5 & V2). cbv zeta in V2.
  destruct (style_view_parts _ _ _ _ _ _ _ V2) as (Hb & Hob & Hv & Hw & Hwd & Hrest).
  destruct (same_tables_view f2 (fst (run f)) Ho Hh) as (Sb & So & SB & SI & SR).
  unfold regular_bit_consistent. rewrite SB, SI, SR, So, Ho, Hh, Hhh.
  rewrite isRegular_bits, isBold_bits, isItalic_bits, Hb, Hob, Hv, Hw, Hwd.
  cbn [fs_bold mac_bold fs_italic mac_italic fs_regular].
  unfold other_fields in Hrest. injection Hrest as _ _ E1 E2 E3 E4 E5 E6 E7 E8 E9 E10 E11 _.
  rewrite E1, E2, E3, E4, E5, E6, E7, E8, E9, E10, E11.
  repeat split.
  - rewrite !andb_diag. reflexivity.
  - apply andb_diag.
Qed.

(** *** [recalcNames]: the records it writes *)

Local Abbreviation ps_of :=
  (postscript_name font_data ignore shorten_weight shorten_width shorten_slope
     isSuperFamily regular_italic keep_regular).

Local Abbreviation uid_of :=
  (unique_id str_round3 timestampToString font_data ignore shorten_weight
     shorten_width shorten_slope isSuperFamily alt_uid regular_italic
     keep_regular).

Local Abbreviation full_name :=
  (full_font_name font_data isSuperFamily keep_regular).

Local Abbreviation short n s :=
  (shorten font_data shorten_weight shorten_width shorten_slope n s).

Lemma other_fields_parts f g :
  other_fields g = other_fields f ->
  names g = names f /\ ltag g = ltag f
  /\ achVendID (tblOS2 g) = achVendID (tblOS2 f)
  /\ fontRevision (tblHead g) = fontRevision (tblHead f)
  /\ created (tblHead g) = created (tblHead f)
  /\ tblHhea g = tblHhea f /\ tblCFF g = tblCFF f.
Proof. unfold other_fields. intros [= -> -> _ -> _ _ _ _ _ -> -> _ -> ->]. repeat split. Qed.

Lemma derived_names_fields f g :
  other_fields g = other_fields f ->
  ps_of g = ps_of f /\ uid_of g = uid_of f
  /\ version_string str_round3 g = version_string str_round3 f.
Proof.
  intros H. apply other_fields_parts in H.
  destruct H as (Hn & _ & Hv & Hr & Hc & _ & _).
  unfold unique_id, version_string, font_revision, postscript_name.
  rewrite Hn, Hv, Hr, Hc. repeat split.
Qed.

(** The fonts between the steps of [recalcNames]: after the style part, and
    after each nameID was written. *)
Lemma recalcNames_stages f :
  exists f2 fnw sfw g1 g2 g3 g4 g5 g6 g16 g17 g18,
    other_fields f2 = other_fields f
    /\ g1 = fst (write_nameID_1 WIN MAC SCRIPT enc font_data ignore
                   shorten_weight shorten_width shorten_slope fnw f2)
    /\ g2 = write_nameID_2 WIN MAC SCRIPT enc ignore sfw g1
    /\ g3 = write_nameID_3 WIN MAC SCRIPT enc font_data ignore shorten_weight
              shorten_width shorten_slope (uid_of f) g2
    /\ g4 = write_nameID_4 WIN MAC SCRIPT enc font_data ignore shorten_weight
              shorten_width shorten_slope isSuperFamily keep_regular
              old_full_font_name (ps_of f) g3
    /\ g5 = write_nameID_5 WIN MAC SCRIPT enc ignore
              (version_string str_round3 f) g4
    /\ g6 = fst (write_nameID_6 WIN MAC SCRIPT enc ignore (ps_of f) g5)
    /\ g16 = write_nameID_16 WIN MAC SCRIPT enc font_data ignore shorten_weight
               shorten_width shorten_slope isSuperFamily g6
    /\ g17 = write_nameID_17 WIN MAC SCRIPT enc font_data ignore shorten_weight
               shorten_width shorten_slope isSuperFamily keep_regular g16
    /\ g18 = write_nameID_18 WIN MAC SCRIPT enc font_data ignore shorten_weight
               shorten_width shorten_slope isSuperFamily keep_regular g17
    /\ fst (run f)
       = write_CFF_names font_data fixCFF isSuperFamily keep_regular (ps_of f) g18.
Proof.
  rewrite recalcNames_unfold.
  pose proof (recalc_style_bits_view f) as V. cbv zeta in V.
  destruct (recalc_style_bits font_data oblique_not_italic f) as [[f1 it] o].
  cbn [fst] in V.
  pose proof (recalc_linked_styles_font it f1) as Hl. cbv zeta in Hl.
  destruct (recalc_linked_styles _ _ _ _ _) as [[f2 fnw] sfw]. cbn [fst] in Hl.
  assert (Hof : other_fields f2 = other_fields f).
  { destruct Hl as [-> | ->].
    - view_step V (view_setBold f1).
      apply style_view_parts in V. tauto.
    - apply style_view_parts in V. tauto. }
  destruct (derived_names_fields f f2 Hof) as (Hps & Huid & Hvs).
  cbv zeta. rewrite Hps, Huid, Hvs.
  do 12 eexists. split; [exact Hof|]. repeat split.
Qed.

Lemma records_of_step n k g g' :
  name_frame (Z.eqb k) g g' ->
  (py_in k ignore = true -> g' = g) ->
  (k =? n) = false \/ py_in n ignore = true ->
  records_of n (names g') = records_of n (names g).
Proof.
  intros (_ & _ & _ & _ & Hrec) Hig Hn.
  destruct (k =? n) eqn:E; [|apply Hrec, E].
  apply Z.eqb_eq in E. subst n. destruct Hn as [Hn|Hn]; [discriminate|].
  rewrite (Hig Hn). reflexivity.
Qed.

Ltac ignored_step :=
  let H := fresh in
  intros H;
  unfold write_nameID_1, write_nameID_2, write_nameID_3, write_nameID_4,
    write_nameID_5, write_nameID_6, write_nameID_16, write_nameID_17,
    write_nameID_18;
  rewrite H; reflexivity.

(** Each step with what it leaves alone. *)
Lemma recalcNames_frames f :
  exists f2 g1 g2 g3 g4 g5 g6 g16 g17 g18,
    other_fields f2 = other_fields f
    /\ names (fst (run f)) = names g18
    /\ forall n, 
        ((1 =? n) = false \/ py_in n ignore = true ->
         records_of n (names g1) = records_of n (names f2))
        /\ ((2 =? n) = false \/ py_in n ignore = true ->
            records_of n (names g2) = records_of n (names g1))
        /\ ((3 =? n) = false \/ py_in n ignore = true ->
            records_of n (names g3) = records_of n (names g2))
        /\ ((4 =? n) = false \/ py_in n ignore = true ->
            records_of n (names g4) = records_of n (names g3))
        /\ ((5 =? n) = false \/ py_in n ignore = true ->
            records_of n (names g5) = records_of n (names g4))
        /\ ((6 =? n) = false \/ py_in n ignore = true ->
            records_of n (names g6) = records_of n (names g5))
        /\ ((16 =? n) = false \/ py_in n ignore = true ->
            records_of n (names g16) = records_of n (names g6))
        /\ ((17 =? n) = false \/ py_in n ignore = true ->
            records_of n (names g17) = records_of n (names g16))
        /\ ((18 =? n) = false \/ py_in n ignore = true ->
            records_of n (names g18) = records_of n (names g17)).
Proof.
  destruct (recalcNames_stages f)
    as (f2 & fnw & sfw & g1 & g2 & g3 & g4 & g5 & g6 & g16 & g17 & g18
        & Hof & E1 & E2 & E3 & E4 & E5 & E6 & E16 & E17 & E18 & Erun).
  exists f2, g1, g2, g3, g4, g5, g6, g16, g17, g18.
  split; [exact Hof|]. split.
  { rewrite Erun. apply write_CFF_names_tables. }
  intros n. repeat split; apply records_of_step.
  - rewrite E1. apply write_nameID_1_frame.
  - rewrite E1. ignored_step.
  - rewrite E2. apply write_nameID_2_frame.
  - rewrite E2. ignored_step.
  - rewrite E3. apply write_nameID_3_frame.
  - rewrite E3. ignored_step.
  - rewrite E4. apply write_nameID_4_frame.
  - rewrite E4. ignored_step.
  - rewrite E5. apply write_nameID_5_frame.
  - rewrite E5. ignored_step.
  - rewrite E6. apply write_nameID_6_frame.
  - rewrite E6. ignored_step.
  - rewrite E16. apply write_nameID_16_frame.
  - rewrite E16. ignored_step.
  - rewrite E17. apply write_nameID_17_frame.
  - rewrite E17. ignored_step.
  - rewrite E18. apply write_nameID_18_frame.
  - rewrite E18. ignored_step.
Qed.

(** X12. [recalcNames] leaves the records of every nameID other than 1, 2,
    3, 4, 5, 6, 16, 17 and 18 exactly as they were, in their order, and also
    the records of each of these nameIDs that is in [namerecords_to_ignore]. *)
Theorem recalcNames_untouched_records (f : Font) (n : Z) :
  py_in n [1; 2; 3; 4; 5; 6; 16; 17; 18] = false \/ py_in n ignore = true ->
  records_of n (names (fst (run f))) = records_of n (names f).
Proof.
  intros Hn.
  destruct (recalcNames_frames f)
    as (f2 & g1 & g2 & g3 & g4 & g5 & g6 & g16 & g17 & g18 & Hof & -> & Hst).
  destruct (Hst n) as (S1 & S2 & S3 & S4 & S5 & S6 & S16 & S17 & S18).
  assert (Hk : forall k, py_in k [1; 2; 3; 4; 5; 6; 16; 17; 18] = true ->
                (k =? n) = false \/ py_in n ignore = true).
  { intros k Hk. destruct Hn as [Hn|Hn]; [left | right; exact Hn].
    apply Z.eqb_neq. intros ->. congruence. }
  rewrite S18, S17, S16, S6, S5, S4, S3, S2, S1 by (apply Hk; reflexivity).
  apply other_fields_parts in Hof. destruct Hof as (-> & _). reflexivity.
Qed.

(** X13. With the English Windows code in place and nameID 6 not ignored,
    the English Windows record of nameID 6 left by [recalcNames] holds the
    PostScript name built from the row, in which there is no space and no
    dot. With [fixCFF] and a CFF table, the CFF font name is this same name
    and the CFF full name, family name and weight are those of the row;
    without [fixCFF] the CFF table is left alone. *)
Theorem recalcNames_postscript_name (f : Font) :
  WIN "en" = Some 0x409 ->
  py_in 6 ignore = false ->
  let f' := fst (run f) in
  getName (names f') 6 3 1 (Some 0x409) = Some (makeName (ps_of f) 6 3 1 0x409)
  /\ (forall c, In c (list_ascii_of_string (ps_of f)) ->
                c <> " "%char /\ c <> "."%char)
  /\ (fixCFF = true -> forall c, tblCFF f = Some c ->
      tblCFF f' = Some (mkCFF [ps_of f] full_name
                          (family_name_ot font_data isSuperFamily)
                          (fd_weight font_data)))
  /\ (fixCFF = false -> tblCFF f' = tblCFF f).
Proof.
  intros Hwin H6. cbv zeta.
  destruct (recalcNames_stages f)
    as (f2 & fnw & sfw & g1 & g2 & g3 & g4 & g5 & g6 & g16 & g17 & g18
        & Hof & E1 & E2 & E3 & E4 & E5 & E6 & E16 & E17 & E18 & Erun).
  assert (Hcff : tblCFF g18 = tblCFF f).
  { assert (F : name_frame (fun _ => true) f2 g18).
    { rewrite E18, E17, E16, E6, E5, E4, E3, E2, E1. frame_chain. }
    destruct F as (_ & _ & _ & -> & _).
    apply other_fields_parts in Hof. tauto. }
  split; [|split; [|split]].
  - rewrite Erun.
    destruct (write_CFF_names_tables (ps_of f) g18) as (-> & _).
    assert (F : name_frame (fun n => py_in n [16; 17; 18]) g6 g18).
    { rewrite E18, E17, E16. frame_chain. }
    destruct F as (_ & _ & _ & _ & R).
    rewrite getName_records_of, R by reflexivity.
    rewrite <- getName_records_of, E6.
    unfold write_nameID_6. rewrite H6. cbn [negb fst].
    apply set_en_windows_record, Hwin.
  - intros c Hc. unfold postscript_name in Hc. rewrite H6 in Hc. cbn [negb] in Hc.
    apply (PyStr.replace_char_In "."%char) in Hc. destruct Hc as [Hdot Hc].
    apply (PyStr.replace_char_In " "%char) in Hc. destruct Hc as [Hsp _].
    auto.
  - intros -> c Hc. rewrite Erun. unfold write_CFF_names.
    rewrite Hcff, Hc. reflexivity.
  - intros ->. rewrite Erun, <- Hcff. unfold write_CFF_names.
    destruct (tblCFF g18) eqn:E; cbv iota; exact E.
Qed.

(** X14. With the English codes in place, after [recalcNames]: the English
    Windows record of nameID 3, when not ignored, holds the unique ID and
    there is no English Macintosh record of nameID 3; that of nameID 4 holds
    the full font name, or the PostScript name with [old_full_font_name];
    that of nameID 5 holds the version string of the revision in the head
    table. *)
Theorem recalcNames_windows_records (f : Font) :
  english_codes ->
  let f' := fst (run f) in
  (py_in 3 ignore = false ->
   getName (names f') 3 3 1 (Some 0x409)
   = Some (makeName (short 3 (uid_of f)) 3 3 1 0x409)
   /\ getName (names f') 3 1 0 (Some 0) = None)
  /\ (py_in 4 ignore = false ->
      getName (names f') 4 3 1 (Some 0x409)
      = Some (makeName (if old_full_font_name then ps_of f
                        else short 4 full_name) 4 3 1 0x409))
  /\ (py_in 5 ignore = false ->
      getName (names f') 5 3 1 (Some 0x409)
      = Some (makeName (version_string str_round3 f') 5 3 1 0x409)).
Proof.
  intros Hen. pose proof Hen as (Hwin & _). cbv zeta.
  destruct (recalcNames_stages f)
    as (f2 & fnw & sfw & g1 & g2 & g3 & g4 & g5 & g6 & g16 & g17 & g18
        & Hof & E1 & E2 & E3 & E4 & E5 & E6 & E16 & E17 & E18 & Erun).
  assert (Hvs : version_string str_round3 (fst (run f))
                = version_string str_round3 f).
  { unfold version_string, font_revision. rewrite Erun.
    destruct (write_CFF_names_tables (ps_of f) g18) as (_ & _ & _ & -> & _).
    assert (F : name_frame (fun _ => true) f2 g18).
    { rewrite E18, E17, E16, E6, E5, E4, E3, E2, E1. frame_chain. }
    destruct F as (_ & -> & _).
    apply other_fields_parts in Hof. destruct Hof as (_ & _ & _ & -> & _).
    reflexivity. }
  rewrite Hvs, Erun.
  destruct (write_CFF_names_tables (ps_of f) g18) as (-> & _).
  assert (F3 : name_frame (fun n => py_in n [4; 5; 6; 16; 17; 18]) g3 g18).
  { rewrite E18, E17, E16, E6, E5, E4. frame_chain. }
  assert (F4 : name_frame (fun n => py_in n [5; 6; 16; 17; 18]) g4 g18).
  { rewrite E18, E17, E16, E6, E5. frame_chain. }
  assert (F5 : name_frame (fun n => py_in n [6; 16; 17; 18]) g5 g18).
  { rewrite E18, E17, E16, E6. frame_chain. }
  destruct F3 as (_ & _ & _ & _ & R3).
  destruct F4 as (_ & _ & _ & _ & R4).
  destruct F5 as (_ & _ & _ & _ & R5).
  split; [|split].
  - intros H3.
    rewrite (getName_records_of (names g18) 3 3), (getName_records_of (names g18) 3 1).
    rewrite R3 by reflexivity. rewrite <- !getName_records_of, E3.
    unfold write_nameID_3. rewrite H3. cbn [negb].
    apply set_windows_only_en, Hen.
  - intros H4. rewrite getName_records_of, R4 by reflexivity.
    rewrite <- getName_records_of, E4.
    unfold write_nameID_4. rewrite H4. cbn [negb].
    apply set_en_windows_record, Hwin.
  - intros H5. rewrite getName_records_of, R5 by reflexivity.
    rewrite <- getName_records_of, E5.
    unfold write_nameID_5. rewrite H5. cbn [negb].
    apply set_en_windows_record, Hwin.
Qed.

(** *** [recalcNames]: the records in other languages *)

(** An English Windows record (3, 1, 0x409) or an English Macintosh record
    (1, 0, 0). *)
Definition is_english (r : NameRecord) : bool :=
  (platformID r =? 3) && (platEncID r =? 1) && (langID r =? 0x409)
  || (platformID r =? 1) && (platEncID r =? 0) && (langID r =? 0).

Lemma kept_not_english k p e l r :
  is_english r = false ->
  (p, e, l) = (3, 1, 0x409) \/ (p, e, l) = (1, 0, 0) ->
  kept (Some k) (Some p) (Some e) (Some l) r = true.
Proof.
  intros Hr Hp. rewrite kept_is_record. apply negb_true_iff.
  unfold is_record. unfold is_english in Hr.
  apply orb_false_iff in Hr. destruct Hr as [Hw Hm].
  destruct Hp as [[= -> -> ->]|[= -> -> ->]];
    destruct (nameID r =? k); cbn [andb]; auto.
Qed.

Lemma del_en_keeps k w m g r :
  english_codes -> In r (names g) -> is_english r = false ->
  In r (names (delMultilingualName WIN MAC SCRIPT (Some k) "en" w m g)).
Proof.
  intros (Hw & Hm & Hs) Hin Hr. unfold delMultilingualName.
  change (PyStr.lower "en") with "en". rewrite Hw, Hm, Hs.
  cbn [String.eqb Ascii.eqb Bool.eqb].
  destruct w, m; cbn [names with_names]; rewrite ?removeNames_filter;
    repeat (apply filter_In; split); try exact Hin;
    apply kept_not_english; auto.
Qed.

Lemma add_keeps language s k w m g r :
  In r (names g) ->
  In r (names (addMultilingualName WIN MAC SCRIPT enc language s k w m g)).
Proof.
  intros Hin. unfold addMultilingualName, _makeWindowsName.
  destruct w; [destruct (WIN _) as [lw|]|]; destruct m;
    try match goal with
      | |- context [_makeMacName MAC SCRIPT enc ?a ?b ?c ?d] =>
          destruct (_makeMacName_shape a b c d) as (t & p & e & l & ->)
      end;
    cbn [names with_names with_ltag]; rewrite ?in_app_iff; auto.
Qed.

Lemma set_en_keeps k s w m g r :
  english_codes -> In r (names g) -> is_english r = false ->
  In r (names (setMultilingualName WIN MAC SCRIPT enc k "en" s w m g)).
Proof.
  intros Hen Hin Hr. unfold setMultilingualName. apply add_keeps.
  destruct w, m; repeat apply del_en_keeps; assumption.
Qed.

Ltac keeps_step :=
  unfold write_nameID_1, write_nameID_2, write_nameID_3, write_nameID_4,
    write_nameID_5, write_nameID_6, write_nameID_16, write_nameID_17,
    write_nameID_18;
  repeat match goal with
    | |- context [if ?b then _ else _] => destruct b
    end;
  cbn [fst];
  repeat first [ assumption
               | apply del_en_keeps; [assumption| |assumption]
               | apply set_en_keeps; [assumption| |assumption] ].

(** C5, as amended. With the English language codes in place, after
    [recalcNames]: when nameID 16 is not ignored and the derived typographic
    family name differs from the Windows English nameID 1 record, the Windows
    English record (3, 1, 0x409) of nameID 16 holds that name and its
    Macintosh English record (1, 0, 0) is gone; when the two are equal both
    of these records are gone. The same holds for nameID 17 with the
    typographic subfamily name and nameID 2. The records of nameID 16 and 17
    in another language, or on another platform or encoding, are not
    deleted. *)
Theorem recalcNames_typographic_names (f : Font) :
  english_codes ->
  let f' := fst (run f) in
  (py_in 16 ignore = false ->
   if String.eqb typographic_family (str_getName (names f') 1 3 1 0x409)
   then getName (names f') 16 3 1 (Some 0x409) = None
        /\ getName (names f') 16 1 0 (Some 0) = None
   else getName (names f') 16 3 1 (Some 0x409)
        = Some (makeName typographic_family 16 3 1 0x409)
        /\ getName (names f') 16 1 0 (Some 0) = None)
  /\ (py_in 17 ignore = false ->
      if String.eqb typographic_subfamily (str_getName (names f') 2 3 1 0x409)
      then getName (names f') 17 3 1 (Some 0x409) = None
           /\ getName (names f') 17 1 0 (Some 0) = None
      else getName (names f') 17 3 1 (Some 0x409)
           = Some (makeName typographic_subfamily 17 3 1 0x409)
           /\ getName (names f') 17 1 0 (Some 0) = None)
  /\ (forall r, In r (names f) -> nameID r = 16 \/ nameID r = 17 ->
                is_english r = false -> In r (names f')).
Proof.
  intros Hen. cbv zeta. apply and_assoc. split.
  {
    rewrite recalcNames_unfold.
    destruct (recalc_style_bits font_data oblique_not_italic f) as [[f1 it] o].
    destruct (recalc_linked_styles _ _ _ _ _) as [[f2 fnw] sfw].
    cbv zeta.
    match goal with
    | |- context [write_CFF_names _ _ _ _ ?ps ?g] =>
        destruct (write_CFF_names_keeps font_data isSuperFamily keep_regular
                    fixCFF ps g) as (Hn & _ & _);
        set (g18 := g) in *
    end.
    rewrite Hn. clear Hn.
    match goal with
    | _ := write_nameID_18 _ _ _ _ _ _ _ _ _ _ _ ?g |- _ => set (g17 := g) in *
    end.
    match goal with
    | _ := write_nameID_17 _ _ _ _ _ _ _ _ _ _ _ ?g |- _ => set (g16 := g) in *
    end.
    match goal with
    | _ := write_nameID_16 _ _ _ _ _ _ _ _ _ _ ?g |- _ => set (g6 := g) in *
    end.
    assert (F6 : name_frame (fun n => py_in n [16; 17; 18]) g6 g18).
    { subst g18 g17 g16. frame_chain. }
    assert (F16 : name_frame (fun n => py_in n [17; 18]) g16 g18).
    { subst g18 g17. frame_chain. }
    assert (F17 : name_frame (fun n => py_in n [18]) g17 g18).
    { subst g18. frame_chain. }
    destruct F6 as (_ & _ & _ & _ & R6).
    destruct F16 as (_ & _ & _ & _ & R16).
    destruct F17 as (_ & _ & _ & _ & R17).
    split.
    - intros H16.
      rewrite (str_getName_records_of (names g6) (names g18)) by (apply R6; reflexivity).
      rewrite (getName_records_of (names g18) 16 3), (getName_records_of (names g18) 16 1).
      rewrite R16 by reflexivity. rewrite <- !getName_records_of.
      subst g16. unfold write_nameID_16. rewrite H16. cbn [negb].
      destruct (String.eqb _ _); cbn [negb].
      + apply del_both_en, Hen.
      + apply set_windows_only_en, Hen.
    - intros H17.
      rewrite (str_getName_records_of (names g16) (names g18)) by (apply R16; reflexivity).
      rewrite (getName_records_of (names g18) 17 3), (getName_records_of (names g18) 17 1).
      rewrite R17 by reflexivity. rewrite <- !getName_records_of.
      subst g17. unfold write_nameID_17. rewrite H17. cbn [negb].
      destruct (String.eqb _ _); cbn [negb].
      + apply del_both_en, Hen.
      + apply set_windows_only_en, Hen.
  }
  intros r Hin _ Hr.
  destruct (recalcNames_stages f)
    as (f2 & fnw & sfw & g1 & g2 & g3 & g4 & g5 & g6 & g16 & g17 & g18
        & Hof & E1 & E2 & E3 & E4 & E5 & E6 & E16 & E17 & E18 & Erun).
  rewrite Erun.
  destruct (write_CFF_names_tables (ps_of f) g18) as (-> & _).
  apply other_fields_parts in Hof. destruct Hof as (Hn & _).
  rewrite <- Hn in Hin.
  assert (H1 : In r (names g1)) by (rewrite E1; keeps_step).
  assert (H2 : In r (names g2)) by (rewrite E2; keeps_step).
  assert (H3 : In r (names g3)) by (rewrite E3; keeps_step).
  assert (H4 : In r (names g4)) by (rewrite E4; keeps_step).
  assert (H5 : In r (names g5)) by (rewrite E5; keeps_step).
  assert (H6 : In r (names g6)) by (rewrite E6; keeps_step).
  assert (H16 : In r (names g16)) by (rewrite E16; keeps_step).
  assert (H17 : In r (names g17)) by (rewrite E17; keeps_step).
  rewrite E18. keeps_step.
Qed.

(** X15. With the English codes in place, [recalcNames] removes no record in
    another language or on another platform: every record of the font that
    is neither an English Windows record (3, 1, 0x409) nor an English
    Macintosh record (1, 0, 0) is still in the name table afterwards. *)
Theorem recalcNames_keeps_other_languages (f : Font) (r : NameRecord) :
  english_codes ->
  In r (names f) -> is_english r = false ->
  In r (names (fst (run f))).
Proof.
  intros Hen Hin Hr.
  destruct (recalcNames_stages f)
    as (f2 & fnw & sfw & g1 & g2 & g3 & g4 & g5 & g6 & g16 & g17 & g18
        & Hof & E1 & E2 & E3 & E4 & E5 & E6 & E16 & E17 & E18 & Erun).
  rewrite Erun.
  destruct (write_CFF_names_tables (ps_of f) g18) as (-> & _).
  apply other_fields_parts in Hof. destruct Hof as (Hn & _).
  rewrite <- Hn in Hin.
  assert (H1 : In r (names g1)) by (rewrite E1; keeps_step).
  assert (H2 : In r (names g2)) by (rewrite E2; keeps_step).
  assert (H3 : In r (names g3)) by (rewrite E3; keeps_step).
  assert (H4 : In r (names g4)) by (rewrite E4; keeps_step).
  assert (H5 : In r (names g5)) by (rewrite E5; keeps_step).
  assert (H6 : In r (names g6)) by (rewrite E6; keeps_step).
  assert (H16 : In r (names g16)) by (rewrite E16; keeps_step).
  assert (H17 : In r (names g17)) by (rewrite E17; keeps_step).
  rewrite E18. keeps_step.
Qed.

End RecalcNamesFacts.

(** *** Writing one record, and [win2mac] *)

Lemma filter_filter_nil {A} (q p : A -> bool) (l : list A) :
  (forall r, q r = true -> p r = false) ->
  List.filter q (List.filter p l) = [].
Proof.
  intros H. induction l as [|x l IH]; [reflexivity|].
  cbn. destruct (p x) eqn:E; [|exact IH].
  cbn. destruct (q x) eqn:Eq; [|exact IH].
  rewrite (H x Eq) in E. discriminate.
Qed.

Lemma find_filter_head {A} (p : A -> bool) (l : list A) :
  List.find p l = List.hd_error (List.filter p l).
Proof.
  induction l as [|x l IH]; [reflexivity|].
  cbn. destruct (p x); [reflexivity | exact IH].
Qed.

Lemma is_record_records_of n p e l ns :
  List.filter (is_record n p e l) (records_of n ns)
  = List.filter (is_record n p e l) ns.
Proof.
  unfold records_of. rewrite filter_both. apply filter_ext. intros r.
  unfold is_record. destruct (nameID r =? n); reflexivity.
Qed.

(** The record of [_makeMacName] is a Macintosh or a Unicode record. *)
Lemma _makeMacName_platform name m language f :
  exists t p e l,
    _makeMacName MAC SCRIPT enc name m language f
    = (with_ltag f t, makeName name m p e l)
    /\ (p = 1 \/ p = 0).
Proof.
  unfold _makeMacName.
  destruct (MAC (PyStr.lower language)) as [lm|].
  - destruct (SCRIPT lm) as [sm|].
    + destruct (enc sm lm name).
      * exists (ltag f), 1, sm, lm. destruct f; auto.
      * destruct (addTag language (default [] (ltag f))) as [tags i].
        exists (Some tags), 0, 4, i. auto.
    + destruct (addTag language (default [] (ltag f))) as [tags i].
      exists (Some tags), 0, 4, i. auto.
  - destruct (addTag language (default [] (ltag f))) as [tags i].
    exists (Some tags), 0, 4, i. auto.
Qed.

(** [delMultilingualName] only removes records, all of the nameID, among
    them the records of the language on the platforms it was called for. *)
Lemma delMultilingualName_removes n language windows mac f :
  exists P,
    delMultilingualName WIN MAC SCRIPT (Some n) language windows mac f
    = with_names f (List.filter P (names f))
    /\ (forall r, P r = false -> nameID r = n)
    /\ (windows = true -> forall lid, WIN (PyStr.lower language) = Some lid ->
        forall r, is_record n 3 1 lid r = true -> P r = false)
    /\ (mac = true -> forall l s, MAC (PyStr.lower language) = Some l ->
        SCRIPT l = Some s ->
        forall r, is_record n 1 s l r = true -> P r = false).
Proof.
  unfold delMultilingualName. destruct (String.eqb language "ALL").
  - exists (fun r => negb (nameID r =? n)).
    split; [apply remove_all_languages_names|].
    split; [intros r Hr; apply negb_false_iff, Z.eqb_eq in Hr; exact Hr|].
    split.
    + intros _ lid _ r Hr. unfold is_record in Hr.
      rewrite !andb_true_iff in Hr. destruct Hr as [[[Hr _] _] _].
      rewrite Hr. reflexivity.
    + intros _ l s _ _ r Hr. unfold is_record in Hr.
      rewrite !andb_true_iff in Hr. destruct Hr as [[[Hr _] _] _].
      rewrite Hr. reflexivity.
  - exists (fun r =>
      (if windows
       then kept (Some n) (Some 3) (Some 1) (WIN (PyStr.lower language)) r
       else true)
      && (if mac
          then kept (Some n) (Some 1)
                 (match MAC (PyStr.lower language) with
                  | Some l => SCRIPT l | None => None end)
                 (MAC (PyStr.lower language)) r
          else true)).
    split; [|split; [|split]].
    + destruct windows, mac; cbn [names with_names];
        rewrite ?removeNames_filter; unfold with_names; cbn.
      * rewrite filter_both. reflexivity.
      * f_equal. apply filter_ext. intros r. rewrite andb_true_r. reflexivity.
      * reflexivity.
      * rewrite filter_true. destruct f; reflexivity.
    + intros r Hr. unfold kept in Hr. cbn [arg_differs] in Hr.
      destruct (n =? nameID r) eqn:E; [apply Z.eqb_eq in E; auto|].
      cbn in Hr. destruct windows, mac; discriminate.
    + intros -> lid Hl r Hr. rewrite Hl, kept_is_record, Hr. reflexivity.
    + intros -> l s Hl Hs r Hr. rewrite Hl, Hs, kept_is_record, Hr.
      apply andb_false_r.
Qed.

(** X16. When the language has a Windows code, after [setMultilingualName]
    with [windows] set the name table holds exactly one Windows record
    (3, 1) of that nameID and language, with the text given, whatever records
    of these IDs it held before, and [getName] finds it; this holds also when
    the Macintosh record falls back to the Unicode platform. The records of
    the other nameIDs and the OS/2, head, hhea and CFF tables are as before,
    and so is the ltag table when no Macintosh record is asked for. *)
Theorem setMultilingualName_writes_one_record
  (n : Z) (language str : string) (mac : bool) (f : Font) (lid : Z) :
  WIN (PyStr.lower language) = Some lid ->
  let f' := setMultilingualName WIN MAC SCRIPT enc n language str true mac f in
  List.filter (is_record n 3 1 lid) (names f') = [makeName str n 3 1 lid]
  /\ getName (names f') n 3 1 (Some lid) = Some (makeName str n 3 1 lid)
  /\ (forall m, m <> n -> records_of m (names f') = records_of m (names f))
  /\ tblOS2 f' = tblOS2 f /\ tblHead f' = tblHead f
  /\ tblHhea f' = tblHhea f /\ tblCFF f' = tblCFF f
  /\ (mac = false -> ltag f' = ltag f).
Proof.
  intros Hw f'.
  assert (Hone : List.filter (is_record n 3 1 lid) (names f')
                 = [makeName str n 3 1 lid]).
  { subst f'. unfold setMultilingualName.
    destruct (delMultilingualName_removes n language true false f)
      as (P1 & -> & _ & Hwin & _).
    specialize (Hwin eq_refl lid Hw).
    set (g1 := with_names f (List.filter P1 (names f))).
    assert (Hg1 : List.filter (is_record n 3 1 lid) (names g1) = [])
      by (apply filter_filter_nil; exact Hwin).
    assert (Hg2 : forall g2, (exists P2, g2 = with_names g1 (List.filter P2 (names g1))) ->
              List.filter (is_record n 3 1 lid)
                (names (addMultilingualName WIN MAC SCRIPT enc language str n
                          true mac g2))
              = [makeName str n 3 1 lid]).
    { intros g2 [P2 ->]. unfold addMultilingualName, _makeWindowsName.
      rewrite Hw. cbn [names with_names].
      assert (Hnil : List.filter (is_record n 3 1 lid)
                       (List.filter P2 (names g1)) = []).
      { rewrite filter_comm, Hg1. reflexivity. }
      assert (Hself : is_record n 3 1 lid (makeName str n 3 1 lid) = true)
        by (unfold is_record; cbn; rewrite !Z.eqb_refl; reflexivity).
      destruct mac.
      - match goal with
        | |- context [_makeMacName MAC SCRIPT enc ?a ?b ?c ?d] =>
            destruct (_makeMacName_platform a b c d) as (t & p & e & l & Hm & Hp)
        end.
        rewrite Hm. cbn [names with_names with_ltag].
        rewrite !List.filter_app, Hnil. cbn [List.filter app].
        rewrite Hself.
        replace (is_record n 3 1 lid (makeName str n p e l)) with false;
          [reflexivity|].
        unfold is_record. cbn. destruct Hp as [-> | ->];
          rewrite ?andb_false_r; reflexivity.
      - cbn [names with_names]. rewrite List.filter_app, Hnil.
        cbn [List.filter app]. rewrite Hself. reflexivity. }
    destruct mac.
    - apply Hg2.
      destruct (delMultilingualName_removes n language false true g1)
        as (P2 & -> & _). exists P2. reflexivity.
    - apply Hg2. exists (fun _ => true). rewrite filter_true, with_names_id.
      reflexivity. }
  split; [exact Hone|]. split.
  - rewrite getName_find, find_filter_head, Hone. reflexivity.
  - destruct (setMultilingualName_frame n language str true mac f)
      as (Ho & Hh & Hhh & Hc & Hrec).
    split; [intros m Hm; apply Hrec; apply Z.eqb_neq; lia|].
    repeat (split; [assumption|]).
    intros ->. subst f'. unfold setMultilingualName.
    destruct (delMultilingualName_removes n language true false f)
      as (P1 & -> & _).
    unfold addMultilingualName, _makeWindowsName. rewrite Hw. reflexivity.
Qed.

(** The text of the last Windows record of a nameID. *)
Fixpoint last_windows_text (n : Z) (ns : list NameRecord) : option string :=
  match ns with
  | [] => None
  | r :: ns' =>
      match last_windows_text n ns' with
      | Some s => Some s
      | None => if (platformID r =? 3) && (nameID r =? n)
                then Some (string_of r) else None
      end
  end.

(** An English Macintosh record: platform 1, Roman script, language 0. *)
Definition is_mac_english (r : NameRecord) : bool :=
  (platformID r =? 1) && (platEncID r =? 0) && (langID r =? 0).

Lemma set_mac_english_names k s g :
  MAC "en" = Some 0 -> SCRIPT 0 = Some 0 -> enc 0 0 s = true ->
  names (setMultilingualName WIN MAC SCRIPT enc k "en" s false true g)
  = (List.filter (fun r => negb (is_record k 1 0 0 r)) (names g)
     ++ [makeName s k 1 0 0])%list.
Proof.
  intros Hm Hs He.
  rewrite (setMultilingualName_shape WIN MAC SCRIPT enc).
  - cbn [names with_names]. unfold written, survives.
    change (PyStr.lower "en") with "en". rewrite Hm, Hs.
    cbn [String.eqb Ascii.eqb Bool.eqb app andb]. f_equal.
    apply filter_ext. intros r. apply kept_is_record.
  - split; [discriminate|]. intros _. exists 0, 0.
    change (PyStr.lower "en") with "en". auto.
Qed.

Lemma win2mac_loop (l : list NameRecord) (g : Font) :
  MAC "en" = Some 0 -> SCRIPT 0 = Some 0 ->
  (forall r, In r l -> platformID r = 3 -> enc 0 0 (string_of r) = true) ->
  let g' := fold_left (fun f name =>
              if platformID name =? 3
              then setMultilingualName WIN MAC SCRIPT enc (nameID name) "en"
                     (string_of name) false true f
              else f) l g in
  List.filter (fun r => negb (is_mac_english r)) (names g')
  = List.filter (fun r => negb (is_mac_english r)) (names g)
  /\ (forall n,
        match last_windows_text n l with
        | Some s => List.filter (is_record n 1 0 0) (names g')
                    = [makeName s n 1 0 0]
        | None => records_of n (names g') = records_of n (names g)
        end)
  /\ tblOS2 g' = tblOS2 g /\ tblHead g' = tblHead g
  /\ tblHhea g' = tblHhea g /\ tblCFF g' = tblCFF g /\ ltag g' = ltag g.
Proof.
  intros Hm Hs. revert g. induction l as [|r l IH]; intros g Henc.
  - cbn. repeat split.
  - cbn [fold_left]. cbv zeta.
    set (g1 := if platformID r =? 3
               then setMultilingualName WIN MAC SCRIPT enc (nameID r) "en"
                      (string_of r) false true g
               else g).
    specialize (IH g1 (fun x Hx => Henc x (or_intror Hx))).
    cbv zeta in IH. destruct IH as (Ha & Hb & Ho & Hh & Hhh & Hc & Hl).
    assert (Hstep : (platformID r =? 3) = true ->
              names g1 = (List.filter (fun x => negb (is_record (nameID r) 1 0 0 x))
                            (names g) ++ [makeName (string_of r) (nameID r) 1 0 0])%list
              /\ ltag g1 = ltag g).
    { intros E. subst g1. rewrite E. split.
      - apply set_mac_english_names; auto.
        apply Henc; [left; reflexivity | apply Z.eqb_eq, E].
      - unfold setMultilingualName, delMultilingualName, addMultilingualName,
          _makeMacName.
        change (PyStr.lower "en") with "en". rewrite Hm, Hs.
        rewrite (Henc r (or_introl eq_refl)) by (apply Z.eqb_eq, E).
        reflexivity. }
    assert (Hframe : name_frame (Z.eqb (nameID r)) g g1).
    { subst g1. destruct (platformID r =? 3).
      - apply setMultilingualName_frame.
      - apply name_frame_refl. }
    destruct Hframe as (Fo & Fh & Fhh & Fc & Frec).
    split; [|split].
    + rewrite Ha. destruct (platformID r =? 3) eqn:E.
      * destruct (Hstep eq_refl) as [-> _].
        rewrite List.filter_app. cbn [List.filter]. unfold is_mac_english at 2.
        cbn. rewrite app_nil_r, filter_both. apply filter_ext_in. intros x _.
        unfold is_record, is_mac_english.
        destruct (nameID x =? nameID r), (platformID x =? 1),
          (platEncID x =? 0), (langID x =? 0); reflexivity.
      * subst g1. reflexivity.
    + intros n. specialize (Hb n). cbn [last_windows_text].
      destruct (last_windows_text n l) as [s|]; [exact Hb|].
      destruct ((platformID r =? 3) && (nameID r =? n)) eqn:E.
      * apply andb_true_iff in E. destruct E as [E3 En].
        apply Z.eqb_eq in En. subst n.
        rewrite <- is_record_records_of, Hb, is_record_records_of.
        destruct (Hstep E3) as [-> _].
        rewrite List.filter_app. cbn [List.filter].
        rewrite filter_filter_nil
          by (intros x Hx; rewrite Hx; reflexivity).
        unfold is_record. cbn. rewrite Z.eqb_refl. reflexivity.
      * rewrite Hb.
        destruct (platformID r =? 3) eqn:E3; cbn in E.
        -- apply Frec. exact E.
        -- subst g1. reflexivity.
    + repeat split; try congruence.
      rewrite Hl. destruct (platformID r =? 3) eqn:E.
      * apply Hstep. reflexivity.
      * subst g1. reflexivity.
Qed.

(** X17. With the English Macintosh codes in place and Windows texts that the
    Roman encoding takes, [win2mac] first drops the records without text and
    then, for every nameID that has a Windows record, leaves exactly one
    English Macintosh record (1, 0, 0), whose text is that of the last Windows
    record of the nameID, whatever the language of that record. All records
    that are not English Macintosh records stay as they were, in their order,
    and so do the English Macintosh records of nameIDs without a Windows
    record. *)
Theorem win2mac_spec (f : Font) :
  MAC "en" = Some 0 -> SCRIPT 0 = Some 0 ->
  (forall r, In r (names f) -> platformID r = 3 ->
             enc 0 0 (string_of r) = true) ->
  let f0 := removeEmptyNames f in
  let f' := win2mac WIN MAC SCRIPT enc f in
  List.filter (fun r => negb (is_mac_english r)) (names f')
  = List.filter (fun r => negb (is_mac_english r)) (names f0)
  /\ (forall n,
        match last_windows_text n (names f0) with
        | Some s => List.filter (is_record n 1 0 0) (names f')
                    = [makeName s n 1 0 0]
                    /\ getName (names f') n 1 0 (Some 0)
                       = Some (makeName s n 1 0 0)
        | None => records_of n (names f') = records_of n (names f0)
        end)
  /\ tblOS2 f' = tblOS2 f /\ tblHead f' = tblHead f
  /\ tblHhea f' = tblHhea f /\ tblCFF f' = tblCFF f /\ ltag f' = ltag f.
Proof.
  intros Hm Hs Henc f0 f'.
  assert (Henc0 : forall r, In r (names f0) -> platformID r = 3 ->
                            enc 0 0 (string_of r) = true).
  { intros r Hr. apply Henc. subst f0.
    rewrite removeEmptyNames_names in Hr. cbn [names with_names] in Hr.
    apply filter_In in Hr. tauto. }
  destruct (win2mac_loop (names f0) f0 Hm Hs Henc0)
    as (Ha & Hb & Ho & Hh & Hhh & Hc & Hl).
  assert (Hf0 : tblOS2 f0 = tblOS2 f /\ tblHead f0 = tblHead f
                /\ tblHhea f0 = tblHhea f /\ tblCFF f0 = tblCFF f
                /\ ltag f0 = ltag f).
  { subst f0. rewrite removeEmptyNames_names. repeat split. }
  destruct Hf0 as (Ho0 & Hh0 & Hhh0 & Hc0 & Hl0).
  split; [exact Ha|]. split.
  - intros n. specialize (Hb n).
    destruct (last_windows_text n (names f0)) as [s|]; [|exact Hb].
    split; [exact Hb|].
    rewrite getName_find, find_filter_head.
    unfold f', win2mac. cbv zeta. fold f0. rewrite Hb. reflexivity.
  - unfold f', win2mac. cbv zeta. fold f0. repeat split; congruence.
Qed.

End NameSteps.

(** A sample row and font for [recalcNames]: a bold italic condensed style
    whose weight class 700 is the larger of the linked styles 400 and 700. *)
Definition font_data_sample : FontData :=
  mkFontData 1 0 3 "Cnd" "Condensed" 700 "Bd" "Bold" "It" "Italic" "Foo Sans".

Definition font_sample : Font :=
  mkFont [makeName "Old" 1 3 1 0x409; makeName "Old16" 16 1 0 0;
          makeName "ACME" 8 3 1 0x409]
    None
    (mkOS2 3 64 0 400 5 "AC  " 800 (-200) 90 900 201)
    (mkHead 0 (1, 1) 0 1000)
    (mkHhea 900 (-201) 90)
    None.

(** The revision of the sample font is 1.0 and it was created in 2015. *)
Definition revision_text_sample (r : Z * Z) : string := "1.0".
Definition timestamp_text_sample (t : Z) : string := "Thu Jan  1 00:00:00 2015".

Definition recalcNames_sample (ignore : list Z) (isSuperFamily : bool) : Font :=
  fst (recalcNames windows_codes_excerpt mac_codes_excerpt mac_script_excerpt
         ascii_text revision_text_sample timestamp_text_sample
         font_data_sample ignore [6] [6] [6] false [400; 700] isSuperFamily
         false false false false false font_sample).

Example recalcNames_sample_subfamily :
  str_getName (names (recalcNames_sample [] false)) 2 3 1 0x409 = "Bold Italic"
  /\ str_getName (names (recalcNames_sample [] false)) 6 3 1 0x409
     = "FooSansCnd-BdIt"
  /\ str_getName (names (recalcNames_sample [] false)) 3 3 1 0x409
     = "1.000;AC  ;FooSansCnd-BdIt".
Proof. repeat split; vm_compute; reflexivity. Qed.

Lemma recalcNames_windows_subfamily_witness :
  windows_codes_excerpt "en" = Some 0x409
  /\ py_in 2 [] = false
  /\ exists s,
       getName (names (recalcNames_sample [] false)) 2 3 1 (Some 0x409)
       = Some (makeName s 2 3 1 0x409)
       /\ (s = "Regular" \/ s = "Italic" \/ s = "Bold" \/ s = "Bold Italic").
Proof.
  split; [reflexivity|]. split; [reflexivity|].
  destruct (recalcNames_windows_subfamily windows_codes_excerpt
              mac_codes_excerpt mac_script_excerpt ascii_text
              revision_text_sample timestamp_text_sample font_data_sample
              [] [6] [6] [6] false [400; 700] false false false false false
              false font_sample eq_refl eq_refl) as (s & H1 & H2 & _).
  exists s. split; assumption.
Defined.

Lemma recalcNames_typographic_names_witness :
  english_codes windows_codes_excerpt mac_codes_excerpt mac_script_excerpt
  /\ py_in 16 [] = false
  /\ getName (names (recalcNames_sample [] true)) 16 1 0 (Some 0) = None.
Proof.
  assert (Hen : english_codes windows_codes_excerpt mac_codes_excerpt
                  mac_script_excerpt) by (repeat split).
  split; [exact Hen|]. split; [reflexivity|].
  destruct (recalcNames_typographic_names windows_codes_excerpt
              mac_codes_excerpt mac_script_excerpt ascii_text
              revision_text_sample timestamp_text_sample font_data_sample
              [] [6] [6] [6] false [400; 700] true false false false false
              false font_sample Hen) as (H16 & _).
  specialize (H16 eq_refl).
  destruct (String.eqb _ _); destruct H16 as (_ & H); exact H.
Defined.

(** The sample font with French records of nameID 16 on both platforms. *)
Definition font_sample_french_16 : Font :=
  with_names font_sample
    (names font_sample ++ [makeName "Foo Sans" 16 1 0 1;
                           makeName "Foo Sans" 16 3 1 0x40C])%list.

Definition recalcNames_sample_french_16 (isSuperFamily : bool) : Font :=
  fst (recalcNames windows_codes_excerpt mac_codes_excerpt mac_script_excerpt
         ascii_text revision_text_sample timestamp_text_sample
         font_data_sample [] [6] [6] [6] false [400; 700] isSuperFamily
         false false false false false font_sample_french_16).

(** C5 as stated fails on a font with records of nameID 16 in another
    language. When the typographic family name equals the nameID 1 record,
    the French records of nameID 16 are still there on both platforms; when
    it differs, the French Macintosh record is still there. *)
Lemma recalcNames_keeps_french_typographic_names :
  py_in 16 [] = false
  /\ (String.eqb (name_id_16 font_data_sample [6] [6] [6] false)
        (str_getName (names (recalcNames_sample_french_16 false)) 1 3 1 0x409)
      = true
      /\ getName (names (recalcNames_sample_french_16 false)) 16 1 0 (Some 1)
         = Some (makeName "Foo Sans" 16 1 0 1)
      /\ getName (names (recalcNames_sample_french_16 false)) 16 3 1 (Some 0x40C)
         = Some (makeName "Foo Sans" 16 3 1 0x40C))
  /\ (String.eqb (name_id_16 font_data_sample [6] [6] [6] true)
        (str_getName (names (recalcNames_sample_french_16 true)) 1 3 1 0x409)
      = false
      /\ getName (names (recalcNames_sample_french_16 true)) 16 3 1 (Some 0x409)
         = Some (makeName "Foo Sans" 16 3 1 0x409)
      /\ getName (names (recalcNames_sample_french_16 true)) 16 1 0 (Some 1)
         = Some (makeName "Foo Sans" 16 1 0 1)).
Proof. repeat split; vm_compute; reflexivity. Qed.

Example recalcNames_sample_typographic :
  getName (names (recalcNames_sample [] true)) 16 3 1 (Some 0x409)
  = Some (makeName "Foo Sans" 16 3 1 0x409)
  /\ getName (names (recalcNames_sample [] true)) 17 3 1 (Some 0x409)
     = Some (makeName "Condensed Bold Italic" 17 3 1 0x409)
  /\ getName (names (recalcNames_sample [] false)) 16 3 1 (Some 0x409) = None
  /\ getName (names (recalcNames_sample [1] false)) 16 3 1 (Some 0x409)
     = Some (makeName "Foo Sans Condensed" 16 3 1 0x409)
  /\ getName (names (recalcNames_sample [1] false)) 16 1 0 (Some 0) = None.
Proof. repeat split; vm_compute; reflexivity. Qed.
(** *** [modifyLinegapPercent]: the typographic metrics and the rest of the
    font *)

Definition typo_span (f : Font) : Z :=
  sTypoAscender (tblOS2 f) - sTypoDescender (tblOS2 f).

(** X18. Whenever [modifyLinegapPercent] completes, it has changed nothing
    but the eight vertical metrics. With no typographic line gap and a
    typographic span above unitsPerEm (the Google approach) the typographic
    ascender and descender move by the same amounts as the hhea ascent and
    descent and the typographic line gap stays 0; with a typographic span of
    exactly unitsPerEm (the Adobe approach) the three typographic values stay
    as they are; in both, ascent and descent grow by the same amount.
    Otherwise the typographic ascender and descender stay, the typographic
    line gap becomes the line spacing units and the hhea ascent is the
    typographic ascender plus half of that line gap, truncated. *)
Theorem modifyLinegapPercent_typo_metrics (f : Font) (percent : Z) (f' : Font) :
  modifyLinegapPercent f percent = Some f' ->
  (names f' = names f /\ ltag f' = ltag f /\ tblHead f' = tblHead f
   /\ tblCFF f' = tblCFF f
   /\ (version (tblOS2 f'), fsSelection (tblOS2 f'), fsType (tblOS2 f'),
       usWeightClass (tblOS2 f'), usWidthClass (tblOS2 f'), achVendID (tblOS2 f'))
      = (version (tblOS2 f), fsSelection (tblOS2 f), fsType (tblOS2 f),
         usWeightClass (tblOS2 f), usWidthClass (tblOS2 f), achVendID (tblOS2 f)))
  /\ (sTypoLineGap (tblOS2 f) = 0 -> unitsPerEm (tblHead f) < typo_span f ->
      sTypoLineGap (tblOS2 f') = 0
      /\ sTypoAscender (tblOS2 f') - sTypoAscender (tblOS2 f)
         = ascent (tblHhea f') - ascent (tblHhea f)
      /\ sTypoDescender (tblOS2 f') - sTypoDescender (tblOS2 f)
         = descent (tblHhea f') - descent (tblHhea f)
      /\ ascent (tblHhea f') - ascent (tblHhea f)
         = descent (tblHhea f) - descent (tblHhea f'))
  /\ (sTypoLineGap (tblOS2 f) = 0 -> typo_span f = unitsPerEm (tblHead f) ->
      sTypoLineGap (tblOS2 f') = 0
      /\ sTypoAscender (tblOS2 f') = sTypoAscender (tblOS2 f)
      /\ sTypoDescender (tblOS2 f') = sTypoDescender (tblOS2 f)
      /\ ascent (tblHhea f') - ascent (tblHhea f)
         = descent (tblHhea f) - descent (tblHhea f'))
  /\ (sTypoLineGap (tblOS2 f) <> 0 \/ typo_span f < unitsPerEm (tblHead f) ->
      sTypoAscender (tblOS2 f') = sTypoAscender (tblOS2 f)
      /\ sTypoDescender (tblOS2 f') = sTypoDescender (tblOS2 f)
      /\ line_spacing_units percent (unitsPerEm (tblHead f))
         = Some (sTypoLineGap (tblOS2 f'))
      /\ ascent_with_half_linegap (sTypoAscender (tblOS2 f))
           (sTypoLineGap (tblOS2 f'))
         = Some (ascent (tblHhea f'))).
Proof.
  unfold modifyLinegapPercent, typo_span. intros H.
  destruct (line_spacing_units percent (unitsPerEm (tblHead f))) as [lsu|];
    [|discriminate].
  destruct (upper_lower_add_units _) as [u|]; [|discriminate].
  destruct (sTypoLineGap (tblOS2 f) =? 0) eqn:Hg; cbn [andb] in H.
  - apply Z.eqb_eq in Hg.
    destruct (unitsPerEm (tblHead f) <? _) eqn:Hgoogle.
    + apply Z.ltb_lt in Hgoogle. injection H as <-. cbn.
      split; [repeat split|]. split; [|split].
      * intros _ _. repeat split; lia.
      * intros _ Heq. lia.
      * intros [Hc|Hc]; lia.
    + apply Z.ltb_ge in Hgoogle.
      destruct (_ =? unitsPerEm (tblHead f)) eqn:Hadobe.
      * apply Z.eqb_eq in Hadobe. injection H as <-. cbn.
        split; [repeat split|]. split; [|split].
        -- intros _ Hc. lia.
        -- intros _ _. repeat split; lia.
        -- intros [Hc|Hc]; lia.
      * apply Z.eqb_neq in Hadobe.
        destruct (ascent_with_half_linegap _ _) as [a|] eqn:Ha; [|discriminate].
        injection H as <-. cbn.
        split; [repeat split|]. split; [|split].
        -- intros _ Hc. lia.
        -- intros _ Hc. lia.
        -- intros _. repeat split. exact Ha.
  - apply Z.eqb_neq in Hg.
    destruct (ascent_with_half_linegap _ _) as [a|] eqn:Ha; [|discriminate].
    injection H as <-. cbn.
    split; [repeat split|]. split; [|split].
    + intros Hc. contradiction.
    + intros Hc. contradiction.
    + intros _. repeat split. exact Ha.
Qed.

Lemma modifyLinegapPercent_typo_metrics_witness :
  modifyLinegapPercent font_with_linegap 50 = Some font_with_linegap_50
  /\ names font_with_linegap_50 = names font_with_linegap
  /\ tblHead font_with_linegap_50 = tblHead font_with_linegap
  /\ sTypoAscender (tblOS2 font_with_linegap_50)
     = sTypoAscender (tblOS2 font_with_linegap).
Proof.
  assert (H : modifyLinegapPercent font_with_linegap 50
              = Some font_with_linegap_50) by (vm_compute; reflexivity).
  split; [exact H|].
  destruct (modifyLinegapPercent_typo_metrics _ _ _ H)
    as ((Hn & _ & Hh & _) & _ & _ & Hthird).
  split; [exact Hn|]. split; [exact Hh|].
  apply Hthird. left. discriminate.
Defined.

(** *** A name table in two languages *)

Definition font_two_languages : Font :=
  mkFont [makeName "Foo Bold" 1 3 1 0x409; makeName "Fou Gras" 1 3 1 0x40C;
          makeName "Foo" 1 1 0 0; makeName "Bold" 2 3 1 0x409;
          makeName "" 2 1 0 0; makeName "Copyright Foo" 0 3 1 0x409]
    None
    (mkOS2 3 64 0 400 5 "AC  " 800 (-200) 90 900 201)
    (mkHead 0 (1, 1) 0 1000)
    (mkHhea 900 (-201) 90)
    None.

Example removeEmptyNames_two_languages :
  names (removeEmptyNames font_two_languages)
  = [makeName "Foo Bold" 1 3 1 0x409; makeName "Fou Gras" 1 3 1 0x40C;
     makeName "Foo" 1 1 0 0; makeName "Bold" 2 3 1 0x409;
     makeName "Copyright Foo" 0 3 1 0x409].
Proof. reflexivity. Qed.

Example delMacNames_two_languages :
  names (delMacNames (Some [1]) font_two_languages)
  = [makeName "Foo Bold" 1 3 1 0x409; makeName "Fou Gras" 1 3 1 0x40C;
     makeName "Foo" 1 1 0 0; makeName "Bold" 2 3 1 0x409;
     makeName "Copyright Foo" 0 3 1 0x409].
Proof. reflexivity. Qed.

Lemma delMultilingualName_language_witness :
  "zz" <> "ALL"
  /\ names (delMultilingualName windows_codes_excerpt mac_codes_excerpt
              mac_script_excerpt (Some 1) "zz" true false font_two_languages)
     = [makeName "Foo" 1 1 0 0; makeName "Bold" 2 3 1 0x409;
        makeName "" 2 1 0 0; makeName "Copyright Foo" 0 3 1 0x409].
Proof.
  assert (H : "zz" <> "ALL") by (apply String.eqb_neq; reflexivity).
  split; [exact H|].
  rewrite (proj1 (delMultilingualName_language windows_codes_excerpt
                    mac_codes_excerpt mac_script_excerpt 1 "zz" true false
                    font_two_languages H)).
  reflexivity.
Defined.

Lemma setMultilingualName_writes_one_record_witness :
  windows_codes_excerpt (PyStr.lower "FR") = Some 0x40C
  /\ List.filter (is_record 1 3 1 0x40C)
       (names (setMultilingualName windows_codes_excerpt mac_codes_excerpt
                 mac_script_excerpt ascii_text 1 "FR" "Fou" true false
                 font_two_languages))
     = [makeName "Fou" 1 3 1 0x40C].
Proof.
  assert (H : windows_codes_excerpt (PyStr.lower "FR") = Some 0x40C)
    by reflexivity.
  split; [exact H|].
  exact (proj1 (setMultilingualName_writes_one_record windows_codes_excerpt
                  mac_codes_excerpt mac_script_excerpt ascii_text 1 "FR" "Fou"
                  false font_two_languages 0x40C H)).
Defined.

Lemma win2mac_spec_witness :
  mac_codes_excerpt "en" = Some 0 /\ mac_script_excerpt 0 = Some 0
  /\ getName (names (win2mac windows_codes_excerpt mac_codes_excerpt
                       mac_script_excerpt ascii_text font_two_languages))
       1 1 0 (Some 0)
     = Some (makeName "Fou Gras" 1 1 0 0).
Proof.
  split; [reflexivity|]. split; [reflexivity|].
  assert (Henc : forall r, In r (names font_two_languages) ->
                   platformID r = 3 -> ascii_text 0 0 (string_of r) = true).
  { intros r [<-|[<-|[<-|[<-|[<-|[<-|[]]]]]]] _; reflexivity. }
  destruct (win2mac_spec windows_codes_excerpt mac_codes_excerpt
              mac_script_excerpt ascii_text font_two_languages
              eq_refl eq_refl Henc) as (_ & Hb & _).
  specialize (Hb 1).
  assert (E : last_windows_text 1 (names (removeEmptyNames font_two_languages))
              = Some "Fou Gras") by reflexivity.
  rewrite E in Hb. exact (proj2 Hb).
Defined.

Lemma findReplace_unique_ids_witness :
  List.NoDup (map record_ids (names font_two_languages))
  /\ fst (fst (fst (findReplace "Foo" "Bar" false None (Some "win") (Some [0])
                      (names font_two_languages) None)))
     = [makeName "Bar Bold" 1 3 1 0x409; makeName "Fou Gras" 1 3 1 0x40C;
        makeName "Foo" 1 1 0 0; makeName "Bold" 2 3 1 0x409;
        makeName "" 2 1 0 0; makeName "Copyright Foo" 0 3 1 0x409].
Proof.
  assert (Hnd : List.NoDup (map record_ids (names font_two_languages))).
  { repeat constructor; cbn; intuition discriminate. }
  split; [exact Hnd|].
  pose proof (findReplace_unique_ids "Foo" "Bar" false None (Some "win")
                (Some [0]) (names font_two_languages) None Hnd) as H.
  cbv zeta in H.
  destruct (findReplace "Foo" "Bar" false None (Some "win") (Some [0])
              (names font_two_languages) None) as [[[ns' cff'] out] c].
  cbn [fst]. rewrite (proj1 H). reflexivity.
Defined.

Definition cff_sample : CFFTable :=
  mkCFFTable ["Foo-Regular"] (Some "Foo Regular") (Some "Foo") None None None.

Lemma setCFFName_spec_witness :
  setCFFName (Some "Foo-Bold") None (Some "Foo") None None None (Some cff_sample)
  = (inl 1, Some (mkCFFTable ["Foo-Bold"] (Some "Foo Regular") (Some "Foo")
                    None None None))
  /\ setCFFName (Some "Foo-Bold") None (Some "Foo") None None None
       (Some (mkCFFTable ["Foo-Bold"] (Some "Foo Regular") (Some "Foo")
                None None None))
     = (inl 0, Some (mkCFFTable ["Foo-Bold"] (Some "Foo Regular") (Some "Foo")
                       None None None)).
Proof.
  assert (H : setCFFName (Some "Foo-Bold") None (Some "Foo") None None None
                (Some cff_sample)
              = (inl 1, Some (mkCFFTable ["Foo-Bold"] (Some "Foo Regular")
                                (Some "Foo") None None None)))
    by (vm_compute; reflexivity).
  split; [exact H|].
  exact (proj1 (proj2 (proj2 (setCFFName_spec _ _ _ _ _ _ _ _ _ H)))).
Defined.

(** *** The sample font of [recalcNames] again *)

Definition font_sample_french : Font :=
  with_names font_sample
    (names font_sample ++ [makeName "Gras Italique" 2 3 1 0x40C])%list.

Lemma recalcNames_untouched_records_witness :
  py_in 8 [1; 2; 3; 4; 5; 6; 16; 17; 18] = false
  /\ records_of 8 (names (recalcNames_sample [] false))
     = [makeName "ACME" 8 3 1 0x409].
Proof.
  split; [reflexivity|].
  exact (recalcNames_untouched_records windows_codes_excerpt
           mac_codes_excerpt mac_script_excerpt ascii_text
           revision_text_sample timestamp_text_sample font_data_sample
           [] [6] [6] [6] false [400; 700] false false false false false
           false font_sample 8 (or_introl eq_refl)).
Defined.

Lemma recalcNames_postscript_name_witness :
  windows_codes_excerpt "en" = Some 0x409
  /\ py_in 6 [] = false
  /\ getName (names (recalcNames_sample [] false)) 6 3 1 (Some 0x409)
     = Some (makeName "FooSansCnd-BdIt" 6 3 1 0x409).
Proof.
  split; [reflexivity|]. split; [reflexivity|].
  exact (proj1 (recalcNames_postscript_name windows_codes_excerpt
                  mac_codes_excerpt mac_script_excerpt ascii_text
                  revision_text_sample timestamp_text_sample font_data_sample
                  [] [6] [6] [6] false [400; 700] false false false false
                  false false font_sample eq_refl eq_refl)).
Defined.

Lemma recalcNames_windows_records_witness :
  english_codes windows_codes_excerpt mac_codes_excerpt mac_script_excerpt
  /\ getName (names (recalcNames_sample [] false)) 5 3 1 (Some 0x409)
     = Some (makeName "Version 1.000" 5 3 1 0x409)
  /\ getName (names (recalcNames_sample [] false)) 3 1 0 (Some 0) = None.
Proof.
  assert (Hen : english_codes windows_codes_excerpt mac_codes_excerpt
                  mac_script_excerpt) by (repeat split).
  split; [exact Hen|].
  destruct (recalcNames_windows_records windows_codes_excerpt
              mac_codes_excerpt mac_script_excerpt ascii_text
              revision_text_sample timestamp_text_sample font_data_sample
              [] [6] [6] [6] false [400; 700] false false false false false
              false font_sample Hen) as (H3 & _ & H5).
  split; [exact (H5 eq_refl) | exact (proj2 (H3 eq_refl))].
Defined.

Lemma recalcNames_keeps_other_languages_witness :
  english_codes windows_codes_excerpt mac_codes_excerpt mac_script_excerpt
  /\ is_english (makeName "Gras Italique" 2 3 1 0x40C) = false
  /\ In (makeName "Gras Italique" 2 3 1 0x40C)
       (names (fst (recalcNames windows_codes_excerpt mac_codes_excerpt
                      mac_script_excerpt ascii_text revision_text_sample
                      timestamp_text_sample font_data_sample [] [6] [6] [6]
                      false [400; 700] false false false false false false
                      font_sample_french))).
Proof.
  assert (Hen : english_codes windows_codes_excerpt mac_codes_excerpt
                  mac_script_excerpt) by (repeat split).
  split; [exact Hen|]. split; [reflexivity|].
  apply (recalcNames_keeps_other_languages windows_codes_excerpt
           mac_codes_excerpt mac_script_excerpt ascii_text
           revision_text_sample timestamp_text_sample font_data_sample
           [] [6] [6] [6] false [400; 700] false false false false false
           false font_sample_french _ Hen); [|reflexivity].
  cbn. auto 10.
Defined.

End TTFontCLI.

(** ** [ftCLI/Lib/utils/contours.py] *)
Module Contours.

Local Open Scope string_scope.
Local Open Scope Z_scope.

(** Exceptions the code can raise or let through. *)
Inductive exn :=
| KeyError | ValueError | AssertionError | AttributeError
| NotImplementedError | RecursionError | PathOpsError | RemoveOverlapsError.

Inductive result (A : Type) :=
| Ok (a : A)
| Raise (e : exn).
Arguments Ok {A} a.
Arguments Raise {A} e.

#[local] Instance exn_eq_dec : EqDecision exn.
Proof. solve_decision. Defined.

(** What the functions print through [generic_warning_message] and
    [generic_error_message]. *)
Inductive Message :=
| WarnSimplifiedRounded (glyphName : string)
| ErrSimplifyFailed (glyphName : string)
| ErrRemoveOverlaps (glyphName : string).

(** Path segments as [pathops.Path] yields them. *)
Inductive Verb := MOVE | LINE | QUAD | CONIC | CUBIC | CLOSE.

#[local] Instance Verb_eq_dec : EqDecision Verb.
Proof. solve_decision. Defined.

(** A TrueType glyph as the glyf table holds it. *)
Record GlyphComponent (T : Type) := mkComponent {
  glyphName : string;
  transformation : T
}.
Arguments mkComponent {T} _ _.
Arguments glyphName {T} _.
Arguments transformation {T} _.

Record Glyph (T : Type) := mkGlyph {
  numberOfContours : Z;
  components : list (GlyphComponent T);
  coordinates : list (Z * Z);
  endPtsOfContours : list Z;
  program : option (list Z);   (* bytecode; None: no program attribute *)
  xMin : Z; yMin : Z; xMax : Z; yMax : Z
}.
Arguments mkGlyph {T} _ _ _ _ _ _ _ _ _.
Arguments numberOfContours {T} _.
Arguments components {T} _.
Arguments coordinates {T} _.
Arguments endPtsOfContours {T} _.
Arguments program {T} _.
Arguments xMin {T} _.
Arguments yMin {T} _.
Arguments xMax {T} _.
Arguments yMax {T} _.

(** [Glyph.isComposite] *)
Definition isComposite {T} (g : Glyph T) : bool := numberOfContours g =? -1.

(** [Glyph.removeHinting]: a composite glyph loses its program attribute, any
    other glyph gets an empty program. *)
Definition removeHinting {T} (g : Glyph T) : Glyph T :=
  mkGlyph (numberOfContours g) (components g) (coordinates g)
    (endPtsOfContours g)
    (if isComposite g then None else Some [])
    (xMin g) (yMin g) (xMax g) (yMax g).

(** [GlyphCoordinates.calcIntBounds]: the bounding box of integer points,
    all zero when there is none. *)
Definition calcIntBounds (coords : list (Z * Z)) : Z * Z * Z * Z :=
  match coords with
  | [] => (0, 0, 0, 0)
  | (x, y) :: rest =>
      fold_left (fun '(x0, y0, x1, y1) '(px, py) =>
                   (Z.min x0 px, Z.min y0 py, Z.max x1 px, Z.max y1 py))
        rest (x, y, x, y)
  end.

(** [Glyph.recalcBounds] on a glyph that is not composite. *)
Definition recalcBounds {T} (g : Glyph T) : Glyph T :=
  let coords := if 0 <? numberOfContours g then coordinates g else [] in
  let '(x0, y0, x1, y1) := calcIntBounds coords in
  mkGlyph (numberOfContours g) (components g) (coordinates g)
    (endPtsOfContours g) (program g) x0 y0 x1 y1.

Section Paths.

(** Coordinates of path points are floats; only their equality, the rounding
    [otRound] and the conversion of an integer are used. *)
Context {coord : Type} `{EqDecision coord}.
Variable otRound : coord -> Z.
Variable coord_of_int : Z -> coord.

Definition Point : Type := coord * coord.
Definition Segment : Type := Verb * list Point.
Definition Path : Type := list Segment.

(** The arguments of [Path.transform]. *)
Definition Transform : Type := coord * coord * coord * coord * coord * coord.

(** [path.contours]: the sub-paths, each starting at a MOVE. *)
Fixpoint contours_from (cur : list Segment) (p : Path) : list (list Segment) :=
  match p with
  | [] => match cur with [] => [] | _ => [cur] end
  | (MOVE, pts) :: p' =>
      match cur with
      | [] => contours_from [(MOVE, pts)] p'
      | _ => cur :: contours_from [(MOVE, pts)] p'
      end
  | seg :: p' => contours_from (cur ++ [seg]) p'
  end.

Definition contours (p : Path) : list (list Segment) := contours_from [] p.

(** [{tuple(c) for c in a.contours} != {tuple(c) for c in b.contours}] *)
Definition subset_of (a b : list (list Segment)) : bool :=
  forallb (fun c => bool_decide (c ∈ b)) a.

Definition different_contours (a b : Path) : bool :=
  negb (subset_of (contours a) (contours b)
        && subset_of (contours b) (contours a)).

(** The library operations: [pathops.simplify(path, clockwise=True)] and the
    INTERSECTION of [pathops.op], [None] when they raise [PathOpsError];
    [Path.transform]. *)
Variable pathops_simplify : Path -> option Path.
Variable pathops_intersection : Path -> Path -> option Path.
Variable path_transform : Path -> Transform -> Path.

(** [_round_path] *)
Definition _round_path (path : Path) (round : coord -> Z) : Path :=
  map (fun '(verb, points) =>
         (verb, map (fun p : Point =>
                       (coord_of_int (round (fst p)),
                        coord_of_int (round (snd p)))) points))
      path.

(** [_simplify]: the result and what is printed. *)
Definition _simplify (path : Path) (debugGlyphName : string)
  : result Path * list Message :=
  match pathops_simplify path with
  | Some simplified => (Ok simplified, [])
  | None =>
      let path := _round_path path otRound in
      match pathops_simplify path with
      | Some path => (Ok path, [WarnSimplifiedRounded debugGlyphName])
      | None => (Raise AssertionError, [ErrSimplifyFailed debugGlyphName])
      end
  end.

(** The glyf and hmtx tables the functions work on, and what was printed.
    The glyph set of the font draws from these same tables, so it sees the
    glyphs already replaced. *)
Record Tables := mkTables {
  glyf : gmap string (Glyph Transform);
  hmtx : gmap string (Z * Z);
  printed : list Message
}.

(** Computations that read and update the tables and may raise; the tables
    keep what was written before an exception. *)
Definition M (A : Type) : Type := Tables -> result A * Tables.

Definition ret {A} (a : A) : M A := fun st => (Ok a, st).
Definition raise {A} (e : exn) : M A := fun st => (Raise e, st).
Definition bind {A B} (k : A -> M B) (c : M A) : M B :=
  fun st => match c st with
            | (Ok a, st') => k a st'
            | (Raise e, st') => (Raise e, st')
            end.
#[local] Instance M_bind : MBind M := @bind.
Definition lift {A} (r : result A) : M A := fun st => (r, st).
Definition read : M Tables := fun st => (Ok st, st).
Definition print (m : Message) : M unit :=
  fun st => (Ok tt, mkTables (glyf st) (hmtx st) (printed st ++ [m])).
Definition set_glyph (name : string) (g : Glyph Transform) : M unit :=
  fun st => (Ok tt, mkTables (<[name := g]> (glyf st)) (hmtx st) (printed st)).
Definition set_metrics (name : string) (m : Z * Z) : M unit :=
  fun st => (Ok tt, mkTables (glyf st) (<[name := m]> (hmtx st)) (printed st)).

(** [table[key]] raises [KeyError] on a missing key. *)
Definition getitem {V} (m : gmap string V) (key : string) : result V :=
  match m !! key with
  | Some v => Ok v
  | None => Raise KeyError
  end.

(** Drawing a glyph of the glyph set onto a pathops pen, and building a glyph
    from what a [TTGlyphPen] received. *)
Variable glyphSet_draw :
  gmap string (Glyph Transform) -> gmap string (Z * Z) -> string -> result Path.
Variable TTGlyphPen_glyph : Path -> result (Glyph Transform).

Definition skPathFromGlyph (name : string) : M Path :=
  st ← read; lift (glyphSet_draw (glyf st) (hmtx st) name).

Definition skPathFromGlyphComponent (component : GlyphComponent Transform)
  : M Path :=
  path ← skPathFromGlyph (glyphName component);
  ret (path_transform path (transformation component)).

(** [itertools.combinations(l, 2)] *)
Fixpoint combinations2 {A} (l : list A) : list (A * A) :=
  match l with
  | [] => []
  | x :: l' => map (pair x) l' ++ combinations2 l'
  end.

(** The [any(...)] of [componentsOverlap]: the pairs are tried in order and
    the first non-empty intersection answers. The cache of component paths
    only saves drawing a component twice. *)
Fixpoint any_intersection (glyph : Glyph Transform) (pairs : list (nat * nat))
  : M bool :=
  match pairs with
  | [] => ret false
  | (i, j) :: rest =>
      ci ← lift (match components glyph !! i with
                  | Some c => Ok c | None => Raise KeyError end);
      pi ← skPathFromGlyphComponent ci;
      cj ← lift (match components glyph !! j with
                  | Some c => Ok c | None => Raise KeyError end);
      pj ← skPathFromGlyphComponent cj;
      match pathops_intersection pi pj with
      | None => raise PathOpsError
      | Some [] => any_intersection glyph rest
      | Some (_ :: _) => ret true
      end
  end.

Definition componentsOverlap (glyph : Glyph Transform) : M bool :=
  if negb (isComposite glyph) then raise ValueError
  else if (List.length (components glyph) <? 2)%nat then ret false
  else any_intersection glyph
         (combinations2 (seq 0 (List.length (components glyph)))).

Definition ttfGlyphFromSkPath (path : Path) : result (Glyph Transform) :=
  match TTGlyphPen_glyph path with
  | Raise e => Raise e
  | Ok glyph =>
      if isComposite glyph then Raise AssertionError
      else Ok (recalcBounds glyph)
  end.

(** [assert not glyph.program] *)
Definition assert_no_program (glyph : Glyph Transform) : result unit :=
  match program glyph with
  | None => Raise AttributeError
  | Some [] => Ok tt
  | Some (_ :: _) => Raise AssertionError
  end.

Definition run_simplify (path : Path) (name : string) : M Path :=
  fun st =>
    let '(r, out) := _simplify path name in
    (r, mkTables (glyf st) (hmtx st) (printed st ++ out)).

Definition removeTTGlyphOverlaps (name : string) (remove_hinting : bool)
  : M bool :=
  st ← read;
  glyph ← lift (getitem (glyf st) name);
  overlap ←
    (if 0 <? numberOfContours glyph then ret true
     else if isComposite glyph then componentsOverlap glyph
     else ret false);
  replaced ←
    (if overlap : bool then
       path ← skPathFromGlyph name;
       path2 ← run_simplify path name;
       if different_contours path path2 then
         glyph ← lift (ttfGlyphFromSkPath path2);
         set_glyph name glyph;;
         lift (assert_no_program glyph);;
         st ← read;
         metrics ← lift (getitem (hmtx st) name);
         let '(width, lsb) := metrics in
         (if negb (lsb =? xMin glyph)
          then set_metrics name (width, xMin glyph)
          else ret tt);;
         ret true
       else ret false
     else ret false);
  if replaced : bool then ret true
  else
    (if remove_hinting then set_glyph name (removeHinting glyph) else ret tt);;
    ret false.

(** *** [fix_true_type_contours] *)

(** [Glyph.getMaxpValues] of the font library. *)
Definition getMaxpValues (g : Glyph Transform) : result (Z * Z) :=
  if 0 <? numberOfContours g
  then Ok (Z.of_nat (List.length (coordinates g)),
           Z.of_nat (List.length (endPtsOfContours g)))
  else Raise AssertionError.

(** The loop over the components in [Glyph.getCompositeMaxpValues]; [nested]
    is the call on a base glyph that is itself composite. *)
Fixpoint composite_loop (nested : Glyph Transform -> result (Z * Z * Z))
  (glyfTable : gmap string (Glyph Transform))
  (comps : list (GlyphComponent Transform))
  (nPoints nContours maxComponentDepth : Z) : result (Z * Z * Z) :=
  match comps with
  | [] => Ok (nPoints, nContours, maxComponentDepth)
  | compo :: rest =>
      match getitem glyfTable (glyphName compo) with
      | Raise e => Raise e
      | Ok baseGlyph =>
          if numberOfContours baseGlyph =? 0
          then composite_loop nested glyfTable rest nPoints nContours
                 maxComponentDepth
          else if 0 <? numberOfContours baseGlyph
          then match getMaxpValues baseGlyph with
               | Raise e => Raise e
               | Ok (nP, nC) =>
                   composite_loop nested glyfTable rest (nPoints + nP)
                     (nContours + nC) maxComponentDepth
               end
          else match nested baseGlyph with
               | Raise e => Raise e
               | Ok (nP, nC, componentDepth) =>
                   composite_loop nested glyfTable rest (nPoints + nP)
                     (nContours + nC)
                     (Z.max maxComponentDepth componentDepth)
               end
      end
  end.

(** [Glyph.getCompositeMaxpValues]: the points, contours and component depth
    of a composite glyph; [fuel] is the recursion limit of the interpreter. *)
Fixpoint getCompositeMaxpValues (fuel : nat)
  (glyfTable : gmap string (Glyph Transform)) (g : Glyph Transform)
  (maxComponentDepth : Z) : result (Z * Z * Z) :=
  match fuel with
  | O => Raise RecursionError
  | S fuel' =>
      if negb (isComposite g) then Raise AssertionError
      else composite_loop
             (fun baseGlyph =>
                getCompositeMaxpValues fuel' glyfTable baseGlyph
                  (maxComponentDepth + 1))
             glyfTable (components g) 0 0 maxComponentDepth
  end.

Variable recursion_limit : nat.

(** The sort key of a glyph name: (component depth, name). *)
Definition sort_key (glyfTable : gmap string (Glyph Transform)) (name : string)
  : result (Z * string) :=
  match getitem glyfTable name with
  | Raise e => Raise e
  | Ok g =>
      if isComposite g then
        match getCompositeMaxpValues recursion_limit glyfTable g 1 with
        | Raise e => Raise e
        | Ok (_, _, depth) => Ok (depth, name)
        end
      else Ok (0, name)
  end.

Fixpoint sort_keys (glyfTable : gmap string (Glyph Transform))
  (glyphNames : list string) : result (list (Z * string)) :=
  match glyphNames with
  | [] => Ok []
  | name :: rest =>
      match sort_key glyfTable name with
      | Raise e => Raise e
      | Ok k => match sort_keys glyfTable rest with
                | Raise e => Raise e
                | Ok ks => Ok (k :: ks)
                end
      end
  end.

(** Order of Python tuples (int, str). *)
Definition key_le (a b : Z * string) : Prop :=
  a.1 < b.1 \/ (a.1 = b.1 /\ String.le a.2 b.2).

#[local] Instance key_le_dec : RelDecision key_le.
Proof. intros a b. unfold key_le. apply _. Defined.

(** [sorted(glyphNames, key=...)] *)
Definition sorted_glyph_names (glyfTable : gmap string (Glyph Transform))
  (glyphNames : list string) : result (list string) :=
  match sort_keys glyfTable glyphNames with
  | Raise e => Raise e
  | Ok keys => Ok (map snd (merge_sort key_le keys))
  end.

(** The loop over the sorted names; the result is the set [modified]. *)
Fixpoint process_glyphs (glyphNames : list string)
  (remove_hinting ignoreErrors : bool) (modified : gset string)
  : M (gset string) :=
  match glyphNames with
  | [] => ret modified
  | name :: rest =>
      fun st =>
        match removeTTGlyphOverlaps name remove_hinting st with
        | (Ok true, st') =>
            process_glyphs rest remove_hinting ignoreErrors
              ({[name]} ∪ modified) st'
        | (Ok false, st') =>
            process_glyphs rest remove_hinting ignoreErrors modified st'
        | (Raise RemoveOverlapsError, st') =>
            if ignoreErrors
            then (print (ErrRemoveOverlaps name);;
                  process_glyphs rest remove_hinting ignoreErrors modified) st'
            else (Raise RemoveOverlapsError, st')
        | (Raise e, st') => (Raise e, st')
        end
  end.

(** The tables of a font and its glyph order. *)
Record TTFont := mkTTFont {
  font_glyf : option (gmap string (Glyph Transform));
  font_hmtx : option (gmap string (Z * Z));
  glyphOrder : list string
}.

Definition fix_true_type_contours (font : TTFont)
  (glyphNames : option (list string)) (remove_hinting ignoreErrors : bool)
  : result unit * option Tables :=
  match font_glyf font with
  | None => (Raise NotImplementedError, None)
  | Some glyfTable =>
      match font_hmtx font with
      | None => (Raise KeyError, None)
      | Some hmtxTable =>
          let st := mkTables glyfTable hmtxTable [] in
          let glyphNames := default (glyphOrder font) glyphNames in
          match sorted_glyph_names glyfTable glyphNames with
          | Raise e => (Raise e, Some st)
          | Ok glyphNames =>
              match process_glyphs glyphNames remove_hinting ignoreErrors ∅ st
              with
              | (Ok _, st') => (Ok tt, Some st')
              | (Raise e, st') => (Raise e, Some st')
              end
          end
      end
  end.

(** *** [_simplify] *)

Lemma _round_path_rounds path round :
  Forall2 (fun seg seg' : Segment =>
             seg'.1 = seg.1
             /\ Forall2 (fun p p' : Point =>
                           p' = (coord_of_int (round p.1),
                                 coord_of_int (round p.2)))
                  seg.2 seg'.2)
    path (_round_path path round).
Proof.
  unfold _round_path. induction path as [|[verb points] path IH]; cbn.
  - constructor.
  - constructor; [|exact IH]. cbn. split; [reflexivity|].
    induction points as [|p points IHp]; cbn; constructor; auto.
Qed.

(** C3. [_simplify] returns the simplification of the path as given when that
    succeeds; otherwise it tries once more on the path with every coordinate
    rounded by [otRound] and returns that simplification when it succeeds;
    it raises exactly when both attempts fail, and every path it returns
    came out of [pathops.simplify]. *)
Theorem _simplify_retries_on_rounded_path (path : Path) (name : string) :
  let rounded := _round_path path otRound in
  Forall2 (fun seg seg' : Segment =>
             seg'.1 = seg.1
             /\ Forall2 (fun p p' : Point =>
                           p' = (coord_of_int (otRound p.1),
                                 coord_of_int (otRound p.2)))
                  seg.2 seg'.2)
    path rounded
  /\ (forall p, pathops_simplify path = Some p ->
                (_simplify path name).1 = Ok p)
  /\ (forall p, pathops_simplify path = None ->
                pathops_simplify rounded = Some p ->
                (_simplify path name).1 = Ok p)
  /\ ((exists e, (_simplify path name).1 = Raise e)
      <-> pathops_simplify path = None /\ pathops_simplify rounded = None)
  /\ (forall p, (_simplify path name).1 = Ok p ->
                pathops_simplify path = Some p
                \/ (pathops_simplify path = None
                    /\ pathops_simplify rounded = Some p)).
Proof.
  cbv zeta. split; [apply _round_path_rounds|].
  unfold _simplify.
  destruct (pathops_simplify path) as [p1|] eqn:E1.
  - cbn. split; [|split; [|split; [split|]]].
    + intros p [= <-]. reflexivity.
    + intros p H. discriminate.
    + intros [e He]. discriminate.
    + intros [H _]. discriminate.
    + intros p [= <-]. left. reflexivity.
  - destruct (pathops_simplify (_round_path path otRound)) as [p2|] eqn:E2; cbn;
      (split; [|split; [|split; [split|]]]).
    + intros p H. discriminate.
    + intros p _ [= <-]. reflexivity.
    + intros [e He]. discriminate.
    + intros [_ H]. discriminate.
    + intros p [= <-]. right. split; reflexivity.
    + intros p H. discriminate.
    + intros p _ H. discriminate.
    + intros _. split; reflexivity.
    + intros _. exists AssertionError. reflexivity.
    + intros p H. discriminate.
Qed.

(** *** [removeTTGlyphOverlaps] *)

Lemma different_contours_false a b :
  different_contours a b = false
  <-> (forall c, c ∈ contours a <-> c ∈ contours b).
Proof.
  unfold different_contours, subset_of.
  rewrite negb_false_iff, andb_true_iff, !forallb_forall.
  split.
  - intros [Hab Hba] c. split; intros Hc.
    + apply list_elem_of_In in Hc. apply Hab in Hc.
      apply bool_decide_eq_true in Hc. exact Hc.
    + apply list_elem_of_In in Hc. apply Hba in Hc.
      apply bool_decide_eq_true in Hc. exact Hc.
  - intros Hset. split; intros c Hc; apply bool_decide_eq_true;
      apply Hset, list_elem_of_In, Hc.
Qed.

Lemma skPathFromGlyph_reads name st :
  skPathFromGlyph name st = (glyphSet_draw (glyf st) (hmtx st) name, st).
Proof. reflexivity. Qed.

Lemma skPathFromGlyphComponent_reads c st :
  (skPathFromGlyphComponent c st).2 = st.
Proof.
  unfold skPathFromGlyphComponent, mbind, M_bind, bind.
  rewrite skPathFromGlyph_reads. destruct (glyphSet_draw _ _ _); reflexivity.
Qed.

Lemma any_intersection_reads glyph pairs st :
  (any_intersection glyph pairs st).2 = st.
Proof.
  induction pairs as [|[i j] pairs IH]; [reflexivity|].
  cbn [any_intersection]. unfold mbind, M_bind, bind, lift.
  destruct (components glyph !! i) as [ci|]; [|reflexivity].
  pose proof (skPathFromGlyphComponent_reads ci st) as Hi.
  destruct (skPathFromGlyphComponent ci st) as [[pi|e] st1]; cbn in Hi; subst st1;
    [|reflexivity].
  destruct (components glyph !! j) as [cj|]; [|reflexivity].
  pose proof (skPathFromGlyphComponent_reads cj st) as Hj.
  destruct (skPathFromGlyphComponent cj st) as [[pj|e] st1]; cbn in Hj; subst st1;
    [|reflexivity].
  destruct (pathops_intersection pi pj) as [[|seg r]|]; try reflexivity.
  exact IH.
Qed.

Lemma componentsOverlap_reads glyph st : (componentsOverlap glyph st).2 = st.
Proof.
  unfold componentsOverlap.
  destruct (negb (isComposite glyph)); [reflexivity|].
  destruct (_ <? _)%nat; [reflexivity|]. apply any_intersection_reads.
Qed.

(** Whether the code goes on to simplify the outline: the glyph has contours,
    or it is composite and its components overlap. *)
Definition overlap_guard (glyph : Glyph Transform) : M bool :=
  if 0 <? numberOfContours glyph then ret true
  else if isComposite glyph then componentsOverlap glyph
  else ret false.

Lemma overlap_guard_reads glyph st : (overlap_guard glyph st).2 = st.
Proof.
  unfold overlap_guard. destruct (0 <? _); [reflexivity|].
  destruct (isComposite glyph); [apply componentsOverlap_reads | reflexivity].
Qed.

(** The outcomes of [removeTTGlyphOverlaps] that return a value. The glyph is
    replaced by the glyph built from the simplified path exactly in the first
    case. *)
Inductive outcome (name : string) (remove_hinting : bool) (st : Tables)
  : bool -> Tables -> Prop :=
| outcome_replaced glyph path path2 pen_glyph width lsb :
    glyf st !! name = Some glyph ->
    overlap_guard glyph st = (Ok true, st) ->
    glyphSet_draw (glyf st) (hmtx st) name = Ok path ->
    (_simplify path name).1 = Ok path2 ->
    different_contours path path2 = true ->
    TTGlyphPen_glyph path2 = Ok pen_glyph ->
    isComposite pen_glyph = false ->
    program pen_glyph = Some [] ->
    hmtx st !! name = Some (width, lsb) ->
    outcome name remove_hinting st true
      (mkTables (<[name := recalcBounds pen_glyph]> (glyf st))
         (if negb (lsb =? xMin (recalcBounds pen_glyph))
          then <[name := (width, xMin (recalcBounds pen_glyph))]> (hmtx st)
          else hmtx st)
         (printed st ++ (_simplify path name).2))
| outcome_same_contours glyph path path2 :
    glyf st !! name = Some glyph ->
    overlap_guard glyph st = (Ok true, st) ->
    glyphSet_draw (glyf st) (hmtx st) name = Ok path ->
    (_simplify path name).1 = Ok path2 ->
    different_contours path path2 = false ->
    outcome name remove_hinting st false
      (mkTables
         (if remove_hinting then <[name := removeHinting glyph]> (glyf st)
          else glyf st)
         (hmtx st) (printed st ++ (_simplify path name).2))
| outcome_no_overlap glyph :
    glyf st !! name = Some glyph ->
    overlap_guard glyph st = (Ok false, st) ->
    outcome name remove_hinting st false
      (if remove_hinting
       then mkTables (<[name := removeHinting glyph]> (glyf st)) (hmtx st)
              (printed st)
       else st).

Lemma removeTTGlyphOverlaps_outcome name remove_hinting st b st' :
  removeTTGlyphOverlaps name remove_hinting st = (Ok b, st') ->
  outcome name remove_hinting st b st'.
Proof.
  unfold removeTTGlyphOverlaps, mbind, M_bind, bind, read, lift, getitem.
  destruct (glyf st !! name) as [glyph|] eqn:Hg; [|discriminate].
  fold (overlap_guard glyph).
  pose proof (overlap_guard_reads glyph st) as Hr.
  destruct (overlap_guard glyph st) as [[[|]|e] st1] eqn:Hguard;
    cbn in Hr; subst st1; [| |discriminate].
  - (* the outline is simplified *)
    rewrite skPathFromGlyph_reads.
    destruct (glyphSet_draw (glyf st) (hmtx st) name) as [path|e] eqn:Hdraw;
      [|discriminate].
    unfold run_simplify.
    destruct (_simplify path name) as [[path2|e] out] eqn:Hs; [|discriminate].
    destruct (different_contours path path2) eqn:Hdiff.
    + unfold ttfGlyphFromSkPath.
      destruct (TTGlyphPen_glyph path2) as [pen_glyph|e] eqn:Hpen; [|discriminate].
      destruct (isComposite pen_glyph) eqn:Hc; [discriminate|].
      unfold set_glyph, assert_no_program. cbn [recalcBounds program].
      replace (program (recalcBounds pen_glyph)) with (program pen_glyph)
        by (unfold recalcBounds; destruct (calcIntBounds _) as [[[? ?] ?] ?];
            reflexivity).
      destruct (program pen_glyph) as [[|? ?]|] eqn:Hp; try discriminate.
      cbn [hmtx glyf printed].
      destruct (hmtx st !! name) as [[width lsb]|] eqn:Hm; [|discriminate].
      intros H.
      assert (Hout : out = (_simplify path name).2) by (rewrite Hs; reflexivity).
      destruct (negb (lsb =? xMin (recalcBounds pen_glyph))) eqn:Hl;
        cbn in H; injection H as <- <-; rewrite Hout;
        pose proof (outcome_replaced name remove_hinting st glyph path path2
                      pen_glyph width lsb Hg Hguard Hdraw
                      ltac:(rewrite Hs; reflexivity) Hdiff Hpen Hc Hp Hm) as Ho;
        rewrite Hl in Ho; exact Ho.
    + intros H.
      assert (Hout : out = (_simplify path name).2) by (rewrite Hs; reflexivity).
      pose proof (outcome_same_contours name remove_hinting st glyph path path2
                    Hg Hguard Hdraw ltac:(rewrite Hs; reflexivity) Hdiff) as Ho.
      destruct remove_hinting; cbn in H; injection H as <- <-; rewrite Hout;
        exact Ho.
  - intros H.
    pose proof (outcome_no_overlap name remove_hinting st glyph Hg Hguard) as Ho.
    destruct remove_hinting; cbn in H; injection H as <- <-; exact Ho.
Qed.

Lemma calcIntBounds_fold rest x0 y0 x1 y1 :
  x0 <= x1 -> y0 <= y1 ->
  let '(a, b, c, d) :=
    fold_left (fun '(x0, y0, x1, y1) '(px, py) =>
                 (Z.min x0 px, Z.min y0 py, Z.max x1 px, Z.max y1 py))
      rest (x0, y0, x1, y1) in
  a <= x0 /\ b <= y0 /\ x1 <= c /\ y1 <= d
  /\ Forall (fun p : Z * Z => a <= p.1 <= c /\ b <= p.2 <= d) rest.
Proof.
  revert x0 y0 x1 y1. induction rest as [|[px py] rest IH]; intros x0 y0 x1 y1 Hx Hy.
  - cbn. repeat split; try lia. constructor.
  - cbn [fold_left].
    specialize (IH (Z.min x0 px) (Z.min y0 py) (Z.max x1 px) (Z.max y1 py)
                  ltac:(lia) ltac:(lia)).
    destruct (fold_left _ rest _) as [[[a b] c] d].
    destruct IH as (Ha & Hb & Hc & Hd & Hall).
    repeat split; try lia. constructor; [cbn; lia | exact Hall].
Qed.

(** The box of [calcIntBounds] holds every point. *)
Lemma calcIntBounds_contains coords :
  let '(a, b, c, d) := calcIntBounds coords in
  Forall (fun p : Z * Z => a <= p.1 <= c /\ b <= p.2 <= d) coords.
Proof.
  destruct coords as [|[x y] rest]; [constructor|].
  unfold calcIntBounds.
  pose proof (calcIntBounds_fold rest x y x y ltac:(lia) ltac:(lia)) as H.
  destruct (fold_left _ rest _) as [[[a b] c] d].
  destruct H as (Ha & Hb & Hc & Hd & Hall).
  constructor; [cbn; lia | exact Hall].
Qed.

Definition outline_points (g : Glyph Transform) : list (Z * Z) :=
  if 0 <? numberOfContours g then coordinates g else [].

Lemma recalcBounds_box (g : Glyph Transform) :
  let g' := recalcBounds g in
  (xMin g', yMin g', xMax g', yMax g') = calcIntBounds (outline_points g)
  /\ numberOfContours g' = numberOfContours g
  /\ components g' = components g
  /\ coordinates g' = coordinates g
  /\ endPtsOfContours g' = endPtsOfContours g
  /\ program g' = program g.
Proof.
  unfold recalcBounds, outline_points.
  destruct (calcIntBounds _) as [[[a b] c] d]. repeat split.
Qed.

(** C1. When [removeTTGlyphOverlaps] replaces a glyph (it returns True), the
    glyf entry is the glyph the pen built from the simplified path: it is not
    composite, its bounding box is the box of its own outline points, its
    program is empty; the advance width in hmtx is the one from before and
    the left side bearing is the new xMin. *)
Theorem removeTTGlyphOverlaps_replacement
  (name : string) (remove_hinting : bool) (st st' : Tables) :
  removeTTGlyphOverlaps name remove_hinting st = (Ok true, st') ->
  exists path path2 pen_glyph g' width lsb,
    glyphSet_draw (glyf st) (hmtx st) name = Ok path
    /\ (_simplify path name).1 = Ok path2
    /\ TTGlyphPen_glyph path2 = Ok pen_glyph
    /\ glyf st' !! name = Some g'
    /\ numberOfContours g' = numberOfContours pen_glyph
    /\ coordinates g' = coordinates pen_glyph
    /\ endPtsOfContours g' = endPtsOfContours pen_glyph
    /\ isComposite g' = false
    /\ (xMin g', yMin g', xMax g', yMax g') = calcIntBounds (outline_points g')
    /\ Forall (fun p : Z * Z => xMin g' <= p.1 <= xMax g'
                                /\ yMin g' <= p.2 <= yMax g')
         (outline_points g')
    /\ program g' = Some []
    /\ hmtx st !! name = Some (width, lsb)
    /\ hmtx st' !! name = Some (width, xMin g').
Proof.
  intros H. apply removeTTGlyphOverlaps_outcome in H.
  inversion H as [glyph path path2 pen_glyph width lsb Hg Hguard Hdraw Hs Hdiff
                  Hpen Hc Hp Hm | |]; subst.
  destruct (recalcBounds_box pen_glyph) as (Hbox & Hn & Hcomp & Hcoord & Hend & Hprog).
  exists path, path2, pen_glyph, (recalcBounds pen_glyph), width, lsb.
  cbn [glyf hmtx].
  assert (Hpts : outline_points (recalcBounds pen_glyph) = outline_points pen_glyph).
  { unfold outline_points. rewrite Hn, Hcoord. reflexivity. }
  repeat match goal with |- _ /\ _ => split end; try assumption.
  - apply lookup_insert_eq.
  - unfold isComposite in *. rewrite Hn. exact Hc.
  - rewrite Hpts. exact Hbox.
  - rewrite Hpts. pose proof (calcIntBounds_contains (outline_points pen_glyph)) as Hin.
    rewrite <- Hbox in Hin. exact Hin.
  - rewrite Hprog. exact Hp.
  - destruct (negb (lsb =? _)) eqn:Hl.
    + apply lookup_insert_eq.
    + apply negb_false_iff, Z.eqb_eq in Hl. rewrite <- Hl. exact Hm.
Qed.

Lemma removeHinting_outline (g : Glyph Transform) :
  let g' := removeHinting g in
  numberOfContours g' = numberOfContours g
  /\ components g' = components g
  /\ coordinates g' = coordinates g
  /\ endPtsOfContours g' = endPtsOfContours g
  /\ (xMin g', yMin g', xMax g', yMax g') = (xMin g, yMin g, xMax g, yMax g)
  /\ (program g' = None \/ program g' = Some []).
Proof.
  unfold removeHinting. cbn. repeat split.
  destruct (isComposite g); auto.
Qed.

(** C9. When [removeTTGlyphOverlaps] returns True the glyf entry has been
    replaced by the glyph built from the simplified path, whose contours
    differ as a set from those of the original path; when it returns False
    the hmtx table is as before and the glyf table is as before, except that
    with [removeHinting] the entry is the old glyph with the same outline and
    without its hinting. It returns False whenever the two paths have the
    same set of contours. *)
Theorem removeTTGlyphOverlaps_return_value
  (name : string) (remove_hinting : bool) (st st' : Tables) (b : bool) :
  removeTTGlyphOverlaps name remove_hinting st = (Ok b, st') ->
  exists glyph,
    glyf st !! name = Some glyph
    /\ (b = true ->
        exists path path2 g',
          glyphSet_draw (glyf st) (hmtx st) name = Ok path
          /\ (_simplify path name).1 = Ok path2
          /\ ~ (forall c, c ∈ contours path <-> c ∈ contours path2)
          /\ ttfGlyphFromSkPath path2 = Ok g'
          /\ glyf st' = <[name := g']> (glyf st))
    /\ (b = false ->
        hmtx st' = hmtx st
        /\ glyf st' = (if remove_hinting
                       then <[name := removeHinting glyph]> (glyf st)
                       else glyf st)
        /\ coordinates (removeHinting glyph) = coordinates glyph
        /\ components (removeHinting glyph) = components glyph
        /\ (program (removeHinting glyph) = None
            \/ program (removeHinting glyph) = Some []))
    /\ (forall path path2,
          glyphSet_draw (glyf st) (hmtx st) name = Ok path ->
          (_simplify path name).1 = Ok path2 ->
          (forall c, c ∈ contours path <-> c ∈ contours path2) ->
          b = false).
Proof.
  intros H. apply removeTTGlyphOverlaps_outcome in H.
  inversion H as [glyph path path2 pen_glyph width lsb Hg Hguard Hdraw Hs Hdiff
                  Hpen Hc Hp Hm
                 | glyph path path2 Hg Hguard Hdraw Hs Hdiff
                 | glyph Hg Hguard]; subst; exists glyph;
    (split; [exact Hg|]); (split; [|split]).
  - intros _. exists path, path2, (recalcBounds pen_glyph).
    repeat match goal with |- _ /\ _ => split end; try assumption.
    + intros Hsame. apply different_contours_false in Hsame. congruence.
    + unfold ttfGlyphFromSkPath. rewrite Hpen, Hc. reflexivity.
    + reflexivity.
  - discriminate.
  - intros p p2 Hd Hs2 Hsame. exfalso.
    rewrite Hdraw in Hd. injection Hd as <-. rewrite Hs in Hs2.
    injection Hs2 as <-. apply different_contours_false in Hsame. congruence.
  - discriminate.
  - intros _. destruct (removeHinting_outline glyph) as (_ & ? & ? & _ & _ & ?).
    repeat split; assumption.
  - reflexivity.
  - discriminate.
  - intros _. destruct (removeHinting_outline glyph) as (_ & ? & ? & _ & _ & ?).
    destruct remove_hinting; repeat split; assumption.
  - reflexivity.
Qed.

(** *** [fix_true_type_contours]: the processing order *)

#[local] Instance key_le_trans : Transitive key_le.
Proof.
  intros [d1 n1] [d2 n2] [d3 n3]. unfold key_le. cbn.
  intros [H1|[H1 L1]] [H2|[H2 L2]]; try (left; lia).
  right. split; [lia|]. etrans; eassumption.
Qed.

#[local] Instance key_le_total : Total key_le.
Proof.
  intros [d1 n1] [d2 n2]. unfold key_le. cbn.
  destruct (Z.lt_trichotomy d1 d2) as [H|[H|H]]; [left; left; lia| |right; left; lia].
  destruct (total String.le n1 n2); [left|right]; right; split; auto.
Qed.

Section Depth.

Variable glyfTable : gmap string (Glyph Transform).






End Depth.


Lemma sort_key_name glyfTable name k :
  sort_key glyfTable name = Ok k -> k.2 = name.
Proof.
  unfold sort_key. destruct (getitem glyfTable name) as [g|e]; [|discriminate].
  destruct (isComposite g).
  - destruct (getCompositeMaxpValues _ _ _ _) as [[[p c] d]|e]; [|discriminate].
    intros [= <-]. reflexivity.
  - intros [= <-]. reflexivity.
Qed.



Lemma sort_keys_each glyfTable names keys :
  sort_keys glyfTable names = Ok keys ->
  Forall2 (fun n k => sort_key glyfTable n = Ok k) names keys.
Proof.
  revert keys. induction names as [|n names IH]; intros keys H; cbn in H.
  - injection H as <-. constructor.
  - destruct (sort_key glyfTable n) as [k|e] eqn:Hk; [|discriminate].
    destruct (sort_keys glyfTable names) as [ks|e]; [|discriminate].
    injection H as <-. constructor; [exact Hk | apply IH; reflexivity].
Qed.

Lemma sort_keys_names glyfTable names keys :
  sort_keys glyfTable names = Ok keys -> map snd keys = names.
Proof.
  intros H. apply sort_keys_each in H.
  induction H as [|n k names keys Hk _ IH]; [reflexivity|].
  cbn. rewrite IH, (sort_key_name _ _ _ Hk). reflexivity.
Qed.


(** The sorted names with their keys. *)
Lemma sorted_glyph_names_keys glyfTable names order :
  sorted_glyph_names glyfTable names = Ok order ->
  exists keys,
    order = map snd keys
    /\ StronglySorted key_le keys
    /\ (forall k, k ∈ keys -> k.2 ∈ names /\ sort_key glyfTable k.2 = Ok k)
    /\ order ≡ₚ names.
Proof.
  unfold sorted_glyph_names.
  destruct (sort_keys glyfTable names) as [keys|e] eqn:Hkeys; [|discriminate].
  intros [= <-]. exists (merge_sort key_le keys).
  split; [reflexivity|]. split; [apply StronglySorted_merge_sort; apply _|].
  split.
  - intros k Hk. rewrite merge_sort_Permutation in Hk.
    apply sort_keys_each in Hkeys. clear -Hkeys Hk.
    induction Hkeys as [|n k0 names keys Hk0 _ IH].
    + apply elem_of_nil in Hk. destruct Hk.
    + apply elem_of_cons in Hk. destruct Hk as [->|Hk].
      * rewrite (sort_key_name _ _ _ Hk0). split; [left | exact Hk0].
      * destruct (IH Hk) as [Hin Hkey]. split; [right; exact Hin | exact Hkey].
  - rewrite <- (sort_keys_names _ _ _ Hkeys).
    apply fmap_Permutation, merge_sort_Permutation.
Qed.

(** Components nest at most [n] deep below [g], through glyphs of the
    table. *)
Fixpoint nests_within (glyfTable : gmap string (Glyph Transform)) (n : nat)
  (g : Glyph Transform) : Prop :=
  match n with
  | O => False
  | S n' =>
      isComposite g = true
      /\ Forall (fun compo =>
                   exists b, glyfTable !! glyphName compo = Some b
                             /\ (0 <= numberOfContours b
                                 \/ nests_within glyfTable n' b))
           (components g)
  end.

Lemma composite_loop_returns glyfTable
  (nested : Glyph Transform -> result (Z * Z * Z)) (good : Glyph Transform -> Prop)
  comps nPoints nContours m :
  (forall b, good b -> exists r, nested b = Ok r) ->
  Forall (fun compo =>
            exists b, glyfTable !! glyphName compo = Some b
                      /\ (0 <= numberOfContours b \/ good b)) comps ->
  exists r, composite_loop nested glyfTable comps nPoints nContours m = Ok r.
Proof.
  intros Hgood Hall. revert nPoints nContours m.
  induction Hall as [|compo comps (b & Hb & Hcase) _ IH]; intros nPoints nContours m.
  - cbn. eauto.
  - cbn [composite_loop]. unfold getitem. rewrite Hb.
    destruct (numberOfContours b =? 0) eqn:E0; [apply IH|].
    destruct (0 <? numberOfContours b) eqn:E1.
    + unfold getMaxpValues. rewrite E1. apply IH.
    + destruct Hcase as [Hpos|Hg]; [lia|].
      destruct (Hgood b Hg) as [[[nP nC] d] ->]. apply IH.
Qed.

(** With a recursion limit that covers the nesting of the components the
    depth is computed. *)
Lemma getCompositeMaxpValues_returns glyfTable n g k :
  nests_within glyfTable n g ->
  exists r, getCompositeMaxpValues n glyfTable g k = Ok r.
Proof.
  revert g k. induction n as [|n IH]; intros g k H; [destruct H|].
  destruct H as [Hc Hall]. cbn [getCompositeMaxpValues]. rewrite Hc. cbn [negb].
  apply (composite_loop_returns glyfTable _ (nests_within glyfTable n)).
  - intros b Hb. apply IH, Hb.
  - exact Hall.
Qed.

(** The names are sorted whenever each of them is in the glyf table and the
    composite ones nest within the recursion limit. *)
Lemma sorted_glyph_names_returns glyfTable names :
  Forall (fun name =>
            exists g, glyfTable !! name = Some g
                      /\ (isComposite g = false
                          \/ nests_within glyfTable recursion_limit g)) names ->
  exists order, sorted_glyph_names glyfTable names = Ok order.
Proof.
  intros Hall. unfold sorted_glyph_names.
  assert (Hkeys : exists keys, sort_keys glyfTable names = Ok keys).
  { induction Hall as [|name names (g & Hg & Hcase) _ [keys IH]]; [cbn; eauto|].
    cbn [sort_keys]. unfold sort_key, getitem. rewrite Hg.
    destruct (isComposite g) eqn:Hc.
    - destruct Hcase as [Hf|Hn]; [discriminate|].
      destruct (getCompositeMaxpValues_returns glyfTable _ g 1 Hn)
        as [[[p c] d] ->].
      rewrite IH. eauto.
    - rewrite IH. eauto. }
  destruct Hkeys as [keys ->]. eauto.
Qed.


Local Open Scope list_scope.

(** *** [componentsOverlap]: the pairs of components it tries *)

Lemma combinations2_seq (a n i j : nat) :
  (i, j) ∈ combinations2 (seq a n) <-> (a <= i < j /\ j < a + n)%nat.
Proof.
  revert a. induction n as [|n IH]; intros a; cbn [seq combinations2].
  - split; [intros H; apply elem_of_nil in H; destruct H | lia].
  - rewrite elem_of_app, IH, list_elem_of_In, in_map_iff. split.
    + intros [(y & [= -> ->] & Hy)|H]; [|lia].
      apply list_elem_of_In, elem_of_seq in Hy. lia.
    + intros H. destruct (decide (i = a)) as [->|Hne]; [|right; lia].
      left. exists j. split; [reflexivity|].
      apply list_elem_of_In, elem_of_seq. lia.
Qed.

(** What [_get_nth_component_path] returns for a component index: the drawn
    path of the base glyph, transformed; [None] when the index is out of
    range or drawing raises. *)
Definition component_path (glyph : Glyph Transform) (st : Tables) (index : nat)
  : option Path :=
  match components glyph !! index with
  | None => None
  | Some c =>
      match glyphSet_draw (glyf st) (hmtx st) (glyphName c) with
      | Ok p => Some (path_transform p (transformation c))
      | Raise _ => None
      end
  end.

Lemma skPathFromGlyphComponent_run c st :
  skPathFromGlyphComponent c st
  = (match glyphSet_draw (glyf st) (hmtx st) (glyphName c) with
     | Ok p => Ok (path_transform p (transformation c))
     | Raise e => Raise e
     end, st).
Proof.
  unfold skPathFromGlyphComponent, mbind, M_bind, bind.
  rewrite skPathFromGlyph_reads. destruct (glyphSet_draw _ _ _); reflexivity.
Qed.

Lemma any_intersection_cons glyph i j rest st :
  any_intersection glyph ((i, j) :: rest) st
  = match components glyph !! i with
    | None => (Raise KeyError, st)
    | Some ci =>
        match glyphSet_draw (glyf st) (hmtx st) (glyphName ci) with
        | Raise e => (Raise e, st)
        | Ok pi =>
            match components glyph !! j with
            | None => (Raise KeyError, st)
            | Some cj =>
                match glyphSet_draw (glyf st) (hmtx st) (glyphName cj) with
                | Raise e => (Raise e, st)
                | Ok pj =>
                    match pathops_intersection
                            (path_transform pi (transformation ci))
                            (path_transform pj (transformation cj)) with
                    | None => (Raise PathOpsError, st)
                    | Some [] => any_intersection glyph rest st
                    | Some (_ :: _) => (Ok true, st)
                    end
                end
            end
        end
    end.
Proof.
  cbn [any_intersection]. unfold mbind, M_bind, bind, lift.
  destruct (components glyph !! i) as [ci|]; [|reflexivity].
  rewrite skPathFromGlyphComponent_run.
  destruct (glyphSet_draw (glyf st) (hmtx st) (glyphName ci)) as [pi|e];
    [|reflexivity].
  destruct (components glyph !! j) as [cj|]; [|reflexivity].
  rewrite skPathFromGlyphComponent_run.
  destruct (glyphSet_draw (glyf st) (hmtx st) (glyphName cj)) as [pj|e];
    [|reflexivity].
  destruct (pathops_intersection _ _) as [[|seg r]|]; reflexivity.
Qed.

Lemma any_intersection_true glyph pairs st :
  (any_intersection glyph pairs st).1 = Ok true ->
  exists i j pi pj seg rest,
    (i, j) ∈ pairs
    /\ component_path glyph st i = Some pi
    /\ component_path glyph st j = Some pj
    /\ pathops_intersection pi pj = Some (seg :: rest).
Proof.
  induction pairs as [|[i j] pairs IH]; [discriminate|].
  rewrite any_intersection_cons.
  destruct (components glyph !! i) as [ci|] eqn:Hi; [|discriminate].
  destruct (glyphSet_draw (glyf st) (hmtx st) (glyphName ci)) as [pi|e] eqn:Hpi;
    [|discriminate].
  destruct (components glyph !! j) as [cj|] eqn:Hj; [|discriminate].
  destruct (glyphSet_draw (glyf st) (hmtx st) (glyphName cj)) as [pj|e] eqn:Hpj;
    [|discriminate].
  destruct (pathops_intersection _ _) as [[|seg r]|] eqn:Hop; [| |discriminate].
  - intros H. destruct (IH H) as (i' & j' & pi' & pj' & s' & r' & Hin & Hrest).
    exists i', j', pi', pj', s', r'. split; [right; exact Hin | exact Hrest].
  - intros _. eexists i, j, _, _, seg, r. split; [left|].
    unfold component_path. rewrite Hi, Hpi, Hj, Hpj. auto.
Qed.

Lemma any_intersection_false glyph pairs st :
  (any_intersection glyph pairs st).1 = Ok false
  <-> (forall i j, (i, j) ∈ pairs ->
         exists pi pj,
           component_path glyph st i = Some pi
           /\ component_path glyph st j = Some pj
           /\ pathops_intersection pi pj = Some []).
Proof.
  induction pairs as [|[i j] pairs IH].
  - cbn. split; [|reflexivity].
    intros _ i j H. apply elem_of_nil in H. destruct H.
  - rewrite any_intersection_cons. unfold component_path in *. split.
    + intros H i' j' Hin.
      destruct (components glyph !! i) as [ci|] eqn:Hi; [|discriminate].
      destruct (glyphSet_draw (glyf st) (hmtx st) (glyphName ci))
        as [pi|e] eqn:Hpi; [|discriminate].
      destruct (components glyph !! j) as [cj|] eqn:Hj; [|discriminate].
      destruct (glyphSet_draw (glyf st) (hmtx st) (glyphName cj))
        as [pj|e] eqn:Hpj; [|discriminate].
      destruct (pathops_intersection _ _) as [[|seg r]|] eqn:Hop;
        [|discriminate..].
      apply elem_of_cons in Hin. destruct Hin as [[= -> ->]|Hin].
      * rewrite Hi, Hpi, Hj, Hpj. eauto.
      * apply IH; assumption.
    + intros H.
      destruct (H i j ltac:(left)) as (pi & pj & Hi & Hj & Hop).
      destruct (components glyph !! i) as [ci|]; [|discriminate].
      destruct (glyphSet_draw (glyf st) (hmtx st) (glyphName ci)) as [pi'|e];
        [|discriminate].
      destruct (components glyph !! j) as [cj|]; [|discriminate].
      destruct (glyphSet_draw (glyf st) (hmtx st) (glyphName cj)) as [pj'|e];
        [|discriminate].
      injection Hi as <-. injection Hj as <-. rewrite Hop.
      apply IH. intros i' j' Hin. apply H. right. exact Hin.
Qed.

Lemma any_intersection_raises glyph pairs st e :
  (any_intersection glyph pairs st).1 = Raise e ->
  e = KeyError \/ e = PathOpsError
  \/ exists n, glyphSet_draw (glyf st) (hmtx st) n = Raise e.
Proof.
  induction pairs as [|[i j] pairs IH]; [discriminate|].
  rewrite any_intersection_cons.
  destruct (components glyph !! i) as [ci|]; [|intros [= <-]; auto].
  destruct (glyphSet_draw (glyf st) (hmtx st) (glyphName ci)) as [pi|e'] eqn:Hpi;
    [|intros [= <-]; eauto].
  destruct (components glyph !! j) as [cj|]; [|intros [= <-]; auto].
  destruct (glyphSet_draw (glyf st) (hmtx st) (glyphName cj)) as [pj|e'] eqn:Hpj;
    [|intros [= <-]; eauto].
  destruct (pathops_intersection _ _) as [[|seg r]|];
    [exact IH | discriminate | intros [= <-]; auto].
Qed.

(** X19. [componentsOverlap] reads the tables without changing them. It
    raises ValueError on a glyph that is not composite and answers False for
    a composite glyph with fewer than two components without drawing
    anything. Otherwise it answers True only when two components at indices
    i < j have a non-empty intersection of their transformed paths, and it
    answers False exactly when every pair i < j was drawn and intersected
    to the empty path. *)
Theorem componentsOverlap_spec (glyph : Glyph Transform) (st : Tables) :
  let n := List.length (components glyph) in
  (componentsOverlap glyph st).2 = st
  /\ (isComposite glyph = false ->
      (componentsOverlap glyph st).1 = Raise ValueError)
  /\ (isComposite glyph = true -> (n < 2)%nat ->
      (componentsOverlap glyph st).1 = Ok false)
  /\ ((componentsOverlap glyph st).1 = Ok true ->
      exists i j pi pj seg rest,
        (i < j < n)%nat
        /\ component_path glyph st i = Some pi
        /\ component_path glyph st j = Some pj
        /\ pathops_intersection pi pj = Some (seg :: rest))
  /\ ((componentsOverlap glyph st).1 = Ok false
      <-> isComposite glyph = true
          /\ forall i j, (i < j < n)%nat ->
               exists pi pj,
                 component_path glyph st i = Some pi
                 /\ component_path glyph st j = Some pj
                 /\ pathops_intersection pi pj = Some []).
Proof.
  cbv zeta. split; [apply componentsOverlap_reads|].
  unfold componentsOverlap.
  destruct (isComposite glyph) eqn:Hc; cbn [negb].
  2:{ cbn. repeat split; try discriminate; try tauto.
      intros [H _]. discriminate. }
  split; [discriminate|].
  destruct (List.length (components glyph) <? 2)%nat eqn:Hlen.
  - apply Nat.ltb_lt in Hlen. cbn. split; [reflexivity|].
    split; [discriminate|]. split; [|reflexivity].
    intros _. split; [reflexivity|]. intros i j Hij. lia.
  - apply Nat.ltb_ge in Hlen. split; [intros; lia|]. split.
    + intros H. apply any_intersection_true in H.
      destruct H as (i & j & pi & pj & seg & rest & Hin & Hrest).
      apply combinations2_seq in Hin.
      exists i, j, pi, pj, seg, rest. split; [lia | exact Hrest].
    + rewrite any_intersection_false. split.
      * intros H. split; [reflexivity|]. intros i j Hij.
        apply H, combinations2_seq. lia.
      * intros [_ H] i j Hin. apply H. apply combinations2_seq in Hin. lia.
Qed.

(** *** [removeTTGlyphOverlaps]: what a call changes *)

(** The tables [st'] differ from [st] at most at the entries of [names]: the
    other entries are the same, the glyf table has the same glyph names,
    every advance width is the same, and what was printed is still there. *)
Definition changes_only (names : list string) (st st' : Tables) : Prop :=
  (forall key, key ∉ names ->
     glyf st' !! key = glyf st !! key /\ hmtx st' !! key = hmtx st !! key)
  /\ (forall key, is_Some (glyf st' !! key) <-> is_Some (glyf st !! key))
  /\ (forall key, fst <$> hmtx st' !! key = fst <$> hmtx st !! key)
  /\ exists out, printed st' = printed st ++ out.

Lemma changes_only_refl names st : changes_only names st st.
Proof.
  repeat split; try tauto. exists []. symmetry. apply app_nil_r.
Qed.

Lemma changes_only_trans n1 n2 n3 st st1 st2 :
  (forall key, key ∈ n1 \/ key ∈ n2 -> key ∈ n3) ->
  changes_only n1 st st1 -> changes_only n2 st1 st2 ->
  changes_only n3 st st2.
Proof.
  intros Hsub (Ha & Hb & Hc & out1 & Hd) (Ha' & Hb' & Hc' & out2 & Hd').
  split; [|split; [|split]].
  - intros key Hkey.
    destruct (Ha key ltac:(intros H; apply Hkey, Hsub; auto)) as [E1 E2].
    destruct (Ha' key ltac:(intros H; apply Hkey, Hsub; auto)) as [E3 E4].
    rewrite E3, E4. split; assumption.
  - intros key. rewrite Hb'. apply Hb.
  - intros key. rewrite Hc'. apply Hc.
  - exists (out1 ++ out2). rewrite Hd', Hd, app_assoc. reflexivity.
Qed.

(** The tables after a call, whether it returns or raises: each table is as
    before or has the entry of [name] overwritten. *)
Definition entry_written (name : string) (st st' : Tables) : Prop :=
  (glyf st' = glyf st
   \/ exists old g, glyf st !! name = Some old
                    /\ glyf st' = <[name := g]> (glyf st))
  /\ (hmtx st' = hmtx st
      \/ exists width lsb lsb', hmtx st !! name = Some (width, lsb)
                                /\ hmtx st' = <[name := (width, lsb')]> (hmtx st))
  /\ exists out, printed st' = printed st ++ out.

Lemma entry_written_changes_only name st st' :
  entry_written name st st' -> changes_only [name] st st'.
Proof.
  intros (Hg & Hh & Hp). split; [|split; [|split; [|exact Hp]]].
  - intros key Hkey.
    assert (Hne : name <> key).
    { intros ->. apply Hkey. left. }
    split.
    + destruct Hg as [->|(old & g & _ & ->)]; [reflexivity|].
      apply lookup_insert_ne, Hne.
    + destruct Hh as [->|(w & l & l' & _ & ->)]; [reflexivity|].
      apply lookup_insert_ne, Hne.
  - intros key. destruct Hg as [->|(old & g & Hold & ->)]; [reflexivity|].
    destruct (decide (name = key)) as [<-|Hne].
    + rewrite lookup_insert_eq, Hold. split; eauto.
    + rewrite lookup_insert_ne by exact Hne. reflexivity.
  - intros key. destruct Hh as [->|(w & l & l' & Hold & ->)]; [reflexivity|].
    destruct (decide (name = key)) as [<-|Hne].
    + rewrite lookup_insert_eq, Hold. reflexivity.
    + rewrite lookup_insert_ne by exact Hne. reflexivity.
Qed.

Ltac written_leaf Hg Hm :=
  cbn; split; [|split];
  [ first [left; reflexivity | right; do 2 eexists; split; [exact Hg | reflexivity]]
  | first [left; reflexivity
          | right; do 3 eexists; split; [exact Hm | reflexivity]]
  | first [eexists; reflexivity | exists []; symmetry; apply app_nil_r] ].

Lemma removeTTGlyphOverlaps_writes name remove_hinting st :
  entry_written name st (removeTTGlyphOverlaps name remove_hinting st).2.
Proof.
  unfold removeTTGlyphOverlaps, mbind, M_bind, bind, read, lift, getitem.
  destruct (glyf st !! name) as [glyph|] eqn:Hg; [|written_leaf Hg Hg].
  fold (overlap_guard glyph).
  pose proof (overlap_guard_reads glyph st) as Hr.
  destruct (overlap_guard glyph st) as [[[|]|e] st1] eqn:Hguard;
    cbn in Hr; subst st1.
  - rewrite skPathFromGlyph_reads.
    destruct (glyphSet_draw (glyf st) (hmtx st) name) as [path|e] eqn:Hdraw;
      [|written_leaf Hg Hg].
    unfold run_simplify.
    destruct (_simplify path name) as [[path2|e] out] eqn:Hs;
      [|written_leaf Hg Hg].
    destruct (different_contours path path2) eqn:Hdiff.
    + destruct (ttfGlyphFromSkPath path2) as [g|e]; [|written_leaf Hg Hg].
      unfold set_glyph. cbn [glyf hmtx printed].
      destruct (assert_no_program g) as [[]|e]; [|written_leaf Hg Hg].
      destruct (hmtx st !! name) as [[width lsb]|] eqn:Hm; [|written_leaf Hg Hg].
      destruct (negb (lsb =? xMin g)); written_leaf Hg Hm.
    + destruct remove_hinting; written_leaf Hg Hg.
  - destruct remove_hinting; written_leaf Hg Hg.
  - written_leaf Hg Hg.
Qed.

(** X20. Whatever [removeTTGlyphOverlaps] does for a glyph name, whether it
    returns or raises, it leaves every other entry of glyf and hmtx as it
    was, adds or removes no glyph name, keeps the advance width of the glyph
    itself, and only adds to what was printed. When the name is not in the
    glyf table it raises KeyError and changes nothing. *)
Theorem removeTTGlyphOverlaps_footprint
  (name : string) (remove_hinting : bool) (st : Tables) :
  let st' := (removeTTGlyphOverlaps name remove_hinting st).2 in
  (forall other, other <> name ->
     glyf st' !! other = glyf st !! other
     /\ hmtx st' !! other = hmtx st !! other)
  /\ (forall key, is_Some (glyf st' !! key) <-> is_Some (glyf st !! key))
  /\ (forall key, is_Some (hmtx st' !! key) <-> is_Some (hmtx st !! key))
  /\ (forall width lsb, hmtx st !! name = Some (width, lsb) ->
        exists lsb', hmtx st' !! name = Some (width, lsb'))
  /\ (exists out, printed st' = printed st ++ out)
  /\ (glyf st !! name = None ->
      removeTTGlyphOverlaps name remove_hinting st = (Raise KeyError, st)).
Proof.
  cbv zeta.
  destruct (entry_written_changes_only _ _ _
              (removeTTGlyphOverlaps_writes name remove_hinting st))
    as (Ha & Hb & Hc & Hd).
  split; [|split; [|split; [|split; [|split]]]].
  - intros other Hne. apply Ha. intros Hin.
    apply list_elem_of_singleton in Hin. contradiction.
  - exact Hb.
  - intros key. rewrite <- !fmap_is_Some with (f := fst). rewrite Hc.
    reflexivity.
  - intros width lsb Hm. pose proof (Hc name) as Hw. rewrite Hm in Hw.
    destruct (hmtx (removeTTGlyphOverlaps name remove_hinting st).2 !! name)
      as [[w l]|]; [|discriminate].
    simplify_eq/=. eauto.
  - exact Hd.
  - intros Hnone.
    unfold removeTTGlyphOverlaps, mbind, M_bind, bind, read, lift, getitem.
    rewrite Hnone. reflexivity.
Qed.

Lemma removeHinting_idempotent (g : Glyph Transform) :
  removeHinting (removeHinting g) = removeHinting g.
Proof. reflexivity. Qed.

Lemma removeTTGlyphOverlaps_no_outline name remove_hinting st glyph :
  glyf st !! name = Some glyph ->
  numberOfContours glyph <= 0 ->
  (isComposite glyph = true -> (List.length (components glyph) < 2)%nat) ->
  removeTTGlyphOverlaps name remove_hinting st
  = (Ok false,
     if remove_hinting
     then mkTables (<[name := removeHinting glyph]> (glyf st)) (hmtx st)
            (printed st)
     else st).
Proof.
  intros Hg Hn Hcomp.
  unfold removeTTGlyphOverlaps, mbind, M_bind, bind, read, lift, getitem.
  rewrite Hg.
  replace (0 <? numberOfContours glyph) with false
    by (symmetry; apply Z.ltb_ge; exact Hn).
  unfold componentsOverlap.
  destruct (isComposite glyph) eqn:Hc; cbn [negb].
  - replace (List.length (components glyph) <? 2)%nat with true
      by (symmetry; apply Nat.ltb_lt; auto).
    destruct remove_hinting; reflexivity.
  - destruct remove_hinting; reflexivity.
Qed.

(** X21. A glyph without contours, and a composite glyph with fewer than two
    components, is never drawn or simplified: [removeTTGlyphOverlaps]
    returns False whatever the pens and pathops would do, the tables are
    left as they are apart from the removed hinting of the glyph, and a
    second call on the result changes nothing more. *)
Theorem removeTTGlyphOverlaps_without_outline
  (name : string) (remove_hinting : bool) (st : Tables)
  (glyph : Glyph Transform) :
  glyf st !! name = Some glyph ->
  numberOfContours glyph <= 0 ->
  (isComposite glyph = true -> (List.length (components glyph) < 2)%nat) ->
  let st' := (removeTTGlyphOverlaps name remove_hinting st).2 in
  removeTTGlyphOverlaps name remove_hinting st
  = (Ok false,
     if remove_hinting
     then mkTables (<[name := removeHinting glyph]> (glyf st)) (hmtx st)
            (printed st)
     else st)
  /\ removeTTGlyphOverlaps name remove_hinting st' = (Ok false, st').
Proof.
  intros Hg Hn Hcomp. cbv zeta.
  rewrite (removeTTGlyphOverlaps_no_outline _ _ _ _ Hg Hn Hcomp).
  split; [reflexivity|]. cbn [snd].
  destruct remove_hinting.
  - rewrite (removeTTGlyphOverlaps_no_outline name true _ (removeHinting glyph)).
    + cbn [glyf hmtx printed]. rewrite insert_insert_eq. reflexivity.
    + apply lookup_insert_eq.
    + exact Hn.
    + exact Hcomp.
  - rewrite (removeTTGlyphOverlaps_no_outline _ _ _ _ Hg Hn Hcomp). reflexivity.
Qed.

(** *** [fix_true_type_contours]: errors and what is left alone *)

(** Where an exception of [removeTTGlyphOverlaps] comes from: a missing key,
    pathops, a failed assertion, a glyph without program attribute, or the
    pens. *)
Lemma removeTTGlyphOverlaps_raises name remove_hinting st e :
  (removeTTGlyphOverlaps name remove_hinting st).1 = Raise e ->
  e = KeyError \/ e = PathOpsError \/ e = AssertionError \/ e = AttributeError
  \/ (exists n, glyphSet_draw (glyf st) (hmtx st) n = Raise e)
  \/ (exists p, TTGlyphPen_glyph p = Raise e).
Proof.
  unfold removeTTGlyphOverlaps, mbind, M_bind, bind, read, lift, getitem.
  destruct (glyf st !! name) as [glyph|] eqn:Hg; [|intros [= <-]; auto].
  assert (Hguard : forall e', (if 0 <? numberOfContours glyph then ret true
                               else if isComposite glyph
                                    then componentsOverlap glyph
                                    else ret false) st = (Raise e', st) ->
            e' = KeyError \/ e' = PathOpsError
            \/ exists n, glyphSet_draw (glyf st) (hmtx st) n = Raise e').
  { intros e'. destruct (0 <? numberOfContours glyph); [discriminate|].
    destruct (isComposite glyph) eqn:Hc; [|discriminate].
    unfold componentsOverlap. rewrite Hc. cbn [negb].
    destruct (_ <? _)%nat; [discriminate|].
    intros H. eapply any_intersection_raises. rewrite H. reflexivity. }
  fold (overlap_guard glyph) in *.
  pose proof (overlap_guard_reads glyph st) as Hr.
  destruct (overlap_guard glyph st) as [[[|]|e'] st1];
    cbn in Hr; subst st1.
  - rewrite skPathFromGlyph_reads.
    destruct (glyphSet_draw (glyf st) (hmtx st) name) as [path|e'] eqn:Hdraw;
      [|intros [= <-]; eauto 10].
    unfold run_simplify, _simplify.
    destruct (pathops_simplify path) as [path2|].
    + destruct (different_contours path path2);
        [|destruct remove_hinting; discriminate].
      unfold ttfGlyphFromSkPath.
      destruct (TTGlyphPen_glyph path2) as [pg|e'] eqn:Hpen;
        [|intros [= <-]; eauto 10].
      destruct (isComposite pg); [intros [= <-]; auto|].
      unfold set_glyph, assert_no_program. cbn [glyf hmtx printed].
      destruct (program (recalcBounds pg)) as [[|? ?]|];
        [|intros [= <-]; auto..].
      destruct (hmtx st !! name) as [[width lsb]|]; [|intros [= <-]; auto].
      destruct (negb (lsb =? xMin (recalcBounds pg))); discriminate.
    + destruct (pathops_simplify (_round_path path otRound)) as [path2|];
        [|intros [= <-]; auto].
      destruct (different_contours path path2);
        [|destruct remove_hinting; discriminate].
      unfold ttfGlyphFromSkPath.
      destruct (TTGlyphPen_glyph path2) as [pg|e'] eqn:Hpen;
        [|intros [= <-]; eauto 10].
      destruct (isComposite pg); [intros [= <-]; auto|].
      unfold set_glyph, assert_no_program. cbn [glyf hmtx printed].
      destruct (program (recalcBounds pg)) as [[|? ?]|];
        [|intros [= <-]; auto..].
      destruct (hmtx st !! name) as [[width lsb]|]; [|intros [= <-]; auto].
      destruct (negb (lsb =? xMin (recalcBounds pg))); discriminate.
  - destruct remove_hinting; discriminate.
  - intros [= <-]. destruct (Hguard e' eq_refl) as [->|[->|H]]; eauto 10.
Qed.

Lemma process_glyphs_ignoreErrors names remove_hinting modified st :
  (forall g h n, glyphSet_draw g h n <> Raise RemoveOverlapsError) ->
  (forall p, TTGlyphPen_glyph p <> Raise RemoveOverlapsError) ->
  process_glyphs names remove_hinting true modified st
  = process_glyphs names remove_hinting false modified st.
Proof.
  intros Hdraw Hpen. revert modified st.
  induction names as [|name names IH]; intros modified st; [reflexivity|].
  cbn [process_glyphs].
  pose proof (removeTTGlyphOverlaps_raises name remove_hinting st) as Hr.
  destruct (removeTTGlyphOverlaps name remove_hinting st) as [[[|]|e] st1];
    [apply IH | apply IH |].
  destruct e; try reflexivity.
  exfalso.
  destruct (Hr RemoveOverlapsError eq_refl)
    as [H|[H|[H|[H|[[n H]|[p H]]]]]]; try discriminate.
  - exact (Hdraw _ _ _ H).
  - exact (Hpen _ H).
Qed.

(** X22. The function raises [RemoveOverlapsError] nowhere itself: when
    neither drawing a glyph nor the glyph pen raises it,
    [fix_true_type_contours] does the same with [ignoreErrors] set as
    without, so every exception of a glyph still ends the run. *)
Theorem fix_true_type_contours_ignoreErrors
  (font : TTFont) (glyphNames : option (list string)) (remove_hinting : bool) :
  (forall g h n, glyphSet_draw g h n <> Raise RemoveOverlapsError) ->
  (forall p, TTGlyphPen_glyph p <> Raise RemoveOverlapsError) ->
  fix_true_type_contours font glyphNames remove_hinting true
  = fix_true_type_contours font glyphNames remove_hinting false.
Proof.
  intros Hdraw Hpen. unfold fix_true_type_contours.
  destruct (font_glyf font) as [glyfTable|]; [|reflexivity].
  destruct (font_hmtx font) as [hmtxTable|]; [|reflexivity].
  cbv zeta.
  destruct (sorted_glyph_names glyfTable _) as [order|e]; [|reflexivity].
  rewrite (process_glyphs_ignoreErrors _ _ _ _ Hdraw Hpen). reflexivity.
Qed.

Lemma process_glyphs_changes_only names remove_hinting ignoreErrors modified st :
  changes_only names st
    (process_glyphs names remove_hinting ignoreErrors modified st).2.
Proof.
  revert modified st.
  induction names as [|name names IH]; intros modified st;
    [apply changes_only_refl|].
  cbn [process_glyphs].
  pose proof (entry_written_changes_only _ _ _
                (removeTTGlyphOverlaps_writes name remove_hinting st)) as H1.
  assert (Hcons : forall key, key ∈ [name] \/ key ∈ names -> key ∈ name :: names).
  { intros key [H|H]; [apply list_elem_of_singleton in H; subst; left
                      | right; exact H]. }
  assert (Hnil : forall key, key ∈ [name] \/ key ∈ @nil string ->
                             key ∈ name :: names).
  { intros key [H|H]; [apply Hcons; auto | apply elem_of_nil in H; destruct H]. }
  destruct (removeTTGlyphOverlaps name remove_hinting st) as [[[|]|e] st1];
    cbn [snd] in H1.
  - exact (changes_only_trans _ _ _ _ _ _ Hcons H1 (IH _ _)).
  - exact (changes_only_trans _ _ _ _ _ _ Hcons H1 (IH _ _)).
  - assert (Hraise : changes_only (name :: names) st st1)
      by exact (changes_only_trans _ _ _ _ _ _ Hnil H1 (changes_only_refl [] st1)).
    destruct e; try exact Hraise.
    destruct ignoreErrors; [|exact Hraise].
    unfold mbind, M_bind, bind, print.
    refine (changes_only_trans _ _ _ _ _ _ Hcons _ (IH _ _)).
    refine (changes_only_trans [name] [] [name] _ _ _ _ H1 _).
    + intros key [H|H]; [exact H | apply elem_of_nil in H; destruct H].
    + repeat split; try tauto. cbn. eauto.
Qed.

(** X23. On a font with glyf and hmtx tables [fix_true_type_contours], whether
    it returns or raises, leaves the glyf and hmtx entries of every glyph
    that is not among the names to process as they were; it adds or removes
    no glyph, and every advance width is the one from before. *)
Theorem fix_true_type_contours_footprint
  (font : TTFont) (glyphNames : option (list string))
  (remove_hinting ignoreErrors : bool)
  (glyfTable : gmap string (Glyph Transform)) (hmtxTable : gmap string (Z * Z)) :
  font_glyf font = Some glyfTable ->
  font_hmtx font = Some hmtxTable ->
  exists st',
    (fix_true_type_contours font glyphNames remove_hinting ignoreErrors).2
    = Some st'
    /\ (forall key, key ∉ default (glyphOrder font) glyphNames ->
          glyf st' !! key = glyfTable !! key
          /\ hmtx st' !! key = hmtxTable !! key)
    /\ (forall key, is_Some (glyf st' !! key) <-> is_Some (glyfTable !! key))
    /\ (forall key, fst <$> hmtx st' !! key = fst <$> hmtxTable !! key).
Proof.
  intros Hglyf Hhmtx. unfold fix_true_type_contours. rewrite Hglyf, Hhmtx.
  cbv zeta.
  destruct (sorted_glyph_names glyfTable _) as [order|e] eqn:Hsorted.
  - destruct (sorted_glyph_names_keys _ _ _ Hsorted) as (_ & _ & _ & _ & Hperm).
    pose proof (process_glyphs_changes_only order remove_hinting ignoreErrors
                  ∅ (mkTables glyfTable hmtxTable [])) as (Ha & Hb & Hc & _).
    destruct (process_glyphs _ _ _ _ _) as [[m|e] st']; cbn [snd] in *;
      exists st'; (split; [reflexivity|]); (split; [|split; assumption]);
      intros key Hkey; apply Ha; rewrite Hperm; exact Hkey.
  - exists (mkTables glyfTable hmtxTable []). cbn. repeat split; tauto.
Qed.

Lemma sort_keys_raises glyfTable names name e :
  name ∈ names -> sort_key glyfTable name = Raise e ->
  exists e', sort_keys glyfTable names = Raise e'.
Proof.
  intros Hin Hk. induction names as [|n names IH].
  - apply elem_of_nil in Hin. destruct Hin.
  - cbn [sort_keys]. destruct (sort_key glyfTable n) as [k|e0] eqn:Hn; [|eauto].
    apply elem_of_cons in Hin. destruct Hin as [->|Hin]; [congruence|].
    destruct (IH Hin) as [e' ->]. eauto.
Qed.

(** A composite glyph whose first component is the glyph itself. *)
Lemma getCompositeMaxpValues_self_reference glyfTable fuel name g compo rest k :
  glyfTable !! name = Some g ->
  isComposite g = true ->
  components g = compo :: rest ->
  glyphName compo = name ->
  getCompositeMaxpValues fuel glyfTable g k = Raise RecursionError.
Proof.
  intros Hg Hc Hcomps Hname. revert k.
  induction fuel as [|fuel IH]; intros k; [reflexivity|].
  cbn [getCompositeMaxpValues]. rewrite Hc, Hcomps. cbn [negb composite_loop].
  unfold getitem. rewrite Hname, Hg.
  unfold isComposite in Hc. apply Z.eqb_eq in Hc. rewrite Hc. cbn.
  rewrite IH. reflexivity.
Qed.

(** X24. [fix_true_type_contours] raises NotImplementedError on a font
    without glyf table and KeyError on one without hmtx table. The sort of
    the names comes before any glyph is processed: when a name is not in the
    glyf table (its key raises KeyError), or names a composite glyph whose
    first component is the glyph itself (its key raises RecursionError
    whatever the recursion limit), or has a key that raises for another
    reason, the function raises and both tables are as they were, nothing
    printed. *)
Theorem fix_true_type_contours_sort_errors
  (font : TTFont) (glyphNames : option (list string))
  (remove_hinting ignoreErrors : bool) :
  let run := fix_true_type_contours font glyphNames remove_hinting ignoreErrors in
  let names := default (glyphOrder font) glyphNames in
  (font_glyf font = None -> run = (Raise NotImplementedError, None))
  /\ (forall glyfTable, font_glyf font = Some glyfTable ->
        font_hmtx font = None -> run = (Raise KeyError, None))
  /\ (forall glyfTable hmtxTable,
        font_glyf font = Some glyfTable -> font_hmtx font = Some hmtxTable ->
        (forall name, glyfTable !! name = None ->
           sort_key glyfTable name = Raise KeyError)
        /\ (forall name g compo rest,
              glyfTable !! name = Some g -> isComposite g = true ->
              components g = compo :: rest -> glyphName compo = name ->
              sort_key glyfTable name = Raise RecursionError)
        /\ (forall name e,
              name ∈ names -> sort_key glyfTable name = Raise e ->
              exists e', run = (Raise e',
                                Some (mkTables glyfTable hmtxTable [])))).
Proof.
  cbv zeta. unfold fix_true_type_contours. split; [intros ->; reflexivity|].
  split; [intros glyfTable -> ->; reflexivity|].
  intros glyfTable hmtxTable -> ->. cbv zeta. split; [|split].
  - intros name Hnone. unfold sort_key, getitem. rewrite Hnone. reflexivity.
  - intros name g compo rest Hg Hc Hcomps Hname.
    unfold sort_key, getitem. rewrite Hg, Hc.
    rewrite (getCompositeMaxpValues_self_reference _ _ _ _ _ _ _ Hg Hc Hcomps
               Hname).
    reflexivity.
  - intros name e Hin Hk. unfold sorted_glyph_names.
    destruct (sort_keys_raises _ _ _ _ Hin Hk) as [e' ->]. eauto.
Qed.

(** X25. The sort of the names succeeds, so that the glyphs are processed,
    whenever every name is in the glyf table and the components of the
    composite ones nest within the recursion limit through glyphs of the
    table; the order is then a permutation of the names. *)
Theorem fix_true_type_contours_sorts
  (font : TTFont) (glyphNames : option (list string))
  (remove_hinting ignoreErrors : bool)
  (glyfTable : gmap string (Glyph Transform)) (hmtxTable : gmap string (Z * Z)) :
  font_glyf font = Some glyfTable ->
  font_hmtx font = Some hmtxTable ->
  Forall (fun name =>
            exists g, glyfTable !! name = Some g
                      /\ (isComposite g = false
                          \/ nests_within glyfTable recursion_limit g))
    (default (glyphOrder font) glyphNames) ->
  exists order,
    sorted_glyph_names glyfTable (default (glyphOrder font) glyphNames)
    = Ok order
    /\ order ≡ₚ default (glyphOrder font) glyphNames
    /\ fix_true_type_contours font glyphNames remove_hinting ignoreErrors
       = (let '(r, st') := process_glyphs order remove_hinting ignoreErrors ∅
                             (mkTables glyfTable hmtxTable []) in
          (match r with Ok _ => Ok tt | Raise e => Raise e end, Some st')).
Proof.
  intros Hglyf Hhmtx Hall.
  destruct (sorted_glyph_names_returns _ _ Hall) as [order Hsorted].
  exists order. split; [exact Hsorted|]. split.
  - destruct (sorted_glyph_names_keys _ _ _ Hsorted) as (_ & _ & _ & _ & H).
    exact H.
  - unfold fix_true_type_contours. rewrite Hglyf, Hhmtx. cbv zeta.
    rewrite Hsorted.
    destruct (process_glyphs _ _ _ _ _) as [[m|e] st']; reflexivity.
Qed.

End Paths.

(** *** A small instance

    Integer coordinates, a simplification that drops the contours without a
    drawing segment, components that never intersect, a glyph set that draws
    each contour of a simple glyph as a closed polygon and a composite glyph
    as its simple base glyphs, and a pen that keeps the points it receives. *)
Module Example.

Definition outline_path (g : Glyph (@Transform Z)) : @Path Z :=
  match coordinates g with
  | [] => []
  | p :: rest =>
      ((MOVE, [p]) :: map (fun q => (LINE, [q])) rest ++ [(CLOSE, [])])%list
  end.

Definition draw (glyfTable : gmap string (Glyph (@Transform Z)))
  (hmtxTable : gmap string (Z * Z)) (name : string) : result (@Path Z) :=
  match glyfTable !! name with
  | None => Raise KeyError
  | Some g =>
      if isComposite g then
        Ok (concat (map (fun c => match glyfTable !! glyphName c with
                                  | Some b => outline_path b
                                  | None => []
                                  end) (components g)))
      else Ok (outline_path g ++ [(MOVE, [(0, 0)]); (CLOSE, [])])%list
  end.

Definition draws_something (c : list (@Segment Z)) : bool :=
  existsb (fun seg => match fst seg with
                      | MOVE | CLOSE => false
                      | _ => true
                      end) c.

Definition simplify (p : @Path Z) : option (@Path Z) :=
  Some (concat (List.filter draws_something (contours p))).

Definition intersection (a b : @Path Z) : option (@Path Z) := Some [].

Definition transform (p : @Path Z) (t : @Transform Z) : @Path Z := p.

Definition pen_glyph (p : @Path Z) : result (Glyph (@Transform Z)) :=
  Ok (mkGlyph (Z.of_nat (List.length (contours p))) []
        (concat (map snd p)) [] (Some []) 0 0 0 0).

Definition identity : @Transform Z := (1, 0, 0, 1, 0, 0).

Definition square : Glyph (@Transform Z) :=
  mkGlyph 1 [] [(10, 0); (110, 0); (110, 100); (10, 100)] [3]
    (Some [1; 2; 3]) 10 0 110 100.

Definition composite_of (base : string) : Glyph (@Transform Z) :=
  mkGlyph (-1) [mkComponent base identity; mkComponent "d" identity] [] []
    (Some [4]) 10 0 110 100.

Definition glyfTable : gmap string (Glyph (@Transform Z)) :=
  <["a" := square]> (<["b" := composite_of "a"]>
    (<["c" := composite_of "b"]> (<["d" := square]> ∅))).

Definition hmtxTable : gmap string (Z * Z) :=
  <["a" := (600, 25)]> (<["b" := (600, 10)]>
    (<["c" := (600, 10)]> (<["d" := (600, 10)]> ∅))).

Definition tables : @Tables Z := mkTables glyfTable hmtxTable [].

Definition font : @TTFont Z :=
  mkTTFont (Some glyfTable) (Some hmtxTable) ["c"; "b"; "d"; "a"].

Definition remove_overlaps (name : string) (remove_hinting : bool)
  : @M Z bool :=
  removeTTGlyphOverlaps (fun x => x) (fun n => n) simplify intersection
    transform draw pen_glyph name remove_hinting.

Definition fix_contours (glyphNames : option (list string))
  : result unit * option (@Tables Z) :=
  fix_true_type_contours (fun x => x) (fun n => n) simplify intersection
    transform draw pen_glyph 1000 font glyphNames true false.

Example sorted_all :
  sorted_glyph_names 1000 glyfTable ["c"; "b"; "d"; "a"]
  = Ok ["a"; "d"; "b"; "c"].
Proof. vm_compute. reflexivity. Qed.

Example replaced_a :
  (remove_overlaps "a" true tables).1 = Ok true
  /\ hmtx (remove_overlaps "a" true tables).2 !! "a" = Some (600, 10)
  /\ (xMin <$> glyf (remove_overlaps "a" true tables).2 !! "a") = Some 10.
Proof. repeat split; vm_compute; reflexivity. Qed.

Example unchanged_b :
  (remove_overlaps "b" true tables).1 = Ok false
  /\ (program <$> glyf (remove_overlaps "b" true tables).2 !! "b") = Some None.
Proof. repeat split; vm_compute; reflexivity. Qed.

Example fix_all : (fix_contours None).1 = Ok tt.
Proof. vm_compute. reflexivity. Qed.

Lemma removeTTGlyphOverlaps_replacement_witness :
  remove_overlaps "a" true tables
  = (Ok true, (remove_overlaps "a" true tables).2)
  /\ exists g' width,
       glyf (remove_overlaps "a" true tables).2 !! "a" = Some g'
       /\ isComposite g' = false
       /\ program g' = Some []
       /\ hmtx tables !! "a" = Some (width, 25)
       /\ hmtx (remove_overlaps "a" true tables).2 !! "a"
          = Some (width, xMin g').
Proof.
  assert (H : remove_overlaps "a" true tables
              = (Ok true, (remove_overlaps "a" true tables).2))
    by (vm_compute; reflexivity).
  split; [exact H|].
  destruct (removeTTGlyphOverlaps_replacement (fun x => x) (fun n => n)
              simplify intersection transform draw pen_glyph "a" true tables
              _ H)
    as (path & path2 & pg & g' & width & lsb & _ & _ & _ & Hg & _ & _ & _
        & Hc & _ & _ & Hp & Hm & Hm').
  exists g', width. repeat split; try assumption.
  rewrite Hm. f_equal. f_equal.
  vm_compute in Hm. injection Hm as _ <-. reflexivity.
Defined.

Lemma removeTTGlyphOverlaps_return_value_witness :
  remove_overlaps "b" true tables
  = (Ok false, (remove_overlaps "b" true tables).2)
  /\ hmtx (remove_overlaps "b" true tables).2 = hmtx tables
  /\ glyf (remove_overlaps "b" true tables).2
     = <["b" := removeHinting (composite_of "a")]> (glyf tables).
Proof.
  assert (H : remove_overlaps "b" true tables
              = (Ok false, (remove_overlaps "b" true tables).2))
    by (vm_compute; reflexivity).
  split; [exact H|].
  destruct (removeTTGlyphOverlaps_return_value (fun x => x) (fun n => n)
              simplify intersection transform draw pen_glyph "b" true tables
              _ false H)
    as (glyph & Hg & _ & Hfalse & _).
  destruct (Hfalse eq_refl) as (Hh & Hgl & _).
  split; [exact Hh|]. rewrite Hgl. f_equal.
  vm_compute in Hg. injection Hg as <-. reflexivity.
Defined.



(** An empty glyph with its metrics, beside the glyphs above. *)
Definition space : Glyph (@Transform Z) :=
  mkGlyph 0 [] [] [] (Some [7]) 0 0 0 0.

Definition tables_with_space : @Tables Z :=
  mkTables (<["space" := space]> glyfTable)
    (<["space" := (250, 0)]> hmtxTable) [].

Example componentsOverlap_b :
  componentsOverlap intersection transform draw (composite_of "a") tables
  = (Ok false, tables).
Proof. vm_compute. reflexivity. Qed.

Example missing_glyph :
  (fix_contours (Some ["a"; "zero"])).1 = Raise KeyError.
Proof. vm_compute. reflexivity. Qed.

Lemma removeTTGlyphOverlaps_without_outline_witness :
  remove_overlaps "space" true tables_with_space
  = (Ok false,
     mkTables (<["space" := removeHinting space]> (glyf tables_with_space))
       (hmtx tables_with_space) [])
  /\ remove_overlaps "space" true
       (remove_overlaps "space" true tables_with_space).2
     = (Ok false, (remove_overlaps "space" true tables_with_space).2).
Proof.
  apply (removeTTGlyphOverlaps_without_outline (fun x => x) (fun n => n)
           simplify intersection transform draw pen_glyph "space" true
           tables_with_space space).
  - vm_compute. reflexivity.
  - cbn. lia.
  - intros H. vm_compute in H. discriminate.
Defined.

Lemma fix_true_type_contours_ignoreErrors_witness :
  fix_true_type_contours (fun x => x) (fun n => n) simplify intersection
    transform draw pen_glyph 1000 font None true true
  = fix_contours None.
Proof.
  apply (fix_true_type_contours_ignoreErrors (fun x => x) (fun n => n)
           simplify intersection transform draw pen_glyph 1000 font None true).
  - intros g h n. unfold draw.
    destruct (g !! n) as [gl|]; [destruct (isComposite gl)|]; discriminate.
  - intros p. discriminate.
Defined.

Lemma fix_true_type_contours_footprint_witness :
  exists st',
    (fix_contours (Some ["a"])).2 = Some st'
    /\ (forall key, key ∉ ["a"] ->
          glyf st' !! key = glyfTable !! key
          /\ hmtx st' !! key = hmtxTable !! key)
    /\ (forall key, is_Some (glyf st' !! key) <-> is_Some (glyfTable !! key))
    /\ (forall key, fst <$> hmtx st' !! key = fst <$> hmtxTable !! key).
Proof.
  exact (fix_true_type_contours_footprint (fun x => x) (fun n => n) simplify
           intersection transform draw pen_glyph 1000 font (Some ["a"]) true
           false glyfTable hmtxTable eq_refl eq_refl).
Defined.

Lemma fix_true_type_contours_sorts_witness :
  exists order,
    sorted_glyph_names 1000 glyfTable ["c"; "b"; "d"; "a"] = Ok order
    /\ order ≡ₚ ["c"; "b"; "d"; "a"].
Proof.
  destruct (fix_true_type_contours_sorts (fun x => x) (fun n => n) simplify
              intersection transform draw pen_glyph 1000 font None true false
              glyfTable hmtxTable eq_refl eq_refl)
    as (order & Hsorted & Hperm & _).
  - assert (Ha : glyfTable !! "a" = Some square) by (vm_compute; reflexivity).
    assert (Hd : glyfTable !! "d" = Some square) by (vm_compute; reflexivity).
    assert (Hb : glyfTable !! "b" = Some (composite_of "a"))
      by (vm_compute; reflexivity).
    assert (Hc : glyfTable !! "c" = Some (composite_of "b"))
      by (vm_compute; reflexivity).
    assert (Hsquare : 0 <= numberOfContours square) by (cbn; lia).
    assert (Hnb : forall n, nests_within glyfTable (S n) (composite_of "a")).
    { intros n. split; [reflexivity|].
      constructor; [exists square; auto|].
      constructor; [exists square; auto | constructor]. }
    assert (Hnc : forall n, nests_within glyfTable (S (S n)) (composite_of "b")).
    { intros n. split; [reflexivity|].
      constructor; [exists (composite_of "a"); auto|].
      constructor; [exists square; auto | constructor]. }
    constructor; [exists (composite_of "b"); split; [exact Hc | right; apply Hnc]|].
    constructor; [exists (composite_of "a"); split; [exact Hb | right; apply Hnb]|].
    constructor; [exists square; auto|].
    constructor; [exists square; auto | constructor].
  - exists order. split; [exact Hsorted | exact Hperm].
Defined.

End Example.
End Contours.

(** ** [foundryToolsCLI/CLI/ftcli_name.py] *)
Module FtcliName.

Local Open Scope string_scope.
Local Open Scope Z_scope.

Section Commands.

(** Compiled table data, the rest of a font besides its name table, the
    output directory, and the exceptions of the runtime. *)
Context {Bytes : Type} `{EqDecision Bytes}.
Variable FontRest : Type.
Variable OutputDir : Type.
Variable Exception : Type.
Variable KeyError : Exception.

Inductive result (A : Type) :=
| Ok (a : A)
| Raise (e : Exception).
Arguments Ok {A} a.
Arguments Raise {A} e.

Definition TableName : Type := list TTFontCLI.NameRecord.

(** An open font: the file it was read from, its name table if it has one,
    and everything else. *)
Record Font := mkFont {
  file_name : string;              (* font.reader.file.name *)
  name_table : option TableName;   (* font["name"] *)
  rest : FontRest
}.

Definition with_name_table (font : Font) (t : TableName) : Font :=
  mkFont (file_name font) (Some t) (rest font).

(** What the commands print. *)
Inductive Console :=
| file_saved_message (file : string)
| file_not_changed_message (file : string)
| generic_error_message (e : Exception)
| generic_error_text (text : string).

(** The files on disk, the console and the fonts that were closed. *)
Record World := mkWorld {
  disk : gmap string Bytes;
  console : list Console;
  closed : list string
}.

(** Methods of [TableName] and of the font library, and [makeOutputFileName]:
    they are not part of this file. Each may raise. *)
Variable add_name :
  Font -> TableName -> Z -> string -> option Z -> string -> result TableName.
Variable del_names :
  TableName -> list Z -> option Z -> option string -> result TableName.
Variable find_replace :
  TableName -> string -> string -> list Z -> list Z -> option Z -> result TableName.
Variable append_string :
  TableName -> list Z -> option Z -> option string -> option string ->
  option string -> result TableName.
Variable compile : TableName -> Font -> result Bytes.
Variable font_bytes : Font -> result Bytes.
Variable makeOutputFileName :
  string -> OutputDir -> bool -> gmap string Bytes -> string.

(** [font.save(output_file)] *)
Definition save (font : Font) (output_file : string) (d : gmap string Bytes)
  : result (gmap string Bytes) :=
  match font_bytes font with
  | Ok data => Ok (<[output_file := data]> d)
  | Raise e => Raise e
  end.

(** The five commands with their options. *)
Inductive Command :=
| set_name (name_id : Z) (platform_id : option Z) (text : string)
    (language_string : string)
| del_names_cmd (name_ids : list Z) (platform_id : option Z)
    (language_string : option string)
| find_replace_cmd (old_string new_string : string)
    (name_ids excluded_name_ids : list Z) (platform_id : option Z)
| del_mac_names (del_all : bool)
| append (name_ids : list Z) (platform_id : option Z)
    (language_string prefix suffix : option string).

(** The nameIDs [del_mac_names] deletes: those of the Macintosh records,
    without 1, 2, 4, 5 and 6 unless [del_all]. *)
Definition mac_name_ids (t : TableName) (del_all : bool) : list Z :=
  let name_ids : gset Z :=
    list_to_set (map TTFontCLI.nameID
                   (List.filter (fun name => TTFontCLI.platformID name =? 1) t)) in
  elements (if del_all then name_ids
            else name_ids ∖ {[1; 2; 4; 5; 6]}).

(** The call that changes the name table in each command. *)
Definition mutate (cmd : Command) (font : Font) (t : TableName)
  : result TableName :=
  match cmd with
  | set_name name_id platform_id text language_string =>
      add_name font t name_id text platform_id language_string
  | del_names_cmd name_ids platform_id language_string =>
      del_names t name_ids platform_id language_string
  | find_replace_cmd old_string new_string name_ids excluded platform_id =>
      find_replace t old_string new_string name_ids excluded platform_id
  | del_mac_names del_all =>
      del_names t (mac_name_ids t del_all) (Some 1) None
  | append name_ids platform_id language_string prefix suffix =>
      append_string t name_ids platform_id language_string prefix suffix
  end.

(** The two [compile] calls of the comparison, in the order the command makes
    them: the copy first, except in [append]. *)
Definition compile_both (cmd : Command) (copy mutated : TableName) (font : Font)
  : result (Bytes * Bytes) :=
  match cmd with
  | append _ _ _ _ _ =>
      match compile mutated font with
      | Raise e => Raise e
      | Ok b => match compile copy font with
                | Raise e => Raise e
                | Ok a => Ok (a, b)
                end
      end
  | _ =>
      match compile copy font with
      | Raise e => Raise e
      | Ok a => match compile mutated font with
                | Raise e => Raise e
                | Ok b => Ok (a, b)
                end
      end
  end.

(** The [try] block of the loop body: the new disk and the message. *)
Definition try_font (cmd : Command) (output_dir : OutputDir) (overwrite : bool)
  (font : Font) (d : gmap string Bytes)
  : result (gmap string Bytes * Console) :=
  match name_table font with
  | None => Raise KeyError
  | Some name_table_copy =>
      match mutate cmd font name_table_copy with
      | Raise e => Raise e
      | Ok mutated =>
          let font := with_name_table font mutated in
          let file := file_name font in
          match compile_both cmd name_table_copy mutated font with
          | Raise e => Raise e
          | Ok (before, after) =>
              if bool_decide (before <> after) then
                let output_file :=
                  makeOutputFileName file output_dir overwrite d in
                match save font output_file d with
                | Raise e => Raise e
                | Ok d' => Ok (d', file_saved_message output_file)
                end
              else Ok (d, file_not_changed_message file)
          end
      end
  end.

(** One turn of [for font in fonts]: [try], [except Exception], [finally]. *)
Definition process_font (cmd : Command) (output_dir : OutputDir)
  (overwrite : bool) (w : World) (font : Font) : World :=
  match try_font cmd output_dir overwrite font (disk w) with
  | Ok (d, message) =>
      mkWorld d (console w ++ [message]) (closed w ++ [file_name font])
  | Raise e =>
      mkWorld (disk w) (console w ++ [generic_error_message e])
        (closed w ++ [file_name font])
  end.

(** A command on the fonts found in the input path; [initial_check_pass] is
    the result of the check made before the loop. *)
Definition run (cmd : Command) (fonts : list Font) (output_dir : OutputDir)
  (initial_check_pass overwrite : bool) (w : World) : World :=
  match cmd with
  | append _ _ _ None None =>
      mkWorld (disk w)
        (console w ++ [generic_error_text
                         "Please, insert at least a prefix or a suffix to append"])
        (closed w)
  | _ =>
      if negb initial_check_pass then w
      else fold_left (process_font cmd output_dir overwrite) fonts w
  end.

Local Close Scope string_scope.

(** C8, as amended. For each of the name-table commands and each font of the
    loop: when
    the table is there, the change is made and both tables compile, an equal
    compilation leaves the disk as it is and prints the file-not-changed
    message, and a different one saves the font under the output name and
    prints the file-saved message (or prints the error if saving fails);
    conversely a file-saved message is printed, and the disk differs, only
    after the compiled bytes of the copy and of the changed table were
    different. *)
Theorem name_commands_save_iff_changed
  (cmd : Command) (output_dir : OutputDir) (overwrite : bool)
  (w : World) (font : Font) :
  let w' := process_font cmd output_dir overwrite w font in
  (forall t t' before after,
     name_table font = Some t ->
     mutate cmd font t = Ok t' ->
     compile t (with_name_table font t') = Ok before ->
     compile t' (with_name_table font t') = Ok after ->
     (before = after ->
      disk w' = disk w
      /\ console w' = console w ++ [file_not_changed_message (file_name font)])
     /\ (before <> after ->
         let output_file :=
           makeOutputFileName (file_name font) output_dir overwrite (disk w) in
         match font_bytes (with_name_table font t') with
         | Ok data =>
             disk w' = <[output_file := data]> (disk w)
             /\ console w' = console w ++ [file_saved_message output_file]
         | Raise e =>
             disk w' = disk w
             /\ console w' = console w ++ [generic_error_message e]
         end))
  /\ (forall output_file,
        console w' = console w ++ [file_saved_message output_file] ->
        exists t t' before after data,
          name_table font = Some t
          /\ mutate cmd font t = Ok t'
          /\ compile t (with_name_table font t') = Ok before
          /\ compile t' (with_name_table font t') = Ok after
          /\ before <> after
          /\ font_bytes (with_name_table font t') = Ok data
          /\ disk w' = <[output_file := data]> (disk w))
  /\ (disk w' = disk w
      \/ exists output_file,
           console w' = console w ++ [file_saved_message output_file]).
Proof.
  cbv zeta. unfold process_font, try_font, save.
  destruct (name_table font) as [t|] eqn:Ht.
  2:{ cbn. split; [intros; congruence|]. split; [|left; reflexivity].
      intros out H. apply app_inv_head in H. discriminate. }
  destruct (mutate cmd font t) as [t'|e] eqn:Hm.
  2:{ cbn. split; [intros; congruence|].
      split; [|left; reflexivity].
      intros out H. apply app_inv_head in H. discriminate. }
  cbv zeta. change (file_name (with_name_table font t')) with (file_name font).
  set (font' := with_name_table font t') in *.
  assert (Hboth : compile_both cmd t t' font'
                  = match compile t font', compile t' font' with
                    | Ok a, Ok b => Ok (a, b)
                    | Raise e, Ok _ => Raise e
                    | Ok _, Raise e => Raise e
                    | Raise e1, Raise e2 =>
                        match cmd with
                        | append _ _ _ _ _ => Raise e2
                        | _ => Raise e1
                        end
                    end).
  { unfold compile_both.
    destruct cmd, (compile t font'), (compile t' font'); reflexivity. }
  rewrite Hboth. clear Hboth.
  assert (Hsame : forall t0 t0' (P : Prop),
            Some t = Some t0 -> mutate cmd font t0 = Ok t0' ->
            (t0 = t -> t0' = t' -> P) -> P).
  { intros t0 t0' P [= <-] H2 HP. rewrite Hm in H2. injection H2 as <-.
    apply HP; reflexivity. }
  destruct (compile t font') as [a|ea] eqn:Ha;
    destruct (compile t' font') as [b|eb] eqn:Hb.
  - destruct (bool_decide (a <> b)) eqn:Hd.
    + apply bool_decide_eq_true in Hd.
      destruct (font_bytes font') as [data|e] eqn:Hs; cbn.
      * split; [|split].
        -- intros t0 t0' a0 b0 H1 H2.
           apply (Hsame t0 t0' _ H1 H2). intros -> ->. fold font'.
           rewrite Ha, Hb, Hs. intros [= <-] [= <-].
           split; [intros; contradiction|]. intros _. split; reflexivity.
        -- intros out H. apply app_inv_head in H. injection H as <-.
           exists t, t', a, b, data. repeat split; assumption.
        -- right. eexists. reflexivity.
      * split; [|split].
        -- intros t0 t0' a0 b0 H1 H2.
           apply (Hsame t0 t0' _ H1 H2). intros -> ->. fold font'.
           rewrite Ha, Hb, Hs. intros [= <-] [= <-].
           split; [intros; contradiction|]. intros _. split; reflexivity.
        -- intros out H. apply app_inv_head in H. discriminate.
        -- left. reflexivity.
    + apply bool_decide_eq_false in Hd. cbn. split; [|split].
      * intros t0 t0' a0 b0 H1 H2.
        apply (Hsame t0 t0' _ H1 H2). intros -> ->. fold font'.
        rewrite Ha, Hb. intros [= <-] [= <-].
        split; [intros _; split; reflexivity|]. intros Hne. exfalso. auto.
      * intros out H. apply app_inv_head in H. discriminate.
      * left. reflexivity.
  - cbn. split; [|split; [|left; reflexivity]].
    + intros t0 t0' a0 b0 H1 H2.
      apply (Hsame t0 t0' _ H1 H2). intros -> ->. fold font'.
      rewrite Hb. discriminate.
    + intros out H. apply app_inv_head in H. discriminate.
  - cbn. split; [|split; [|left; reflexivity]].
    + intros t0 t0' a0 b0 H1 H2.
      apply (Hsame t0 t0' _ H1 H2). intros -> ->. fold font'.
      rewrite Ha. discriminate.
    + intros out H. apply app_inv_head in H. discriminate.
  - assert (Hr : exists e, match cmd with
                           | append _ _ _ _ _ => Raise eb
                           | _ => @Raise (Bytes * Bytes) ea
                           end = Raise e)
      by (destruct cmd; eauto).
    destruct Hr as [e ->]. cbn.
    split; [|split; [|left; reflexivity]].
    + intros t0 t0' a0 b0 H1 H2.
      apply (Hsame t0 t0' _ H1 H2). intros -> ->. fold font'.
      rewrite Ha. discriminate.
    + intros out H. apply app_inv_head in H. discriminate.
Qed.

(** The loop of a command touches the disk only through the turns above. *)
Lemma run_no_check_no_change cmd fonts output_dir overwrite w :
  run cmd fonts output_dir false overwrite w = w
  \/ exists text, console (run cmd fonts output_dir false overwrite w)
                  = console w ++ [generic_error_text text]
                  /\ disk (run cmd fonts output_dir false overwrite w) = disk w.
Proof.
  unfold run. destruct cmd as [| | | |? ? ? [p|] [s|]]; cbn; auto.
  right. eexists. split; reflexivity.
Qed.

(** *** The loop over the fonts *)

(** Whether a command reaches its loop: [append] returns before it without a
    prefix and a suffix, and every command returns when the check made
    before the loop fails. *)
Definition reaches_loop (cmd : Command) (initial_check_pass : bool) : bool :=
  match cmd with
  | append _ _ _ None None => false
  | _ => initial_check_pass
  end.

Lemma run_loop cmd fonts output_dir initial_check_pass overwrite w :
  reaches_loop cmd initial_check_pass = true ->
  run cmd fonts output_dir initial_check_pass overwrite w
  = fold_left (process_font cmd output_dir overwrite) fonts w.
Proof.
  unfold reaches_loop, run.
  destruct cmd as [| | | |? ? ? [p|] [s|]]; intros H; try rewrite H;
    try reflexivity; discriminate.
Qed.

Lemma run_no_loop cmd fonts output_dir initial_check_pass overwrite w :
  reaches_loop cmd initial_check_pass = false ->
  disk (run cmd fonts output_dir initial_check_pass overwrite w) = disk w
  /\ closed (run cmd fonts output_dir initial_check_pass overwrite w) = closed w.
Proof.
  unfold reaches_loop, run.
  destruct cmd as [| | | |? ? ? [p|] [s|]]; intros H; try rewrite H;
    split; reflexivity.
Qed.



(** The disk after one turn: as before, or with the font saved under the
    output name. *)
Lemma process_font_disk cmd output_dir overwrite w font :
  disk (process_font cmd output_dir overwrite w font) = disk w
  \/ exists t mutated data,
       name_table font = Some t
       /\ mutate cmd font t = Ok mutated
       /\ font_bytes (with_name_table font mutated) = Ok data
       /\ disk (process_font cmd output_dir overwrite w font)
          = <[makeOutputFileName (file_name font) output_dir overwrite (disk w)
              := data]> (disk w).
Proof.
  unfold process_font, try_font, save.
  destruct (name_table font) as [t|]; [|left; reflexivity].
  destruct (mutate cmd font t) as [mutated|e] eqn:Hm; [|left; reflexivity].
  cbv zeta.
  destruct (compile_both cmd t mutated (with_name_table font mutated))
    as [[before after]|e]; [|left; reflexivity].
  destruct (bool_decide (before <> after)); [|left; reflexivity].
  destruct (font_bytes (with_name_table font mutated)) as [data|e] eqn:Hb;
    [|left; reflexivity].
  right. exists t, mutated, data. repeat split; assumption.
Qed.

(** X27. A command never touches a file whose path is not an output file
    name of one of the fonts: such a path holds after the run what it held
    before. *)
Theorem run_leaves_other_files
  (cmd : Command) (fonts : list Font) (output_dir : OutputDir)
  (initial_check_pass overwrite : bool) (w : World) (path : string) :
  (forall font d, font ∈ fonts ->
     makeOutputFileName (file_name font) output_dir overwrite d <> path) ->
  disk (run cmd fonts output_dir initial_check_pass overwrite w) !! path
  = disk w !! path.
Proof.
  intros Hpath.
  destruct (reaches_loop cmd initial_check_pass) eqn:Hloop.
  2:{ destruct (run_no_loop cmd fonts output_dir initial_check_pass overwrite w
                  Hloop) as [-> _]. reflexivity. }
  rewrite (run_loop _ _ _ _ _ _ Hloop). clear Hloop.
  revert w. induction fonts as [|font fonts IH]; intros w; [reflexivity|].
  cbn [fold_left]. rewrite IH.
  - destruct (process_font_disk cmd output_dir overwrite w font)
      as [->|(t & mutated & data & _ & _ & _ & ->)]; [reflexivity|].
    apply lookup_insert_ne, Hpath. left.
  - intros f d Hin. apply Hpath. right. exact Hin.
Qed.

(** X28. Whatever a path holds after a command and did not hold before is
    the saved data of one of the fonts of the list, with the name table as
    the command changed it: nothing is deleted from the disk and nothing
    else is written. *)
Theorem run_writes_saved_fonts
  (cmd : Command) (fonts : list Font) (output_dir : OutputDir)
  (initial_check_pass overwrite : bool) (w : World) (path : string) :
  let w' := run cmd fonts output_dir initial_check_pass overwrite w in
  disk w' !! path = disk w !! path
  \/ exists font t mutated data,
       font ∈ fonts
       /\ name_table font = Some t
       /\ mutate cmd font t = Ok mutated
       /\ font_bytes (with_name_table font mutated) = Ok data
       /\ disk w' !! path = Some data.
Proof.
  cbv zeta.
  destruct (reaches_loop cmd initial_check_pass) eqn:Hloop.
  2:{ destruct (run_no_loop cmd fonts output_dir initial_check_pass overwrite w
                  Hloop) as [-> _]. left. reflexivity. }
  rewrite (run_loop _ _ _ _ _ _ Hloop). clear Hloop.
  revert w. induction fonts as [|font fonts IH]; intros w; [left; reflexivity|].
  cbn [fold_left].
  destruct (IH (process_font cmd output_dir overwrite w font))
    as [->|(f & t & mutated & data & Hin & Ht & Hm & Hb & Hd)].
  - destruct (process_font_disk cmd output_dir overwrite w font)
      as [->|(t & mutated & data & Ht & Hm & Hb & ->)]; [left; reflexivity|].
    destruct (decide (makeOutputFileName (file_name font) output_dir overwrite
                        (disk w) = path)) as [<-|Hne].
    + right. exists font, t, mutated, data.
      repeat split; try assumption; [left | apply lookup_insert_eq].
    + left. apply lookup_insert_ne, Hne.
  - right. exists f, t, mutated, data.
    repeat split; try assumption. right. exact Hin.
Qed.

(** X29. The nameIDs the [del_mac_names] command asks to delete are those
    of the Macintosh records of the table, each once; without [del_all]
    the nameIDs 1, 2, 4, 5 and 6 are never among them. *)
Theorem mac_name_ids_spec (t : TableName) (del_all : bool) :
  NoDup (mac_name_ids t del_all)
  /\ forall n : Z,
       n ∈ mac_name_ids t del_all
       <-> (exists r, r ∈ t /\ TTFontCLI.platformID r = 1
                      /\ TTFontCLI.nameID r = n)
           /\ (del_all = false -> n ∉ [1; 2; 4; 5; 6]).
Proof.
  unfold mac_name_ids. split; [apply NoDup_elements|].
  intros n.
  assert (Hmac : n ∈ (list_to_set
                        (map TTFontCLI.nameID
                           (List.filter
                              (fun name => TTFontCLI.platformID name =? 1) t))
                      : gset Z)
                 <-> exists r, r ∈ t /\ TTFontCLI.platformID r = 1
                               /\ TTFontCLI.nameID r = n).
  { rewrite elem_of_list_to_set, list_elem_of_In, in_map_iff. split.
    - intros (r & Hn & Hin). apply filter_In in Hin. destruct Hin as [Hin Hp].
      exists r. split; [apply list_elem_of_In, Hin|]. split; [lia | exact Hn].
    - intros (r & Hin & Hp & Hn). exists r. split; [exact Hn|].
      apply filter_In. split; [apply list_elem_of_In, Hin | lia]. }
  rewrite elem_of_elements. destruct del_all.
  - rewrite Hmac. split; [intros H; split; [exact H | discriminate] | tauto].
  - assert (Hset : n ∈ ({[1; 2; 4; 5; 6]} : gset Z) <-> n ∈ [1; 2; 4; 5; 6]).
    { rewrite !elem_of_union, !elem_of_singleton, !elem_of_cons, elem_of_nil.
      tauto. }
    rewrite elem_of_difference, Hmac, Hset. split.
    + intros [H Hn]. split; [exact H | intros _; exact Hn].
    + intros [H Hn]. split; [exact H | exact (Hn eq_refl)].
Qed.

End Commands.

Arguments Ok {Exception A} a.
Arguments Raise {Exception A} e.
Arguments mkFont {FontRest} file_name name_table rest.
Arguments name_table {FontRest} f.
Arguments file_name {FontRest} f.
Arguments mkWorld {Bytes Exception} disk console closed.
Arguments disk {Bytes Exception} w.
Arguments console {Bytes Exception} w.
Arguments file_saved_message {Exception} file.
Arguments file_not_changed_message {Exception} file.

(** *** A small instance: tables compile to the list of their texts, a font
    to the texts of its name table; [add_name] appends an English Windows
    record unless the same text is already there. *)
Module Example.

Definition compile (t : TableName) (font : Font unit) : result string (list string) :=
  Ok (map TTFontCLI.string_of t).

Definition font_bytes (font : Font unit) : result string (list string) :=
  match name_table font with
  | Some t => Ok (map TTFontCLI.string_of t)
  | None => Raise "KeyError"%string
  end.

Definition add_name (font : Font unit) (t : TableName) (name_id : Z)
  (text : string) (platform_id : option Z) (language_string : string)
  : result string TableName :=
  if existsb (fun r => String.eqb (TTFontCLI.string_of r) text) t then Ok t
  else Ok (t ++ [TTFontCLI.makeName text name_id 3 1 0x409])%list.

Definition no_change (t : TableName) : result string TableName := Ok t.

Definition output_name (file : string) (dir : unit) (overwrite : bool)
  (d : gmap string (list string)) : string := file.

Definition font : Font unit :=
  mkFont "Foo.ttf"%string (Some [TTFontCLI.makeName "Foo" 1 3 1 0x409]) tt.

Definition world : @World (list string) string :=
  mkWorld (<["Foo.ttf"%string := ["Foo"%string]]> ∅) [] [].

Definition turn (cmd : Command) : @World (list string) string :=
  process_font unit unit string "KeyError"%string add_name
    (fun t _ _ _ => no_change t) (fun t _ _ _ _ _ => no_change t)
    (fun t _ _ _ _ _ => no_change t) compile font_bytes output_name
    cmd tt true world font.

Example set_new_name_saves :
  console (turn (set_name 2 None "Bold" "en"))
  = [file_saved_message "Foo.ttf"%string]
  /\ disk (turn (set_name 2 None "Bold" "en")) !! "Foo.ttf"%string
     = Some ["Foo"; "Bold"]%string.
Proof. split; vm_compute; reflexivity. Qed.

Example set_same_name_keeps :
  console (turn (set_name 1 None "Foo" "en"))
  = [file_not_changed_message "Foo.ttf"%string]
  /\ disk (turn (set_name 1 None "Foo" "en")) = disk world.
Proof. split; vm_compute; reflexivity. Qed.

Lemma name_commands_save_iff_changed_witness :
  (disk (turn (set_name 1 None "Foo" "en")) = disk world
   /\ console (turn (set_name 1 None "Foo" "en"))
      = (console world ++ [file_not_changed_message "Foo.ttf"%string])%list)
  /\ (disk (turn (set_name 2 None "Bold" "en"))
      = <["Foo.ttf"%string := ["Foo"; "Bold"]%string]> (disk world)
      /\ console (turn (set_name 2 None "Bold" "en"))
         = (console world ++ [file_saved_message "Foo.ttf"%string])%list).
Proof.
  split.
  - destruct (name_commands_save_iff_changed unit unit string "KeyError"%string
                add_name (fun t _ _ _ => no_change t)
                (fun t _ _ _ _ _ => no_change t)
                (fun t _ _ _ _ _ => no_change t) compile font_bytes output_name
                (set_name 1 None "Foo" "en") tt true world font) as (H & _ & _).
    destruct (H [TTFontCLI.makeName "Foo" 1 3 1 0x409]
                [TTFontCLI.makeName "Foo" 1 3 1 0x409]
                ["Foo"%string] ["Foo"%string] eq_refl eq_refl eq_refl eq_refl)
      as (Hsame & _).
    exact (Hsame eq_refl).
  - destruct (name_commands_save_iff_changed unit unit string "KeyError"%string
                add_name (fun t _ _ _ => no_change t)
                (fun t _ _ _ _ _ => no_change t)
                (fun t _ _ _ _ _ => no_change t) compile font_bytes output_name
                (set_name 2 None "Bold" "en") tt true world font) as (H & _ & _).
    destruct (H [TTFontCLI.makeName "Foo" 1 3 1 0x409]
                [TTFontCLI.makeName "Foo" 1 3 1 0x409;
                 TTFontCLI.makeName "Bold" 2 3 1 0x409]
                ["Foo"%string] ["Foo"; "Bold"]%string
                eq_refl eq_refl eq_refl eq_refl)
      as (_ & Hdiffer).
    exact (Hdiffer ltac:(discriminate)).
Defined.

(** A font whose saving fails. *)
Definition font_bytes_fails (font : Font unit) : result string (list string) :=
  Raise "PermissionError"%string.

Definition turn_save_fails (cmd : Command) : @World (list string) string :=
  process_font unit unit string "KeyError"%string add_name
    (fun t _ _ _ => no_change t) (fun t _ _ _ _ _ => no_change t)
    (fun t _ _ _ _ _ => no_change t) compile font_bytes_fails output_name
    cmd tt true world font.

(** C8 as stated fails when saving the font raises: the compiled bytes of
    the copy and of the changed table differ, and no output file is written;
    the error is printed instead. *)
Lemma name_commands_differ_without_output :
  name_table font = Some [TTFontCLI.makeName "Foo" 1 3 1 0x409]
  /\ add_name font [TTFontCLI.makeName "Foo" 1 3 1 0x409] 2 "Bold" None "en"
     = Ok [TTFontCLI.makeName "Foo" 1 3 1 0x409;
           TTFontCLI.makeName "Bold" 2 3 1 0x409]
  /\ compile [TTFontCLI.makeName "Foo" 1 3 1 0x409] font
     <> compile [TTFontCLI.makeName "Foo" 1 3 1 0x409;
                 TTFontCLI.makeName "Bold" 2 3 1 0x409] font
  /\ disk (turn_save_fails (set_name 2 None "Bold" "en")) = disk world
  /\ console (turn_save_fails (set_name 2 None "Bold" "en"))
     = [generic_error_message string "PermissionError"%string].
Proof.
  split; [reflexivity|]. split; [reflexivity|].
  split; [discriminate|]. split; vm_compute; reflexivity.
Qed.

Example del_mac_names_ids :
  mac_name_ids [TTFontCLI.makeName "Foo" 1 1 0 0; TTFontCLI.makeName "7" 7 1 0 0;
                TTFontCLI.makeName "Foo" 1 3 1 0x409] false
  = [7].
Proof. vm_compute. reflexivity. Qed.

Lemma run_leaves_other_files_witness :
  disk (run unit unit string "KeyError"%string add_name
          (fun t _ _ _ => no_change t) (fun t _ _ _ _ _ => no_change t)
          (fun t _ _ _ _ _ => no_change t) compile font_bytes output_name
          (set_name 2 None "Bold" "en") [font] tt true true world)
    !! "Other.ttf"%string
  = disk world !! "Other.ttf"%string.
Proof.
  apply (run_leaves_other_files unit unit string "KeyError"%string add_name
           (fun t _ _ _ => no_change t) (fun t _ _ _ _ _ => no_change t)
           (fun t _ _ _ _ _ => no_change t) compile font_bytes output_name
           (set_name 2 None "Bold" "en") [font] tt true true world
           "Other.ttf"%string).
  intros f d Hin. apply list_elem_of_singleton in Hin. subst f.
  cbn. discriminate.
Defined.

End Example.
End FtcliName.
